(** * useLazyScriptLoader: the shared script registry and its hook

    A shallow embedding of [src/index.js].  The module-level map
    [_scriptStates], the record objects it points to, the script elements
    of the document and the [useState] cells of every hook instance are
    gathered in one explicit store, [World]; every function of the source
    becomes a function on that store. *)

From stdpp Require Import base strings list gmap.

(** ** JavaScript values *)

(** [record.status] is one of the strings 'loading', 'loaded', 'error'. *)
Inductive Status := st_loading | st_loaded | st_error.

#[global] Instance Status_eq_dec : EqDecision Status.
Proof. solve_decision. Defined.

(** An [Error] object; only its [message] is ever observed. *)
Record JsError := { message : string }.

#[global] Instance JsError_eq_dec : EqDecision JsError.
Proof. solve_decision. Defined.

(** Identity of a [subscriber] closure (line 18).  Every run of the effect
    builds a new closure; it captures the three setters of the hook
    instance [owner] that ran the effect. *)
Record Subscriber := { owner : nat; run : nat }.

#[global] Instance Subscriber_eq_dec : EqDecision Subscriber.
Proof. solve_decision. Defined.

(** The argument handed to a subscriber: [{ loaded, errorObj }]. *)
Record StatusUpdate := { loaded : bool; errorObj : option JsError }.

(** The record object stored in [_scriptStates] (lines 68-73).
    [scriptElement] is a reference into the element store. *)
Record ScriptRecord := {
  status : Status;
  scriptElement : nat;
  subscribers : list Subscriber;
  error : option JsError;
}.

(** The three state variables of one hook instance; also the object the
    hook returns (line 110).  [hookError] is the source's [error], renamed
    because the record object has a field of that name too. *)
Record HookState := {
  isLoading : bool;
  hookError : option JsError;
  isLoaded : bool;
}.

(** ** A JavaScript [Set]: insertion ordered, no duplicates *)
Module JsSet.
Section ops.
Context {A : Type} `{EqDecision A}.

Definition add (x : A) (s : list A) : list A :=
  if decide (x ∈ s) then s else s ++ [x].

Definition delete (x : A) (s : list A) : list A :=
  filter (λ y, y ≠ x) s.

Definition size (s : list A) : nat := length s.

(** [s.forEach(f)], for callbacks that leave [s] alone. *)
Definition forEach {W : Type} (f : A → W → W) (s : list A) (w : W) : W :=
  foldl (λ acc x, f x acc) w s.
End ops.
End JsSet.

(** ** The document *)

Inductive EventType := ev_load | ev_error.

#[global] Instance EventType_eq_dec : EqDecision EventType.
Proof. solve_decision. Defined.

(** The two closures registered as listeners (lines 76-87), with the
    variables they capture: the record object [newRecord], and for
    [handleError] also [scriptUrl]. *)
Inductive Listener :=
  | handleLoad_of (newRecord : nat)
  | handleError_of (scriptUrl : string) (newRecord : nat).

Record ScriptElement := {
  src : string;
  async : bool;
  listeners : list (EventType * Listener);
}.

(** ** The store *)

Record World := {
  scriptStates : gmap string nat;   (* _scriptStates: url -> record object *)
  heap : list ScriptRecord;         (* record objects, by reference *)
  nodes : list ScriptElement;       (* elements made by createElement *)
  documentHead : list nat;          (* children of document.head *)
  cells : gmap nat HookState;       (* useState cells, by hook instance *)
  fetches : list string;            (* src of every element appended *)
}.

Definition init : World :=
  {| scriptStates := ∅; heap := []; nodes := []; documentHead := [];
     cells := ∅; fetches := [] |}.

Definition set_scriptStates (f : gmap string nat → gmap string nat) (w : World) : World :=
  {| scriptStates := f (scriptStates w); heap := heap w; nodes := nodes w;
     documentHead := documentHead w; cells := cells w; fetches := fetches w |}.

Definition set_heap (f : list ScriptRecord → list ScriptRecord) (w : World) : World :=
  {| scriptStates := scriptStates w; heap := f (heap w); nodes := nodes w;
     documentHead := documentHead w; cells := cells w; fetches := fetches w |}.

Definition set_nodes (f : list ScriptElement → list ScriptElement) (w : World) : World :=
  {| scriptStates := scriptStates w; heap := heap w; nodes := f (nodes w);
     documentHead := documentHead w; cells := cells w; fetches := fetches w |}.

Definition set_documentHead (f : list nat → list nat) (w : World) : World :=
  {| scriptStates := scriptStates w; heap := heap w; nodes := nodes w;
     documentHead := f (documentHead w); cells := cells w; fetches := fetches w |}.

Definition set_cells (f : gmap nat HookState → gmap nat HookState) (w : World) : World :=
  {| scriptStates := scriptStates w; heap := heap w; nodes := nodes w;
     documentHead := documentHead w; cells := f (cells w); fetches := fetches w |}.

Definition set_fetches (f : list string → list string) (w : World) : World :=
  {| scriptStates := scriptStates w; heap := heap w; nodes := nodes w;
     documentHead := documentHead w; cells := cells w; fetches := f (fetches w) |}.

(** ** React state cells (lines 6-8) *)

(** [useState(true)], [useState(null)], [useState(false)]. *)
Definition useState_initial : HookState :=
  {| isLoading := true; hookError := None; isLoaded := false |}.

Definition cell (h : nat) (w : World) : HookState :=
  default useState_initial (cells w !! h).

Definition setIsLoading (h : nat) (b : bool) (w : World) : World :=
  let c := cell h w in
  set_cells <[h := {| isLoading := b; hookError := hookError c; isLoaded := isLoaded c |}]> w.

Definition setError (h : nat) (e : option JsError) (w : World) : World :=
  let c := cell h w in
  set_cells <[h := {| isLoading := isLoading c; hookError := e; isLoaded := isLoaded c |}]> w.

Definition setIsLoaded (h : nat) (b : bool) (w : World) : World :=
  let c := cell h w in
  set_cells <[h := {| isLoading := isLoading c; hookError := hookError c; isLoaded := b |}]> w.

(** ** DOM primitives *)

(** [document.createElement('script')]: a new element, not attached. *)
Definition createElement (w : World) : nat * World :=
  (length (nodes w),
   set_nodes (λ ns, ns ++ [{| src := ""; async := false; listeners := [] |}]) w).

Definition set_src (e : nat) (url : string) (w : World) : World :=
  set_nodes (alter (λ el, {| src := url; async := async el; listeners := listeners el |}) e) w.

Definition set_async (e : nat) (b : bool) (w : World) : World :=
  set_nodes (alter (λ el, {| src := src el; async := b; listeners := listeners el |}) e) w.

Definition addEventListener (e : nat) (ty : EventType) (l : Listener) (w : World) : World :=
  set_nodes (alter (λ el, {| src := src el; async := async el;
                             listeners := listeners el ++ [(ty, l)] |}) e) w.

(** [e.parentElement], as a truth value.  The hook only ever attaches
    elements to [document.head]. *)
Definition parentElement (e : nat) (w : World) : bool :=
  bool_decide (e ∈ documentHead w).

(** [document.head.appendChild(e)]; the call is logged with the [src] the
    element has at that moment, which is what the browser fetches. *)
Definition appendChild (e : nat) (w : World) : World :=
  let w := set_documentHead (λ hd, filter (λ x, x ≠ e) hd ++ [e]) w in
  match nodes w !! e with
  | Some el => set_fetches (λ log, log ++ [src el]) w
  | None => w
  end.

(** [document.head.removeChild(e)], for a child [e]. *)
Definition removeChild (e : nat) (w : World) : World :=
  set_documentHead (filter (λ x, x ≠ e)) w.

(** ** The effect body (lines 11-93) *)

(** Lines 18-32. *)
Definition subscriber (self : Subscriber) (statusUpdate : StatusUpdate) (w : World) : World :=
  let h := owner self in
  if loaded statusUpdate then
    let w := setIsLoading h false w in
    let w := setIsLoaded h true w in
    setError h None w
  else
    match errorObj statusUpdate with
    | Some e =>
        let w := setIsLoading h false w in
        let w := setIsLoaded h false w in
        setError h (Some e) w
    | None =>
        let w := setIsLoading h true w in
        let w := setIsLoaded h false w in
        setError h None w
    end.

Definition subscribers_of (r : nat) (w : World) : list Subscriber :=
  from_option subscribers [] (heap w !! r).

(** Lines 76-79. *)
Definition handleLoad (newRecord : nat) (w : World) : World :=
  let w := set_heap (alter (λ r, {| status := st_loaded; scriptElement := scriptElement r;
                                    subscribers := subscribers r; error := error r |})
                           newRecord) w in
  JsSet.forEach (λ sub, subscriber sub {| loaded := true; errorObj := None |})
                (subscribers_of newRecord w) w.

(** Lines 81-87. *)
Definition handleError (scriptUrl : string) (newRecord : nat) (w : World) : World :=
  let errorObj := {| message := "Failed to load script: " +:+ scriptUrl |} in
  let w := set_heap (alter (λ r, {| status := st_error; scriptElement := scriptElement r;
                                    subscribers := subscribers r; error := error r |})
                           newRecord) w in
  let w := set_heap (alter (λ r, {| status := status r; scriptElement := scriptElement r;
                                    subscribers := subscribers r; error := Some errorObj |})
                           newRecord) w in
  JsSet.forEach (λ sub, subscriber sub {| loaded := false; errorObj := Some errorObj |})
                (subscribers_of newRecord w) w.

(** [!scriptUrl] for a string-or-null argument. *)
Definition falsy (scriptUrl : option string) : bool :=
  match scriptUrl with
  | None => true
  | Some s => bool_decide (s = "")
  end.

(** The closure returned at line 95 captures [scriptUrl] and [subscriber]. *)
Definition Cleanup : Type := string * Subscriber.

(** Lines 11-93, run by hook instance [owner self]; [self] names the
    closure built at line 18.  The result says which cleanup, if any, the
    effect returned.  A reference stored in [_scriptStates] always points
    to a record object; a store in which it does not falls in the
    [default:] case of the switch. *)
Definition effect (scriptUrl : option string) (self : Subscriber) (w : World)
  : World * option Cleanup :=
  let h := owner self in
  if falsy scriptUrl then
    let w := setIsLoading h false w in
    let w := setError h (Some {| message := "scriptUrl cannot be empty" |}) w in
    let w := setIsLoaded h false w in
    (w, None)
  else
    let url := default "" scriptUrl in
    match scriptStates w !! url with
    | Some record =>
        let w :=
          match status <$> heap w !! record with
          | Some st_loaded =>
              let w := setIsLoading h false w in
              let w := setIsLoaded h true w in
              setError h None w
          | Some st_error =>
              let w := setIsLoading h false w in
              let w := setIsLoaded h false w in
              setError h (heap w !! record ≫= error) w
          | Some st_loading =>
              let w := setIsLoading h true w in
              let w := setIsLoaded h false w in
              let w := setError h None w in
              set_heap (alter (λ r, {| status := status r;
                                       scriptElement := scriptElement r;
                                       subscribers := JsSet.add self (subscribers r);
                                       error := error r |}) record) w
          | None => w
          end in
        (w, Some (url, self))
    | None =>
        let w := setIsLoading h true w in
        let w := setIsLoaded h false w in
        let w := setError h None w in
        let '(scriptElement, w) := createElement w in
        let w := set_src scriptElement url w in
        let w := set_async scriptElement true w in
        let newRecord := length (heap w) in
        let w := set_heap (λ hp, hp ++ [{| status := st_loading;
                                           scriptElement := scriptElement;
                                           subscribers := [self];
                                           error := None |}]) w in
        let w := set_scriptStates <[url := newRecord]> w in
        let w := addEventListener scriptElement ev_load (handleLoad_of newRecord) w in
        let w := addEventListener scriptElement ev_error (handleError_of url newRecord) w in
        let w := appendChild scriptElement w in
        (w, Some (url, self))
    end.

(** Lines 96-106. *)
Definition cleanup (c : Cleanup) (w : World) : World :=
  let '(scriptUrl, self) := c in
  match scriptStates w !! scriptUrl with
  | Some currentRecord =>
      let w := set_heap (alter (λ r, {| status := status r;
                                        scriptElement := scriptElement r;
                                        subscribers := JsSet.delete self (subscribers r);
                                        error := error r |}) currentRecord) w in
      match heap w !! currentRecord with
      | Some r =>
          if bool_decide (JsSet.size (subscribers r) = 0)
             && negb (bool_decide (status r = st_loading)) then
            let w := if parentElement (scriptElement r) w
                     then removeChild (scriptElement r) w else w in
            set_scriptStates (delete scriptUrl) w
          else w
      | None => w
      end
  | None => w
  end.

(** ** Events *)

Definition call (l : Listener) (w : World) : World :=
  match l with
  | handleLoad_of r => handleLoad r w
  | handleError_of url r => handleError url r w
  end.

(** The browser fires [ty] on element [e]: its listeners for that type
    run in registration order. *)
Definition dispatchEvent (e : nat) (ty : EventType) (w : World) : World :=
  match nodes w !! e with
  | Some el =>
      foldl (λ acc tl, if decide (tl.1 = ty) then call tl.2 acc else acc) w (listeners el)
  | None => w
  end.

(** ** Calls into the module

    Everything that can touch the store: the first render of a hook
    instance (which installs the [useState] initial values), a run of the
    effect, a run of a cleanup, and an event fired by the browser. *)

Inductive Call :=
  | CallRender (h : nat)
  | CallEffect (scriptUrl : option string) (self : Subscriber)
  | CallCleanup (c : Cleanup)
  | CallDispatch (e : nat) (ty : EventType).

Definition exec (c : Call) (w : World) : World :=
  match c with
  | CallRender h => set_cells <[h := useState_initial]> w
  | CallEffect scriptUrl self => (effect scriptUrl self w).1
  | CallCleanup c => cleanup c w
  | CallDispatch e ty => dispatchEvent e ty w
  end.

Definition execs (cs : list Call) (w : World) : World :=
  foldl (λ acc c, exec c acc) w cs.

(** A call that is not a completion event of a fetch. *)
Definition quiet (c : Call) : bool :=
  match c with
  | CallDispatch _ _ => false
  | _ => true
  end.

(** ** The hook, as React drives it

    One [Fiber] per mounted hook instance: the argument of its last
    render, the dependency array of its last committed effect, and the
    cleanup that effect returned. *)

Record Fiber := {
  props : option string;
  deps : option (option string);
  destroy : option Cleanup;
}.

Record React := {
  world : World;
  fibers : gmap nat Fiber;
  effectRuns : nat;
}.

Definition init_react : React :=
  {| world := init; fibers := ∅; effectRuns := 0 |}.

(** The render phase of [useLazyScriptLoader(scriptUrl)] for instance [h]
    (lines 6-8 and 110): on the first render [useState] installs its
    initial values; the effect is only scheduled, and the three state
    variables are returned as they are. An instance that was unmounted is
    not rendered again. *)
Definition useLazyScriptLoader (scriptUrl : option string) (h : nat) (st : React)
  : HookState * React :=
  match fibers st !! h with
  | Some f =>
      (cell h (world st),
       {| world := world st;
          fibers := <[h := {| props := scriptUrl; deps := deps f; destroy := destroy f |}]> (fibers st);
          effectRuns := effectRuns st |})
  | None =>
      match cells (world st) !! h with
      | Some _ => (cell h (world st), st)
      | None =>
          let w := exec (CallRender h) (world st) in
          (cell h w,
           {| world := w;
              fibers := <[h := {| props := scriptUrl; deps := None; destroy := None |}]> (fibers st);
              effectRuns := effectRuns st |})
      end
  end.

Definition run_destroy (d : option Cleanup) (w : World) : World :=
  match d with
  | Some c => exec (CallCleanup c) w
  | None => w
  end.

(** The commit phase for instance [h]: when [scriptUrl] differs from the
    dependency of the last committed effect (or none was committed yet),
    the previous cleanup runs and then the effect. *)
Definition commit (h : nat) (st : React) : React :=
  match fibers st !! h with
  | Some f =>
      if decide (deps f = Some (props f)) then st
      else
        let w := run_destroy (destroy f) (world st) in
        let self := {| owner := h; run := effectRuns st |} in
        let '(w, d) := effect (props f) self w in
        {| world := w;
           fibers := <[h := {| props := props f; deps := Some (props f); destroy := d |}]> (fibers st);
           effectRuns := S (effectRuns st) |}
  | None => st
  end.

Definition unmount (h : nat) (st : React) : React :=
  match fibers st !! h with
  | Some f =>
      {| world := run_destroy (destroy f) (world st);
         fibers := delete h (fibers st);
         effectRuns := effectRuns st |}
  | None => st
  end.

Inductive Op :=
  | Render (h : nat) (scriptUrl : option string)
  | Commit (h : nat)
  | Unmount (h : nat)
  | Fire (e : nat) (ty : EventType).

Definition step (op : Op) (st : React) : React :=
  match op with
  | Render h scriptUrl => (useLazyScriptLoader scriptUrl h st).2
  | Commit h => commit h st
  | Unmount h => unmount h st
  | Fire e ty =>
      {| world := exec (CallDispatch e ty) (world st);
         fibers := fibers st; effectRuns := effectRuns st |}
  end.

Definition steps (ops : list Op) (st : React) : React :=
  foldl (λ acc op, step op acc) st ops.

(** What the next render of instance [h] would return. *)
Definition view (h : nat) (st : React) : HookState := cell h (world st).

(** The key instance [h] currently asks for, if it is mounted. *)
Definition current_key (h : nat) (st : React) : option string :=
  fibers st !! h ≫= props.

(** Number of fetches started for [k]. *)
Definition fetch_count (k : string) (w : World) : nat :=
  length (filter (λ s, s = k) (fetches w)).

(** Number of script elements created with source [k]. *)
Definition created_count (k : string) (w : World) : nat :=
  length (filter (λ el, src el = k) (nodes w)).

(** The record object registered under [k], if any. *)
Definition record_of (k : string) (w : World) : option ScriptRecord :=
  scriptStates w !! k ≫= λ r, heap w !! r.

(** ** Vocabulary for the statements *)

Definition put (h : nat) (v : HookState) (w : World) : World :=
  set_cells <[h := v]> w.

(** The view a subscriber installs for a given status update. *)
Definition view_of (u : StatusUpdate) : HookState :=
  if loaded u then {| isLoading := false; hookError := None; isLoaded := true |}
  else match errorObj u with
       | Some e => {| isLoading := false; hookError := Some e; isLoaded := false |}
       | None => {| isLoading := true; hookError := None; isLoaded := false |}
       end.

(** Cells after a broadcast of [v] to the subscribers [subs]. *)
Definition broadcast (v : HookState) (subs : list Subscriber) (c : gmap nat HookState)
  : gmap nat HookState :=
  foldl (λ acc sub, <[owner sub := v]> acc) c subs.

Definition mark (st : Status) (e : option JsError → option JsError) (r : ScriptRecord)
  : ScriptRecord :=
  {| status := st; scriptElement := scriptElement r;
     subscribers := subscribers r; error := e (error r) |}.

Definition empty_key_error : JsError := {| message := "scriptUrl cannot be empty" |}.

(** The record and the element built at lines 64-73 and 89-90. *)
Definition fresh_record (self : Subscriber) (e : nat) : ScriptRecord :=
  {| status := st_loading; scriptElement := e; subscribers := [self]; error := None |}.

Definition fresh_element (k : string) (r : nat) : ScriptElement :=
  {| src := k; async := true;
     listeners := [(ev_load, handleLoad_of r); (ev_error, handleError_of k r)] |}.

Definition loading_view : HookState :=
  {| isLoading := true; hookError := None; isLoaded := false |}.

Definition loaded_view : HookState :=
  {| isLoading := false; hookError := None; isLoaded := true |}.

Definition error_view (e : option JsError) : HookState :=
  {| isLoading := false; hookError := e; isLoaded := false |}.

Definition add_subscriber (self : Subscriber) (r : ScriptRecord) : ScriptRecord :=
  {| status := status r; scriptElement := scriptElement r;
     subscribers := JsSet.add self (subscribers r); error := error r |}.

Definition drop_subscriber (self : Subscriber) (r : ScriptRecord) : ScriptRecord :=
  {| status := status r; scriptElement := scriptElement r;
     subscribers := JsSet.delete self (subscribers r); error := error r |}.

(** The view shows exactly one of: loading, loaded, an error. *)
Definition exactly_one_of_three (v : HookState) : Prop :=
  (isLoading v = true ∧ isLoaded v = false ∧ hookError v = None)
  ∨ (isLoading v = false ∧ isLoaded v = true ∧ hookError v = None)
  ∨ (isLoading v = false ∧ isLoaded v = false ∧ hookError v ≠ None).

(** What holds of every store the module can produce from [init].
    Records and elements are created together, one fetch each; an
    element keeps the source and the listeners it was given; a registered
    key points to the record whose element has that source; a Failed
    record carries its reason; the children of [document.head] are
    elements of registered records. *)
Record wf (w : World) : Prop := {
  wf_lockstep : length (heap w) = length (nodes w);
  wf_nodes : ∀ e el, nodes w !! e = Some el → el = fresh_element (src el) e;
  wf_heap : ∀ r rec, heap w !! r = Some rec →
      scriptElement rec = r ∧ (status rec = st_error → error rec ≠ None);
  wf_fetches : fetches w = src <$> nodes w;
  wf_registry : ∀ k r, scriptStates w !! k = Some r → src <$> nodes w !! r = Some k;
  wf_cells : ∀ h v, cells w !! h = Some v → exactly_one_of_three v;
  wf_head_nodup : NoDup (documentHead w);
  wf_head : ∀ e, e ∈ documentHead w → ∃ k, scriptStates w !! k = Some e;
}.

(** The key [k] has a record, and its fetch is in flight. *)
Definition pending (k : string) (w : World) : Prop :=
  ∃ r rec, scriptStates w !! k = Some r ∧ heap w !! r = Some rec
           ∧ status rec = st_loading.

(** ** Example stores *)

Definition url_s : string := "https://x/s.js".
Definition url_bad : string := "https://x/bad.js".

Definition consumer1 : Subscriber := {| owner := 1; run := 0 |}.
Definition consumer2 : Subscriber := {| owner := 2; run := 1 |}.

(** Two consumers subscribed to [url_s]; the fetch is in flight. *)
Definition two_pending : World :=
  execs [CallRender 1; CallEffect (Some url_s) consumer1;
         CallRender 2; CallEffect (Some url_s) consumer2] init.

(** The same, after the script loaded. *)
Definition two_loaded : World := dispatchEvent 0 ev_load two_pending.

(** One consumer left on the loaded script. *)
Definition one_loaded : World := cleanup (url_s, consumer1) two_loaded.

(** One consumer subscribed to [url_s]; the fetch is in flight. *)
Definition one_pending : World :=
  execs [CallRender 1; CallEffect (Some url_s) consumer1] init.

(** The keys used by the repository's tests. *)
Definition SCRIPT_URL_1 : string := "https://example.com/script1.js".
Definition SCRIPT_URL_2 : string := "https://example.com/script2.js".

(** A call that subscribes or renders: no cleanup, no event. *)
Definition subscribe_only (c : Call) : bool :=
  match c with
  | CallRender _ | CallEffect _ _ => true
  | _ => false
  end.

(** Every registered record has its script element among the children of
    [document.head]. *)
Definition attached (w : World) : Prop :=
  ∀ k r, scriptStates w !! k = Some r → r ∈ documentHead w.

(** No callback is twice in a subscriber set. *)
Definition nodup_subscribers (w : World) : Prop :=
  ∀ r rec, heap w !! r = Some rec → NoDup (subscribers rec).

(** Going from [w] to [w'] left the key [k] alone: same registry entry,
    same record, same number of fetches. *)
Definition untouched (k : string) (w w' : World) : Prop :=
  scriptStates w' !! k = scriptStates w !! k
  ∧ record_of k w' = record_of k w
  ∧ fetch_count k w' = fetch_count k w.

(** Every callback in a subscriber set of [w] is registered under a key,
    and belongs to a mounted instance of [fs] whose last committed effect
    was for that key and returned the cleanup for that callback. *)
Definition live_in (fs : gmap nat Fiber) (w : World) : Prop :=
  ∀ r rec sub, heap w !! r = Some rec → sub ∈ subscribers rec →
    ∃ k f, scriptStates w !! k = Some r ∧ fs !! owner sub = Some f
           ∧ destroy f = Some (k, sub) ∧ deps f = Some (Some k).

(** No callback of instance [h] is in any subscriber set of [w]. *)
Definition absent_from_sets (h : nat) (w : World) : Prop :=
  ∀ r rec sub, heap w !! r = Some rec → sub ∈ subscribers rec → owner sub ≠ h.

(** The view that shows the status of a record. *)
Definition view_for (rec : ScriptRecord) : HookState :=
  match status rec with
  | st_loading => {| isLoading := true; hookError := None; isLoaded := false |}
  | st_loaded => {| isLoading := false; hookError := None; isLoaded := true |}
  | st_error => {| isLoading := false; hookError := error rec; isLoaded := false |}
  end.

(** The state variables of every subscriber show the status of its record. *)
Definition mirror (w : World) : Prop :=
  ∀ r rec sub, heap w !! r = Some rec → sub ∈ subscribers rec →
    cells w !! owner sub = Some (view_for rec).

(** * The TypeScript variant of the hook

    The repository also holds the hook in TypeScript (the text after the
    separator in [src/useLazyScriptLoader.test.js], lines 327-463, which
    the [.test.tsx] suite imports). It shares the design of [index.js] and
    differs in the places modelled here: the initial [isLoading], the
    empty key, the branch for a known script, the handlers, which find
    the record by its key, and the optional [scriptElement] field. *)

Module Tsx.

(** [ScriptState] (lines 347-352). *)
Record ScriptState := {
  status : Status;
  error : option JsError;
  scriptElement : option nat;
  subscribers : list Subscriber;
}.

(** A script element; [onload] and [onerror] hold the arrow functions
    assigned at lines 417 and 428, named by the [scriptUrl] they capture. *)
Record ScriptElement := {
  src : string;
  async : bool;
  onload : option string;
  onerror : option string;
}.

Record World := {
  scriptStates : gmap string nat;
  heap : list ScriptState;
  nodes : list ScriptElement;
  documentHead : list nat;
  cells : gmap nat HookState;
  fetches : list string;
}.

Definition init : World :=
  {| scriptStates := ∅; heap := []; nodes := []; documentHead := [];
     cells := ∅; fetches := [] |}.

Definition set_scriptStates (f : gmap string nat → gmap string nat) (w : World) : World :=
  {| scriptStates := f (scriptStates w); heap := heap w; nodes := nodes w;
     documentHead := documentHead w; cells := cells w; fetches := fetches w |}.

Definition set_heap (f : list ScriptState → list ScriptState) (w : World) : World :=
  {| scriptStates := scriptStates w; heap := f (heap w); nodes := nodes w;
     documentHead := documentHead w; cells := cells w; fetches := fetches w |}.

Definition set_nodes (f : list ScriptElement → list ScriptElement) (w : World) : World :=
  {| scriptStates := scriptStates w; heap := heap w; nodes := f (nodes w);
     documentHead := documentHead w; cells := cells w; fetches := fetches w |}.

Definition set_documentHead (f : list nat → list nat) (w : World) : World :=
  {| scriptStates := scriptStates w; heap := heap w; nodes := nodes w;
     documentHead := f (documentHead w); cells := cells w; fetches := fetches w |}.

Definition set_cells (f : gmap nat HookState → gmap nat HookState) (w : World) : World :=
  {| scriptStates := scriptStates w; heap := heap w; nodes := nodes w;
     documentHead := documentHead w; cells := f (cells w); fetches := fetches w |}.

Definition set_fetches (f : list string → list string) (w : World) : World :=
  {| scriptStates := scriptStates w; heap := heap w; nodes := nodes w;
     documentHead := documentHead w; cells := cells w; fetches := f (fetches w) |}.

(** Lines 361-363: [useState(!!scriptUrl)], [useState(false)],
    [useState(null)]. *)
Definition useState_initial (scriptUrl : option string) : HookState :=
  {| isLoading := negb (falsy scriptUrl); hookError := None; isLoaded := false |}.

(** The state variables of instance [h]. Every branch of the effect sets
    all three, so what is read for an instance that never rendered does
    not matter. *)
Definition cell (h : nat) (w : World) : HookState :=
  default (useState_initial None) (cells w !! h).

Definition setIsLoading (h : nat) (b : bool) (w : World) : World :=
  let c := cell h w in
  set_cells <[h := {| isLoading := b; hookError := hookError c; isLoaded := isLoaded c |}]> w.

Definition setIsLoaded (h : nat) (b : bool) (w : World) : World :=
  let c := cell h w in
  set_cells <[h := {| isLoading := isLoading c; hookError := hookError c; isLoaded := b |}]> w.

Definition setError (h : nat) (e : option JsError) (w : World) : World :=
  let c := cell h w in
  set_cells <[h := {| isLoading := isLoading c; hookError := e; isLoaded := isLoaded c |}]> w.

(** Lines 375-379; the update has the shape of the hook's result. *)
Definition setStateForThisInstance (self : Subscriber) (newState : HookState) (w : World)
  : World :=
  let h := owner self in
  let w := setIsLoading h (isLoading newState) w in
  let w := setIsLoaded h (isLoaded newState) w in
  setError h (hookError newState) w.

Definition createElement (w : World) : nat * World :=
  (length (nodes w),
   set_nodes (λ ns, ns ++ [{| src := ""; async := false; onload := None; onerror := None |}]) w).

Definition set_src (e : nat) (url : string) (w : World) : World :=
  set_nodes (alter (λ el, {| src := url; async := async el;
                             onload := onload el; onerror := onerror el |}) e) w.

Definition set_async (e : nat) (b : bool) (w : World) : World :=
  set_nodes (alter (λ el, {| src := src el; async := b;
                             onload := onload el; onerror := onerror el |}) e) w.

Definition set_onload (e : nat) (url : string) (w : World) : World :=
  set_nodes (alter (λ el, {| src := src el; async := async el;
                             onload := Some url; onerror := onerror el |}) e) w.

Definition set_onerror (e : nat) (url : string) (w : World) : World :=
  set_nodes (alter (λ el, {| src := src el; async := async el;
                             onload := onload el; onerror := Some url |}) e) w.

(** [e.parentNode], as a truth value. *)
Definition parentNode (e : nat) (w : World) : bool :=
  bool_decide (e ∈ documentHead w).

Definition appendChild (e : nat) (w : World) : World :=
  let w := set_documentHead (λ hd, filter (λ x, x ≠ e) hd ++ [e]) w in
  match nodes w !! e with
  | Some el => set_fetches (λ log, log ++ [src el]) w
  | None => w
  end.

Definition removeChild (e : nat) (w : World) : World :=
  set_documentHead (filter (λ x, x ≠ e)) w.

Definition subscribers_of (r : nat) (w : World) : list Subscriber :=
  from_option subscribers [] (heap w !! r).

(** Lines 417-426: the record is looked up again, by key. *)
Definition onload_handler (scriptUrl : string) (w : World) : World :=
  match scriptStates w !! scriptUrl with
  | Some currentScriptState =>
      let w := set_heap (alter (λ r, {| status := st_loaded; error := error r;
                                        scriptElement := scriptElement r;
                                        subscribers := subscribers r |})
                               currentScriptState) w in
      let w := set_heap (alter (λ r, {| status := status r; error := None;
                                        scriptElement := scriptElement r;
                                        subscribers := subscribers r |})
                               currentScriptState) w in
      JsSet.forEach (λ sub, setStateForThisInstance sub
                              {| isLoading := false; hookError := None; isLoaded := true |})
                    (subscribers_of currentScriptState w) w
  | None => w
  end.

(** The argument of [onerror]: an [Event], or a string. *)
Inductive ErrorArgument :=
  | AnEvent
  | AString (s : string).

(** Lines 428-437. *)
Definition onerror_handler (scriptUrl : string) (event : ErrorArgument) (w : World)
  : World :=
  match scriptStates w !! scriptUrl with
  | Some currentScriptState =>
      let err := {| message := match event with
                               | AString s => s
                               | AnEvent => "Error loading script: " +:+ scriptUrl
                               end |} in
      let w := set_heap (alter (λ r, {| status := st_error; error := error r;
                                        scriptElement := scriptElement r;
                                        subscribers := subscribers r |})
                               currentScriptState) w in
      let w := set_heap (alter (λ r, {| status := status r; error := Some err;
                                        scriptElement := scriptElement r;
                                        subscribers := subscribers r |})
                               currentScriptState) w in
      JsSet.forEach (λ sub, setStateForThisInstance sub
                              {| isLoading := false; hookError := Some err;
                                 isLoaded := false |})
                    (subscribers_of currentScriptState w) w
  | None => w
  end.

(** Lines 366-440. As in [index.js], a reference found in the map points
    to a record object; a store in which it does not is left as it is. *)
Definition effect (scriptUrl : option string) (self : Subscriber) (w : World)
  : World * option Cleanup :=
  let h := owner self in
  if falsy scriptUrl then
    let w := setIsLoading h false w in
    let w := setIsLoaded h false w in
    let w := setError h None w in
    (w, None)
  else
    let url := default "" scriptUrl in
    match scriptStates w !! url with
    | Some scriptStateRecord =>
        match heap w !! scriptStateRecord with
        | Some r =>
            let w := setStateForThisInstance self
                       {| isLoading := bool_decide (status r = st_loading);
                          hookError := error r;
                          isLoaded := bool_decide (status r = st_loaded) |} w in
            let w := set_heap (alter (λ r, {| status := status r; error := error r;
                                              scriptElement := scriptElement r;
                                              subscribers := JsSet.add self (subscribers r) |})
                                     scriptStateRecord) w in
            (w, Some (url, self))
        | None => (w, Some (url, self))
        end
    | None =>
        let w := setIsLoading h true w in
        let w := setIsLoaded h false w in
        let w := setError h None w in
        let newSubscribers := JsSet.add self [] in
        let scriptStateRecord := length (heap w) in
        let w := set_heap (λ hp, hp ++ [{| status := st_loading; error := None;
                                           scriptElement := None;
                                           subscribers := newSubscribers |}]) w in
        let w := set_scriptStates <[url := scriptStateRecord]> w in
        let '(script, w) := createElement w in
        let w := set_src script url w in
        let w := set_async script true w in
        let w := set_heap (alter (λ r, {| status := status r; error := error r;
                                          scriptElement := Some script;
                                          subscribers := subscribers r |})
                                 scriptStateRecord) w in
        let w := set_onload script url w in
        let w := set_onerror script url w in
        let w := appendChild script w in
        (w, Some (url, self))
    end.

(** Lines 443-458. *)
Definition cleanup (c : Cleanup) (w : World) : World :=
  let '(scriptUrl, self) := c in
  if falsy (Some scriptUrl) then w
  else
    match scriptStates w !! scriptUrl with
    | Some currentScriptState =>
        let w := set_heap (alter (λ r, {| status := status r; error := error r;
                                          scriptElement := scriptElement r;
                                          subscribers := JsSet.delete self (subscribers r) |})
                                 currentScriptState) w in
        match heap w !! currentScriptState with
        | Some r =>
            if bool_decide (JsSet.size (subscribers r) = 0)
               && negb (bool_decide (status r = st_loading)) then
              let w := match scriptElement r with
                       | Some e => if parentNode e w then removeChild e w else w
                       | None => w
                       end in
              set_scriptStates (delete scriptUrl) w
            else w
        | None => w
        end
    | None => w
    end.

(** The browser calls [e.onload()] or [e.onerror(event)]. *)
Definition fire_load (e : nat) (w : World) : World :=
  match nodes w !! e ≫= onload with
  | Some url => onload_handler url w
  | None => w
  end.

Definition fire_error (e : nat) (event : ErrorArgument) (w : World) : World :=
  match nodes w !! e ≫= onerror with
  | Some url => onerror_handler url event w
  | None => w
  end.

(** The record object registered under [k], if any. *)
Definition record_of (k : string) (w : World) : option ScriptState :=
  scriptStates w !! k ≫= λ r, heap w !! r.

Definition fetch_count (k : string) (w : World) : nat :=
  length (filter (λ s, s = k) (fetches w)).

End Tsx.

(** Vocabulary for the statements about the TypeScript variant. *)
Definition tsx_put (h : nat) (v : HookState) (w : Tsx.World) : Tsx.World :=
  Tsx.set_cells <[h := v]> w.

Definition tsx_add_subscriber (self : Subscriber) (r : Tsx.ScriptState) : Tsx.ScriptState :=
  {| Tsx.status := Tsx.status r; Tsx.error := Tsx.error r;
     Tsx.scriptElement := Tsx.scriptElement r;
     Tsx.subscribers := JsSet.add self (Tsx.subscribers r) |}.

Definition tsx_drop_subscriber (self : Subscriber) (r : Tsx.ScriptState) : Tsx.ScriptState :=
  {| Tsx.status := Tsx.status r; Tsx.error := Tsx.error r;
     Tsx.scriptElement := Tsx.scriptElement r;
     Tsx.subscribers := JsSet.delete self (Tsx.subscribers r) |}.

Definition tsx_complete (st : Status) (e : option JsError) (r : Tsx.ScriptState)
  : Tsx.ScriptState :=
  {| Tsx.status := st; Tsx.error := e; Tsx.scriptElement := Tsx.scriptElement r;
     Tsx.subscribers := Tsx.subscribers r |}.

(** The view that shows the status of a record (lines 386-390). *)
Definition tsx_view_for (r : Tsx.ScriptState) : HookState :=
  {| isLoading := bool_decide (Tsx.status r = st_loading);
     hookError := Tsx.error r;
     isLoaded := bool_decide (Tsx.status r = st_loaded) |}.

(** What can happen to one key of the TypeScript variant while nobody
    unsubscribes: a consumer subscribes, or the element made for the key
    reports that it loaded or failed. *)
Inductive TsxKeyOp :=
  | TJoin (self : Subscriber)
  | TLoad
  | TFail (event : Tsx.ErrorArgument).

Definition tsx_key_op (k : string) (e : nat) (op : TsxKeyOp) (w : Tsx.World) : Tsx.World :=
  match op with
  | TJoin self => (Tsx.effect (Some k) self w).1
  | TLoad => Tsx.fire_load e w
  | TFail event => Tsx.fire_error e event w
  end.

Definition tsx_key_ops (k : string) (e : nat) (ops : list TsxKeyOp) (w : Tsx.World)
  : Tsx.World :=
  foldl (λ acc op, tsx_key_op k e op acc) w ops.

(** Key [k] is registered with record [r] and element [e], whose handlers
    are those made for [k]; the fetch log is [F], [N] elements exist, and
    every subscriber of the record is shown the record's status. *)
Definition tsx_key_inv (k : string) (e r : nat) (F : list string) (N : nat)
    (w : Tsx.World) : Prop :=
  Tsx.scriptStates w !! k = Some r
  ∧ Tsx.fetches w = F
  ∧ length (Tsx.nodes w) = N
  ∧ (∃ el, Tsx.nodes w !! e = Some el ∧ Tsx.onload el = Some k ∧ Tsx.onerror el = Some k)
  ∧ ∃ rec, Tsx.heap w !! r = Some rec ∧ Tsx.scriptElement rec = Some e
      ∧ ∀ s, s ∈ Tsx.subscribers rec → Tsx.cell (owner s) w = tsx_view_for rec.

(** A completion event leaves [w'] as [w] but for the status and error of
    records and the state variables. *)
Definition tsx_same_frame (w w' : Tsx.World) : Prop :=
  Tsx.scriptStates w' = Tsx.scriptStates w
  ∧ Tsx.documentHead w' = Tsx.documentHead w
  ∧ Tsx.nodes w' = Tsx.nodes w
  ∧ Tsx.fetches w' = Tsx.fetches w
  ∧ ∀ (r : nat) (rec : Tsx.ScriptState), Tsx.heap w !! r = Some rec →
      ∃ rec', Tsx.heap w' !! r = Some rec'
              ∧ Tsx.subscribers rec' = Tsx.subscribers rec
              ∧ Tsx.scriptElement rec' = Tsx.scriptElement rec.

(** An instance whose last committed effect was for an empty key has no
    cleanup to run and is shown the empty-key error. *)
Definition idle_shown (st : React) : Prop :=
  ∀ h f u, fibers st !! h = Some f → deps f = Some u → falsy u = true →
    destroy f = None
    ∧ cells (world st) !! h = Some (error_view (Some empty_key_error)).

(** ** The example application that loads on demand

    [App] of the second example: a [loadScript] flag, set by the button,
    decides whether the hook is given the script's URL or [null]. What is
    embedded is the call of the hook and which texts and panels the
    returned values select; the charts drawn with the loaded library are
    not. *)
Module App.

Definition SCRIPT_URL : string :=
  "https://cdnjs.cloudflare.com/ajax/libs/Chart.js/4.4.1/chart.min.js".

Inductive Panel :=
  | ReadyToLoad
  | Spinner
  | ErrorPanel (message : string)
  | Charts.

Record Screen := {
  button : string;
  main : list Panel;
}.

(** The [return] of [App]: the button and its text, and the panels of
    [<main>], each guarded by [loadScript] and one returned value. *)
Definition screen (loadScript : bool) (v : HookState) : Screen :=
  {| button :=
       if negb loadScript then "Load Chart.js & Display Charts"
       else if isLoading v then "Loading Script..."
       else if isLoaded v then "Charts Loaded Successfully!"
       else match hookError v with
            | Some _ => "Loading Failed!"
            | None => "Load Triggered!"
            end;
     main :=
       (if negb loadScript then [ReadyToLoad] else [])
       ++ (if loadScript && isLoading v then [Spinner] else [])
       ++ (match hookError v with
           | Some e => if loadScript then [ErrorPanel (message e)] else []
           | None => []
           end)
       ++ (if loadScript && isLoaded v then [Charts] else []) |}.

Record State := {
  loadScript : bool;
  hooks : React;
}.

(** One render of [App] as hook instance [h]. *)
Definition App (h : nat) (s : State) : Screen * State :=
  let '(v, st) := useLazyScriptLoader (if loadScript s then Some SCRIPT_URL else None)
                                      h (hooks s) in
  (screen (loadScript s) v, {| loadScript := loadScript s; hooks := st |}).

(** [onClick={() => setLoadScript(true)}]. *)
Definition onClick (s : State) : State :=
  {| loadScript := true; hooks := hooks s |}.

(** The effect of the render is committed. *)
Definition commitEffects (h : nat) (s : State) : State :=
  {| loadScript := loadScript s; hooks := commit h (hooks s) |}.

End App.

(** * Properties *)

(** ** The setters, taken together

    Every branch of the source calls the three setters in a row; together
    they overwrite the cell of the instance. *)

Lemma cell_put h v w : cell h (put h v w) = v.
Proof. unfold cell, put; simpl. by rewrite lookup_insert_eq. Qed.

Lemma cell_put_ne h h' v w : h ≠ h' → cell h' (put h v w) = cell h' w.
Proof. intros. unfold cell, put; simpl. by rewrite lookup_insert_ne. Qed.

Lemma setters_loading_loaded_error h b1 b2 e w :
  setError h e (setIsLoaded h b2 (setIsLoading h b1 w))
  = put h {| isLoading := b1; hookError := e; isLoaded := b2 |} w.
Proof.
  unfold setError, setIsLoaded, setIsLoading, put, cell, set_cells; destruct w; simpl.
  rewrite !lookup_insert_eq; simpl. by rewrite !insert_insert_eq.
Qed.

Lemma setters_loading_error_loaded h b1 b2 e w :
  setIsLoaded h b2 (setError h e (setIsLoading h b1 w))
  = put h {| isLoading := b1; hookError := e; isLoaded := b2 |} w.
Proof.
  unfold setError, setIsLoaded, setIsLoading, put, cell, set_cells; destruct w; simpl.
  rewrite !lookup_insert_eq; simpl. by rewrite !insert_insert_eq.
Qed.

Lemma subscriber_put self u w : subscriber self u w = put (owner self) (view_of u) w.
Proof.
  unfold subscriber, view_of. destruct (loaded u); [|destruct (errorObj u)];
    apply setters_loading_loaded_error.
Qed.

Lemma forEach_subscriber u subs w :
  JsSet.forEach (λ sub, subscriber sub u) subs w
  = set_cells (broadcast (view_of u) subs) w.
Proof.
  unfold JsSet.forEach, broadcast. revert w.
  induction subs as [|a subs IH]; intros w; simpl.
  - by destruct w.
  - rewrite IH, subscriber_put. by destruct w.
Qed.

Lemma broadcast_lookup_in v subs c sub :
  sub ∈ subs → broadcast v subs c !! owner sub = Some v.
Proof.
  unfold broadcast. revert c. induction subs as [|a subs IH] using rev_ind; intros c Hin.
  - by apply elem_of_nil in Hin.
  - rewrite foldl_app; simpl. apply elem_of_app in Hin as [Hin|Hin].
    + destruct (decide (owner a = owner sub)) as [->|Hne].
      * by rewrite lookup_insert_eq.
      * rewrite lookup_insert_ne by done. by apply IH.
    + apply list_elem_of_singleton in Hin as ->. by rewrite lookup_insert_eq.
Qed.

Lemma broadcast_lookup v subs c h :
  broadcast v subs c !! h = Some v ∨ broadcast v subs c !! h = c !! h.
Proof.
  unfold broadcast. revert c. induction subs as [|a subs IH]; intros c; simpl.
  - by right.
  - destruct (IH (<[owner a := v]> c)) as [->| ->]; [by left|].
    destruct (decide (owner a = h)) as [->|Hne].
    + left. by rewrite lookup_insert_eq.
    + right. by rewrite lookup_insert_ne.
Qed.

(** ** The handlers, as one store update *)

Lemma handleLoad_eq r w :
  handleLoad r w
  = set_cells (broadcast {| isLoading := false; hookError := None; isLoaded := true |}
                         (subscribers_of r w))
              (set_heap (alter (mark st_loaded id) r) w).
Proof.
  unfold handleLoad. rewrite forEach_subscriber. unfold subscribers_of; simpl.
  rewrite list_lookup_alter_eq. by destruct (heap w !! r).
Qed.

Lemma handleError_eq k r w :
  handleError k r w
  = set_cells (broadcast {| isLoading := false;
                            hookError := Some {| message := "Failed to load script: " +:+ k |};
                            isLoaded := false |}
                         (subscribers_of r w))
              (set_heap (alter (mark st_error (λ _, Some {| message := "Failed to load script: " +:+ k |})) r) w).
Proof.
  unfold handleError. rewrite forEach_subscriber.
  unfold subscribers_of, set_heap, set_cells; simpl.
  rewrite !list_lookup_alter_eq, list_alter_alter_eq.
  by destruct (heap w !! r).
Qed.

(** ** The effect, case by case *)

Lemma falsy_false scriptUrl :
  falsy scriptUrl = false ↔ ∃ k, scriptUrl = Some k ∧ k ≠ "".
Proof.
  destruct scriptUrl as [k|]; simpl.
  - rewrite bool_decide_eq_false. split; [eauto|]. by intros (? & [= <-] & ?).
  - split; [done|]. by intros (? & ? & ?).
Qed.

Lemma falsy_Some k : k ≠ "" → falsy (Some k) = false.
Proof. intros. apply falsy_false. eauto. Qed.

Lemma alter_snoc {A} (f : A → A) (l : list A) (x : A) :
  alter f (length l) (l ++ [x]) = l ++ [f x].
Proof.
  replace (length l) with (length l + 0) by lia. by rewrite alter_app_r.
Qed.

Lemma filter_ne_absent (e : nat) (l : list nat) :
  e ∉ l → filter (λ x, x ≠ e) l = l.
Proof.
  induction l as [|a l IH]; [done|]. intros Hn.
  apply not_elem_of_cons in Hn as [Hne Hn].
  rewrite filter_cons_True by done. by rewrite IH.
Qed.

Lemma effect_falsy scriptUrl self w :
  falsy scriptUrl = true →
  effect scriptUrl self w
  = (put (owner self) {| isLoading := false; hookError := Some empty_key_error;
                         isLoaded := false |} w, None).
Proof.
  intros Hf. unfold effect. rewrite Hf. by rewrite setters_loading_error_loaded.
Qed.

(** Store updates are evaluated innermost first, on a store given by its
    fields. *)
Ltac wsimpl :=
  cbv [put set_scriptStates set_heap set_nodes set_documentHead set_cells set_fetches
       scriptStates heap nodes documentHead cells fetches fst snd] in *.

Lemma effect_new k self w :
  k ≠ "" → scriptStates w !! k = None →
  effect (Some k) self w
  = ({| scriptStates := <[k := length (heap w)]> (scriptStates w);
        heap := heap w ++ [fresh_record self (length (nodes w))];
        nodes := nodes w ++ [fresh_element k (length (heap w))];
        documentHead := filter (λ x, x ≠ length (nodes w)) (documentHead w)
                        ++ [length (nodes w)];
        cells := <[owner self := loading_view]> (cells w);
        fetches := fetches w ++ [k] |},
     Some (k, self)).
Proof.
  intros Hk Hnone. unfold effect. rewrite falsy_Some by done.
  change (default "" (Some k)) with k.
  rewrite setters_loading_loaded_error. destruct w as [ss hp ns hd cs fs]. wsimpl.
  rewrite Hnone.
  unfold createElement, set_src, set_async, addEventListener, appendChild. wsimpl.
  rewrite !alter_snoc. cbn [src async listeners app].
  rewrite list_lookup_middle by done. reflexivity.
Qed.

Lemma heap_setters h b b' w :
  heap (setIsLoaded h b (setIsLoading h b' w)) = heap w.
Proof. reflexivity. Qed.

Lemma effect_existing k self w r rec :
  k ≠ "" → scriptStates w !! k = Some r → heap w !! r = Some rec →
  effect (Some k) self w
  = (match status rec with
     | st_loading =>
         set_heap (alter (add_subscriber self) r) (put (owner self) loading_view w)
     | st_loaded => put (owner self) loaded_view w
     | st_error => put (owner self) (error_view (error rec)) w
     end, Some (k, self)).
Proof.
  intros Hk Hr Hrec. unfold effect. rewrite falsy_Some by done.
  change (default "" (Some k)) with k.
  rewrite Hr, Hrec. cbn [fmap option_fmap option_map].
  destruct (status rec); rewrite ?heap_setters, setters_loading_loaded_error;
    try reflexivity.
  by rewrite Hrec.
Qed.

Lemma effect_dangling k self w r :
  k ≠ "" → scriptStates w !! k = Some r → heap w !! r = None →
  effect (Some k) self w = (w, Some (k, self)).
Proof.
  intros Hk Hr Hrec. unfold effect. rewrite falsy_Some by done.
  change (default "" (Some k)) with k.
  by rewrite Hr, Hrec.
Qed.

(** ** The cleanup, case by case *)

Lemma cleanup_absent k self w :
  scriptStates w !! k = None → cleanup (k, self) w = w.
Proof. intros H. unfold cleanup. by rewrite H. Qed.

Lemma alter_None {A} (f : A → A) (l : list A) (i : nat) :
  l !! i = None → alter f i l = l.
Proof.
  revert i. induction l as [|a l IH]; intros [|i] H; try done.
  cbn. f_equal. by apply IH.
Qed.

Lemma cleanup_dangling k self w r :
  scriptStates w !! k = Some r → heap w !! r = None → cleanup (k, self) w = w.
Proof.
  intros H1 H2. unfold cleanup. rewrite H1.
  destruct w as [ss hp ns hd cs fs]; wsimpl.
  rewrite list_lookup_alter_eq, H2. cbn [fmap option_fmap option_map].
  by rewrite alter_None.
Qed.

Lemma size_zero {A} (l : list A) : JsSet.size l = 0 ↔ l = [].
Proof. unfold JsSet.size. by destruct l. Qed.

Lemma cleanup_keep k self w r rec :
  scriptStates w !! k = Some r → heap w !! r = Some rec →
  JsSet.delete self (subscribers rec) ≠ [] ∨ status rec = st_loading →
  cleanup (k, self) w = set_heap (alter (drop_subscriber self) r) w.
Proof.
  intros H1 H2 Hkeep. unfold cleanup. rewrite H1.
  destruct w as [ss hp ns hd cs fs]; wsimpl.
  rewrite list_lookup_alter_eq, H2. cbn [fmap option_fmap option_map subscribers status].
  destruct Hkeep as [Hne| ->].
  - rewrite bool_decide_eq_false_2; [done|]. by rewrite size_zero.
  - rewrite (bool_decide_eq_true_2 (st_loading = st_loading)) by done.
    by rewrite andb_false_r.
Qed.

Lemma cleanup_teardown k self w r rec :
  scriptStates w !! k = Some r → heap w !! r = Some rec →
  JsSet.delete self (subscribers rec) = [] → status rec ≠ st_loading →
  cleanup (k, self) w
  = set_scriptStates (delete k)
      (set_documentHead (filter (λ x, x ≠ scriptElement rec))
         (set_heap (alter (drop_subscriber self) r) w)).
Proof.
  intros H1 H2 Hempty Hst. unfold cleanup. rewrite H1.
  destruct w as [ss hp ns hd cs fs]; wsimpl.
  rewrite list_lookup_alter_eq, H2.
  cbn [fmap option_fmap option_map subscribers status scriptElement].
  rewrite Hempty.
  rewrite (bool_decide_eq_true_2 (JsSet.size [] = 0)) by done.
  rewrite (bool_decide_eq_false_2 (status rec = st_loading)) by done.
  cbn [andb negb]. unfold parentElement, removeChild. wsimpl.
  case_bool_decide as Hin; [done|]. by rewrite filter_ne_absent.
Qed.

(** ** Unsubscribing *)

Lemma record_of_Some k w rec :
  record_of k w = Some rec ↔ ∃ r, scriptStates w !! k = Some r ∧ heap w !! r = Some rec.
Proof.
  unfold record_of. destruct (scriptStates w !! k) as [r|]; cbn [mbind option_bind].
  - split; [eauto|]. by intros (? & [= <-] & ?).
  - split; [done|]. by intros (? & ? & ?).
Qed.

Lemma delete_keeps_others (self other : Subscriber) (subs : list Subscriber) :
  other ∈ subs → other ≠ self → other ∈ JsSet.delete self subs.
Proof. intros. unfold JsSet.delete. by apply list_elem_of_filter. Qed.

Lemma delete_last (self : Subscriber) (subs : list Subscriber) :
  (∀ x, x ∈ subs → x = self) → JsSet.delete self subs = [].
Proof.
  unfold JsSet.delete. induction subs as [|a subs IH]; intros Honly; [done|].
  rewrite filter_cons_False.
  - apply IH. intros x Hx. apply Honly. by right.
  - intros Hne. apply Hne, Honly. by left.
Qed.

Lemma lookup_alter_Some {A} (f : A → A) (l : list A) (i : nat) (x : A) :
  l !! i = Some x → alter f i l !! i = Some (f x).
Proof. intros H. by rewrite list_lookup_alter_eq, H. Qed.

(** What holds of the callbacks that are in the set. In any store, when
    the subscriber set of the record of [k] has a member [other] besides
    the one that unsubscribes, the cleanup only takes [self] out of the
    set: the children of [document.head] and the registry are untouched,
    [k] still has its record with the same script element and status, and
    [other] is still in the set. A consumer that subscribed after the
    script completed is not in the set, and is not protected by this. *)
Theorem unsubscribe_with_others_keeps_script
    (w : World) (k : string) (self other : Subscriber) (rec : ScriptRecord) :
  record_of k w = Some rec →
  other ∈ subscribers rec →
  other ≠ self →
  let w' := cleanup (k, self) w in
  documentHead w' = documentHead w
  ∧ scriptStates w' = scriptStates w
  ∧ nodes w' = nodes w
  ∧ record_of k w' = Some (drop_subscriber self rec)
  ∧ scriptElement (drop_subscriber self rec) = scriptElement rec
  ∧ status (drop_subscriber self rec) = status rec
  ∧ other ∈ subscribers (drop_subscriber self rec).
Proof.
  intros Hrec Hin Hne w'. apply record_of_Some in Hrec as (r & Hk & Hr).
  pose proof (delete_keeps_others _ _ _ Hin Hne) as Hstill.
  assert (w' = set_heap (alter (drop_subscriber self) r) w) as ->.
  { apply cleanup_keep with rec; [done..|]. left. intros Hnil.
    rewrite Hnil in Hstill. by apply elem_of_nil in Hstill. }
  repeat split; try done.
  apply record_of_Some. exists r. split; [done|].
  by apply lookup_alter_Some.
Qed.

(** C3. Unsubscribing while another consumer remains subscribed does
    tear the script down when that consumer subscribed after the script
    completed. Take any state in which the record of [k] is Loaded or
    Failed, its element is a child of [document.head], and the callback
    [c1] of the mounted instance [h1] is the only one in its set. A new
    instance [h2] renders with [k] and its effect is committed: [h2] is
    mounted on [k], is shown the outcome and holds the cleanup for its
    callback, but the record is left as it was and the callback is not in
    the set. When [h1] then unmounts, the element is removed from
    [document.head] and [k] is deleted from the registry, with [h2] still
    mounted on [k] and its cleanup not yet run. *)
Theorem unsubscribe_tears_down_under_late_subscriber
    (st : React) (k : string) (h1 h2 : nat) (f1 : Fiber) (c1 : Subscriber)
    (r : nat) (rec : ScriptRecord) :
  k ≠ "" →
  scriptStates (world st) !! k = Some r →
  heap (world st) !! r = Some rec →
  status rec ≠ st_loading →
  scriptElement rec ∈ documentHead (world st) →
  (∀ x, x ∈ subscribers rec → x = c1) →
  fibers st !! h1 = Some f1 →
  destroy f1 = Some (k, c1) →
  owner c1 = h1 →
  fibers st !! h2 = None →
  cells (world st) !! h2 = None →
  let c2 := {| owner := h2; run := effectRuns st |} in
  let mounted_on_k (s : React) :=
    ∃ f2, fibers s !! h2 = Some f2 ∧ props f2 = Some k ∧ deps f2 = Some (Some k)
          ∧ destroy f2 = Some (k, c2) in
  let st1 := steps [Render h2 (Some k); Commit h2] st in
  let st2 := step (Unmount h1) st1 in
  (mounted_on_k st1
   ∧ view h2 st1 = match status rec with
                   | st_loaded => {| isLoading := false; hookError := None;
                                     isLoaded := true |}
                   | _ => {| isLoading := false; hookError := error rec;
                             isLoaded := false |}
                   end
   ∧ record_of k (world st1) = Some rec
   ∧ (c2 ∉ subscribers rec)
   ∧ scriptElement rec ∈ documentHead (world st1))
  ∧ (mounted_on_k st2
     ∧ scriptStates (world st2) !! k = None
     ∧ record_of k (world st2) = None
     ∧ (scriptElement rec ∉ documentHead (world st2))).
Proof.
  intros Hk Hr Hrec Hst Hhead Honly Hf1 Hd1 Ho1 Hf2 Hc2 c2 mounted_on_k st1 st2.
  assert (h1 ≠ h2) as Hne by (intros ->; congruence).
  pose proof (delete_last _ _ Honly) as Hempty.
  set (v := match status rec with
            | st_loaded => loaded_view
            | _ => error_view (error rec)
            end).
  set (w0 := set_cells <[h2 := useState_initial]> (world st)).
  assert (scriptStates w0 !! k = Some r) as Hr0 by (subst w0; by destruct (world st)).
  assert (heap w0 !! r = Some rec) as Hrec0 by (subst w0; by destruct (world st)).
  assert (effect (Some k) c2 w0 = (put h2 v w0, Some (k, c2))) as Heff.
  { rewrite (effect_existing _ _ _ _ _ Hk Hr0 Hrec0). subst v c2. cbn [owner].
    by destruct (status rec). }
  assert (st1 = {| world := put h2 v w0;
                   fibers := <[h2 := {| props := Some k; deps := Some (Some k);
                                        destroy := Some (k, c2) |}]>
                               (<[h2 := {| props := Some k; deps := None;
                                           destroy := None |}]> (fibers st));
                   effectRuns := S (effectRuns st) |}) as Hst1.
  { subst st1. unfold steps. cbn [foldl step]. unfold useLazyScriptLoader.
    rewrite Hf2, Hc2. cbn [snd exec]. unfold commit. cbn [fibers world effectRuns].
    rewrite lookup_insert_eq. cbn [deps props destroy run_destroy].
    destruct (decide (None = Some (Some k))) as [Heq|_]; [discriminate Heq|].
    fold w0. fold c2. by rewrite Heff. }
  assert (st2 = {| world := cleanup (k, c1) (put h2 v w0);
                   fibers := delete h1 (fibers st1);
                   effectRuns := S (effectRuns st) |}) as Hst2.
  { subst st2. cbn [step]. unfold unmount.
    assert (fibers st1 !! h1 = Some f1) as ->
      by (rewrite Hst1; cbn [fibers]; by rewrite !lookup_insert_ne).
    rewrite Hd1. cbn [run_destroy exec]. by rewrite Hst1. }
  assert (scriptStates (put h2 v w0) !! k = Some r) as Hr1
    by (subst w0; by destruct (world st)).
  assert (heap (put h2 v w0) !! r = Some rec) as Hrec1
    by (subst w0; by destruct (world st)).
  assert (documentHead (put h2 v w0) = documentHead (world st)) as Hhd1
    by (subst w0; by destruct (world st)).
  split.
  - split.
    { rewrite Hst1. eexists. cbn [fibers]. rewrite lookup_insert_eq. done. }
    split.
    { rewrite Hst1. unfold view. cbn [world]. rewrite cell_put. subst v.
      by destruct (status rec). }
    split; [rewrite Hst1; cbn [world]; apply record_of_Some; eauto|].
    split.
    { intros Hin. apply Honly in Hin. subst c2.
      assert (h2 = h1) as Heq by (by rewrite <- Ho1, <- Hin).
      congruence. }
    rewrite Hst1. cbn [world]. by rewrite Hhd1.
  - rewrite Hst2. cbn [world fibers].
    rewrite (cleanup_teardown _ _ _ _ _ Hr1 Hrec1 Hempty Hst).
    assert (scriptStates (set_scriptStates (delete k)
              (set_documentHead (filter (λ x, x ≠ scriptElement rec))
                 (set_heap (alter (drop_subscriber c1) r) (put h2 v w0)))) !! k = None)
      as Hgone.
    { destruct (put h2 v w0). wsimpl. apply lookup_delete_eq. }
    split.
    { eexists. cbn [fibers]. rewrite lookup_delete_ne by done. rewrite Hst1.
      cbn [fibers]. rewrite lookup_insert_eq. done. }
    split; [exact Hgone|].
    split; [unfold record_of; by rewrite Hgone|].
    destruct (put h2 v w0). wsimpl. intros Hin.
    apply list_elem_of_filter in Hin as [Hcontra _]. done.
Qed.

(** C4. When [self] is the last subscriber of a record of [k] that is
    Loaded or Failed, its cleanup takes the script element out of
    [document.head] and deletes the record from the registry; a subscribe
    to [k] after that builds a new record object (at a reference no record
    had before), Pending, with the new subscriber alone, creates a new
    script element for [k], appends it and so starts a new fetch. *)
Theorem last_unsubscribe_tears_down_then_refetch
    (w : World) (k : string) (self : Subscriber) (r : nat) (rec : ScriptRecord) :
  k ≠ "" →
  scriptStates w !! k = Some r →
  heap w !! r = Some rec →
  status rec ≠ st_loading →
  self ∈ subscribers rec →
  (∀ x, x ∈ subscribers rec → x = self) →
  let w' := cleanup (k, self) w in
  scriptStates w' !! k = None
  ∧ (scriptElement rec ∉ documentHead w')
  ∧ ∀ self' : Subscriber,
      let w'' := (effect (Some k) self' w').1 in
      let r' := length (heap w) in
      let e' := length (nodes w) in
      r' ≠ r
      ∧ scriptStates w'' !! k = Some r'
      ∧ heap w'' !! r' = Some (fresh_record self' e')
      ∧ nodes w !! e' = None
      ∧ nodes w'' !! e' = Some (fresh_element k r')
      ∧ e' ∈ documentHead w''
      ∧ fetches w'' = fetches w ++ [k]
      ∧ cell (owner self') w'' = loading_view.
Proof.
  intros Hk Hr Hrec Hst Hin Honly w'.
  pose proof (delete_last _ _ Honly) as Hempty.
  assert (w' = set_scriptStates (delete k)
                 (set_documentHead (filter (λ x, x ≠ scriptElement rec))
                    (set_heap (alter (drop_subscriber self) r) w))) as ->
    by by apply cleanup_teardown.
  assert (∀ v, scriptStates (set_scriptStates (delete k) v) !! k = None) as Hdel.
  { intros v. destruct v. wsimpl. apply lookup_delete_eq. }
  split; [apply Hdel|].
  split.
  { destruct w. wsimpl. intros Hin'. apply list_elem_of_filter in Hin' as [Hne _]. done. }
  intros self' w'' r' e'. subst w''.
  rewrite effect_new; [|done|apply Hdel].
  apply lookup_lt_Some in Hrec as Hlt.
  destruct w as [ss hp ns hd cs fs]. unfold cell. wsimpl.
  rewrite length_alter.
  split; [subst r'; lia|].
  split; [apply lookup_insert_eq|].
  split.
  { replace r' with (length (alter (drop_subscriber self) r hp))
      by apply length_alter.
    by apply list_lookup_middle. }
  split; [apply lookup_ge_None; subst e'; lia|].
  split; [by apply list_lookup_middle|].
  split; [apply elem_of_app; right; by apply list_elem_of_singleton|].
  split; [done|].
  by rewrite lookup_insert_eq.
Qed.

(** A completion handler leaves the registry map alone. *)
Lemma scriptStates_dispatchEvent e ty w :
  scriptStates (dispatchEvent e ty w) = scriptStates w.
Proof.
  unfold dispatchEvent. destruct (nodes w !! e) as [el|]; [|done].
  generalize (listeners el). intros ls.
  assert (∀ v, scriptStates v = scriptStates w →
    scriptStates (foldl (λ acc tl, if decide (tl.1 = ty) then call tl.2 acc else acc)
                        v ls) = scriptStates w) as Hfold.
  { induction ls as [|[ty' l] ls IH]; intros v Hv; [done|].
    cbn [foldl]. apply IH. cbn [fst snd]. destruct (decide (ty' = ty)); [|done].
    destruct l; cbn [call]; [rewrite handleLoad_eq|rewrite handleError_eq]; done. }
  by apply Hfold.
Qed.

(** C5. A Pending record is not torn down: whoever unsubscribes from [k]
    while its record is Pending -- the last subscriber included -- leaves
    the registry, the children of [document.head], the elements and the
    fetch log as they were, and the record stays Pending with the same
    element. And whenever a call makes the record of [k] leave the
    registry, that call is a cleanup for [k] that found the record Loaded
    or Failed and left it without subscribers. *)
Theorem pending_record_never_torn_down
    (w : World) (k : string) (r : nat) (rec : ScriptRecord) :
  scriptStates w !! k = Some r →
  heap w !! r = Some rec →
  (status rec = st_loading →
   ∀ self : Subscriber,
     let w' := cleanup (k, self) w in
     scriptStates w' = scriptStates w
     ∧ documentHead w' = documentHead w
     ∧ nodes w' = nodes w
     ∧ fetches w' = fetches w
     ∧ heap w' !! r = Some (drop_subscriber self rec)
     ∧ status (drop_subscriber self rec) = st_loading
     ∧ scriptElement (drop_subscriber self rec) = scriptElement rec)
  ∧ (∀ c : Call,
       scriptStates (exec c w) !! k = None →
       ∃ self : Subscriber,
         c = CallCleanup (k, self)
         ∧ status rec ≠ st_loading
         ∧ JsSet.size (JsSet.delete self (subscribers rec)) = 0).
Proof.
  intros Hr Hrec. split.
  - intros Hst self w'.
    assert (w' = set_heap (alter (drop_subscriber self) r) w) as ->
      by (apply cleanup_keep with rec; auto).
    repeat split; try done. by apply lookup_alter_Some.
  - intros c Hgone. destruct c as [h|scriptUrl self|[k' self]|e ty]; cbn [exec] in Hgone.
    + destruct w; wsimpl. congruence.
    + exfalso. destruct (falsy scriptUrl) eqn:Hf.
      * rewrite effect_falsy in Hgone by done. destruct w; wsimpl. congruence.
      * apply falsy_false in Hf as (k' & -> & Hk').
        destruct (scriptStates w !! k') as [r'|] eqn:Hr'.
        -- destruct (heap w !! r') as [rec'|] eqn:Hrec'.
           ++ rewrite (effect_existing _ _ _ _ _ Hk' Hr' Hrec') in Hgone.
              destruct (status rec'); destruct w; wsimpl; congruence.
           ++ rewrite (effect_dangling _ _ _ _ Hk' Hr' Hrec') in Hgone.
              cbn [fst] in Hgone. congruence.
        -- rewrite (effect_new _ _ _ Hk' Hr') in Hgone. cbn [fst scriptStates] in Hgone.
           rewrite lookup_insert_ne in Hgone by congruence. congruence.
    + destruct (scriptStates w !! k') as [r'|] eqn:Hr'.
      2:{ rewrite cleanup_absent in Hgone by done. congruence. }
      destruct (heap w !! r') as [rec'|] eqn:Hrec'.
      2:{ rewrite (cleanup_dangling _ _ _ _ Hr' Hrec') in Hgone. congruence. }
      destruct (decide (JsSet.delete self (subscribers rec') = [])) as [Hempty|Hne].
      2:{ rewrite (cleanup_keep _ _ _ _ _ Hr' Hrec') in Hgone by auto.
          destruct w; wsimpl; congruence. }
      destruct (decide (status rec' = st_loading)) as [Hst|Hst].
      { rewrite (cleanup_keep _ _ _ _ _ Hr' Hrec') in Hgone by auto.
        destruct w; wsimpl; congruence. }
      rewrite (cleanup_teardown _ _ _ _ _ Hr' Hrec' Hempty Hst) in Hgone.
      destruct (decide (k' = k)) as [->|Hkk].
      * assert (r' = r) as -> by congruence.
        assert (rec' = rec) as -> by congruence.
        exists self. by rewrite Hempty.
      * destruct w; wsimpl. rewrite lookup_delete_ne in Hgone by done. congruence.
    + exfalso. rewrite scriptStates_dispatchEvent in Hgone. congruence.
Qed.

(** ** Completion of a fetch *)

Lemma dispatch_load_fresh e k r el w :
  nodes w !! e = Some el →
  listeners el = [(ev_load, handleLoad_of r); (ev_error, handleError_of k r)] →
  dispatchEvent e ev_load w = handleLoad r w.
Proof. intros He Hl. unfold dispatchEvent. by rewrite He, Hl. Qed.

Lemma dispatch_error_fresh e k r el w :
  nodes w !! e = Some el →
  listeners el = [(ev_load, handleLoad_of r); (ev_error, handleError_of k r)] →
  dispatchEvent e ev_error w = handleError k r w.
Proof. intros He Hl. unfold dispatchEvent. by rewrite He, Hl. Qed.

Lemma subscribers_of_Some r w rec :
  heap w !! r = Some rec → subscribers_of r w = subscribers rec.
Proof. intros H. unfold subscribers_of. by rewrite H. Qed.

(** Completion on an element that carries the two listeners of its
    record, in any store. *)
Lemma completion_on_fresh_element
    (w : World) (k : string) (r : nat) (rec : ScriptRecord) (el : ScriptElement) :
  scriptStates w !! k = Some r →
  heap w !! r = Some rec →
  nodes w !! scriptElement rec = Some el →
  listeners el = [(ev_load, handleLoad_of r); (ev_error, handleError_of k r)] →
  (let w' := dispatchEvent (scriptElement rec) ev_load w in
   record_of k w'
   = Some {| status := st_loaded; scriptElement := scriptElement rec;
             subscribers := subscribers rec; error := error rec |}
   ∧ ∀ sub, sub ∈ subscribers rec →
       cell (owner sub) w'
       = {| isLoading := false; hookError := None; isLoaded := true |})
  ∧ (let R := {| message := "Failed to load script: " +:+ k |} in
     let w' := dispatchEvent (scriptElement rec) ev_error w in
     record_of k w'
     = Some {| status := st_error; scriptElement := scriptElement rec;
               subscribers := subscribers rec; error := Some R |}
     ∧ ∀ sub, sub ∈ subscribers rec →
         cell (owner sub) w'
         = {| isLoading := false; hookError := Some R; isLoaded := false |}).
Proof.
  intros Hk Hrec Hel Hls. split.
  - intros w'. subst w'. rewrite (dispatch_load_fresh _ _ _ _ _ Hel Hls), handleLoad_eq.
    rewrite (subscribers_of_Some _ _ _ Hrec). split.
    + apply record_of_Some. exists r. split; [done|].
      by apply (lookup_alter_Some (mark st_loaded id)).
    + intros sub Hin. unfold cell. destruct w; wsimpl.
      by rewrite (broadcast_lookup_in _ _ _ _ Hin).
  - intros R w'. subst w'. rewrite (dispatch_error_fresh _ _ _ _ _ Hel Hls), handleError_eq.
    rewrite (subscribers_of_Some _ _ _ Hrec). split.
    + apply record_of_Some. exists r. split; [done|].
      by apply (lookup_alter_Some (mark st_error (λ _, Some R))).
    + intros sub Hin. unfold cell. destruct w; wsimpl.
      by rewrite (broadcast_lookup_in _ _ _ _ Hin).
Qed.

(** ** Absent or empty key *)

(** C7, as the code has it. For an absent or empty key the effect sets
    loading=false, loaded=false and error to the Error object with
    message "scriptUrl cannot be empty"; it returns no cleanup, and it
    leaves the registry, the record objects, the elements, the children
    of [document.head] and the fetch log untouched. *)
Theorem empty_key_sets_error_and_skips_registry
    (scriptUrl : option string) (self : Subscriber) (w : World) :
  scriptUrl = None ∨ scriptUrl = Some "" →
  let w' := (effect scriptUrl self w).1 in
  cell (owner self) w'
  = {| isLoading := false;
       hookError := Some {| message := "scriptUrl cannot be empty" |};
       isLoaded := false |}
  ∧ (effect scriptUrl self w).2 = None
  ∧ scriptStates w' = scriptStates w
  ∧ heap w' = heap w
  ∧ nodes w' = nodes w
  ∧ documentHead w' = documentHead w
  ∧ fetches w' = fetches w.
Proof.
  intros Hempty w'. subst w'.
  rewrite effect_falsy by (by destruct Hempty as [-> | ->]).
  cbn [fst snd]. by rewrite cell_put.
Qed.

(** ** The failure reason *)

(** C8, as the code has it. Subscribe to a key [k] that has no record,
    then let the fetch fail: the subscriber's error is the Error object
    whose message is "Failed to load script: " followed by [k], and the
    record stores the same object. *)
Theorem failure_message_is_failed_to_load
    (w : World) (k : string) (self : Subscriber) :
  k ≠ "" →
  scriptStates w !! k = None →
  let w1 := (effect (Some k) self w).1 in
  let w2 := dispatchEvent (length (nodes w)) ev_error w1 in
  cell (owner self) w2
  = {| isLoading := false;
       hookError := Some {| message := "Failed to load script: " +:+ k |};
       isLoaded := false |}
  ∧ (record_of k w2 ≫= error) = Some {| message := "Failed to load script: " +:+ k |}
  ∧ status <$> record_of k w2 = Some st_error.
Proof.
  intros Hk Hnone w1 w2. subst w1 w2. rewrite effect_new by done. cbn [fst].
  erewrite dispatch_error_fresh;
    [|cbn [nodes]; by apply list_lookup_middle|reflexivity].
  rewrite handleError_eq. unfold subscribers_of, record_of, cell.
  destruct w as [ss hp ns hd cs fs]. wsimpl.
  rewrite lookup_insert_eq. cbn [mbind option_bind].
  rewrite list_lookup_alter_eq, !list_lookup_middle by done.
  cbn [fmap option_fmap option_map from_option subscribers fresh_record mark
       broadcast foldl owner status error mbind option_bind default].
  by rewrite lookup_insert_eq.
Qed.

(** ** Stores the module can produce *)

Lemma wf_init : wf init.
Proof.
  split; unfold init; wsimpl; try done.
  - constructor.
  - intros e He. by apply elem_of_nil in He.
Qed.

Lemma wf_put h v w : wf w → exactly_one_of_three v → wf (put h v w).
Proof.
  intros [] Hv. destruct w as [ss hp ns hd cs fs]. split; wsimpl; try done.
  intros h' v' Hl. destruct (decide (h = h')) as [->|Hne].
  - rewrite lookup_insert_eq in Hl. by injection Hl as <-.
  - rewrite lookup_insert_ne in Hl by done. eauto.
Qed.

Lemma wf_broadcast v subs w :
  wf w → exactly_one_of_three v → wf (set_cells (broadcast v subs) w).
Proof.
  intros [] Hv. destruct w as [ss hp ns hd cs fs]. split; wsimpl; try done.
  intros h' v' Hl. destruct (broadcast_lookup v subs cs h') as [Hb|Hb];
    rewrite Hb in Hl; [by injection Hl as <-|eauto].
Qed.

(** Updating a record in place, keeping its element and not making it a
    Failed record without a reason. *)
Lemma wf_alter (f : ScriptRecord → ScriptRecord) r w :
  wf w →
  (∀ rec, scriptElement (f rec) = scriptElement rec) →
  (∀ rec, (status rec = st_error → error rec ≠ None) →
          status (f rec) = st_error → error (f rec) ≠ None) →
  wf (set_heap (alter f r) w).
Proof.
  intros [] Hel Herr. destruct w as [ss hp ns hd cs fs]. split; wsimpl; try done.
  - by rewrite length_alter.
  - intros r' rec' Hl. destruct (decide (r = r')) as [->|Hne].
    + rewrite list_lookup_alter_eq in Hl.
      destruct (hp !! r') as [rec|] eqn:Hrec; [|done].
      injection Hl as <-. destruct (wf_heap0 _ _ Hrec) as [H1 H2].
      split; [by rewrite Hel|by apply Herr].
    + rewrite list_lookup_alter_ne in Hl by done. eauto.
Qed.

Lemma exactly_one_loading : exactly_one_of_three loading_view.
Proof. left. done. Qed.

Lemma exactly_one_loaded : exactly_one_of_three loaded_view.
Proof. right; left. done. Qed.

Lemma exactly_one_error e : e ≠ None → exactly_one_of_three (error_view e).
Proof. intros. right; right. done. Qed.

Lemma wf_handleLoad r w : wf w → wf (handleLoad r w).
Proof.
  intros Hw. rewrite handleLoad_eq.
  apply wf_broadcast; [|apply exactly_one_loaded].
  apply wf_alter; [done|done|]. intros rec _ Hst. done.
Qed.

Lemma wf_handleError k r w : wf w → wf (handleError k r w).
Proof.
  intros Hw. rewrite handleError_eq.
  apply wf_broadcast; [|by apply (exactly_one_error (Some _))].
  apply wf_alter; [done|done|]. intros rec _ _. done.
Qed.

Lemma wf_dispatchEvent e ty w : wf w → wf (dispatchEvent e ty w).
Proof.
  intros Hw. unfold dispatchEvent. destruct (nodes w !! e) as [el|]; [|done].
  generalize (listeners el). intros ls. revert w Hw.
  induction ls as [|[ty' l] ls IH]; intros w Hw; [done|].
  cbn [foldl fst snd]. apply IH. destruct (decide (ty' = ty)); [|done].
  destruct l; cbn [call]; [by apply wf_handleLoad|by apply wf_handleError].
Qed.

Lemma wf_effect_new k self w :
  wf w → k ≠ "" → scriptStates w !! k = None → wf (effect (Some k) self w).1.
Proof.
  intros [] Hk Hnone. rewrite effect_new by done.
  destruct w as [ss hp ns hd cs fs]. split; wsimpl.
  - rewrite !length_app. cbn [length]. lia.
  - intros e el Hl. apply lookup_snoc_Some in Hl as [[_ Hl]|[-> <-]]; [eauto|].
    cbn [src fresh_element]. by rewrite wf_lockstep0.
  - intros r rec Hl. apply lookup_snoc_Some in Hl as [[_ Hl]|[-> <-]]; [eauto|].
    cbn [fresh_record scriptElement status]. split; [done|done].
  - rewrite fmap_app. by rewrite wf_fetches0.
  - intros k' r Hl. destruct (decide (k = k')) as [->|Hne].
    + rewrite lookup_insert_eq in Hl. injection Hl as <-.
      rewrite wf_lockstep0. by rewrite list_lookup_middle.
    + rewrite lookup_insert_ne in Hl by done.
      pose proof (wf_registry0 _ _ Hl) as Hsrc.
      destruct (ns !! r) as [el|] eqn:Hel; [|done].
      rewrite lookup_app_l by (by eapply lookup_lt_Some). by rewrite Hel.
  - intros h v Hl. destruct (decide (owner self = h)) as [<-|Hne].
    + rewrite lookup_insert_eq in Hl. injection Hl as <-. apply exactly_one_loading.
    + rewrite lookup_insert_ne in Hl by done. eauto.
  - apply NoDup_app. split; [by apply NoDup_filter|]. split; [|apply NoDup_singleton].
    intros x Hx Hx'. apply list_elem_of_singleton in Hx' as ->.
    apply list_elem_of_filter in Hx as [Hne _]. done.
  - intros e He. apply elem_of_app in He as [He|He].
    + apply list_elem_of_filter in He as [_ He].
      destruct (wf_head0 _ He) as (k' & Hk').
      exists k'. rewrite lookup_insert_ne; [done|]. congruence.
    + apply list_elem_of_singleton in He as ->. exists k.
      by rewrite lookup_insert_eq, wf_lockstep0.
Qed.

Lemma wf_effect scriptUrl self w : wf w → wf (effect scriptUrl self w).1.
Proof.
  intros Hw. destruct (falsy scriptUrl) eqn:Hf.
  { rewrite effect_falsy by done. cbn [fst]. apply wf_put; [done|].
    by apply (exactly_one_error (Some _)). }
  apply falsy_false in Hf as (k & -> & Hk).
  destruct (scriptStates w !! k) as [r|] eqn:Hr; [|by apply wf_effect_new].
  destruct (heap w !! r) as [rec|] eqn:Hrec.
  2:{ by rewrite (effect_dangling _ _ _ _ Hk Hr Hrec). }
  rewrite (effect_existing _ _ _ _ _ Hk Hr Hrec). cbn [fst].
  destruct (status rec) eqn:Hst.
  - apply wf_alter; [|done|done]. apply wf_put; [done|apply exactly_one_loading].
  - apply wf_put; [done|apply exactly_one_loaded].
  - apply wf_put; [done|]. apply exactly_one_error.
    destruct Hw. by apply (wf_heap0 _ _ Hrec).
Qed.

Lemma wf_cleanup c w : wf w → wf (cleanup c w).
Proof.
  intros Hw. destruct c as [k self].
  destruct (scriptStates w !! k) as [r|] eqn:Hr.
  2:{ by rewrite cleanup_absent. }
  destruct (heap w !! r) as [rec|] eqn:Hrec.
  2:{ by rewrite (cleanup_dangling _ _ _ _ Hr Hrec). }
  assert (wf (set_heap (alter (drop_subscriber self) r) w)) as Hw1
    by (by apply wf_alter).
  destruct (decide (JsSet.delete self (subscribers rec) = [])) as [Hempty|Hne].
  2:{ rewrite (cleanup_keep _ _ _ _ _ Hr Hrec) by auto. done. }
  destruct (decide (status rec = st_loading)) as [Hst|Hst].
  { rewrite (cleanup_keep _ _ _ _ _ Hr Hrec) by auto. done. }
  rewrite (cleanup_teardown _ _ _ _ _ Hr Hrec Hempty Hst).
  destruct Hw as [_ _ Hheap _ _ _ _ _]. destruct (Hheap _ _ Hrec) as [Hel _].
  destruct Hw1. destruct w as [ss hp ns hd cs fs]. split; wsimpl; try done.
  - intros k' r' Hl. apply lookup_delete_Some in Hl as [_ Hl]. eauto.
  - by apply NoDup_filter.
  - intros e He. apply list_elem_of_filter in He as [Hne He].
    destruct (wf_head0 _ He) as (k' & Hk'). exists k'.
    rewrite lookup_delete_ne; [done|]. intros ->. congruence.
Qed.

Lemma wf_exec c w : wf w → wf (exec c w).
Proof.
  intros Hw. destruct c; cbn [exec].
  - apply (wf_put h useState_initial w Hw). apply exactly_one_loading.
  - by apply wf_effect.
  - by apply wf_cleanup.
  - by apply wf_dispatchEvent.
Qed.

Lemma wf_execs cs w : wf w → wf (execs cs w).
Proof.
  unfold execs. revert w. induction cs as [|c cs IH]; intros w Hw; [done|].
  cbn [foldl]. by apply IH, wf_exec.
Qed.

(** Every step of the hook acts on the store through calls. *)
Lemma step_as_calls op st : ∃ cs, world (step op st) = execs cs (world st).
Proof.
  destruct op as [h scriptUrl|h|h|e ty]; cbn [step].
  - unfold useLazyScriptLoader. destruct (fibers st !! h).
    + by exists [].
    + destruct (cells (world st) !! h); [by exists []|]. by exists [CallRender h].
  - unfold commit. destruct (fibers st !! h) as [f|]; [|by exists []].
    destruct (decide (deps f = Some (props f))); [by exists []|].
    destruct (destroy f) as [c|]; cbn [run_destroy].
    + exists [CallCleanup c; CallEffect (props f) {| owner := h; run := effectRuns st |}].
      cbn [execs foldl exec].
      by destruct (effect (props f) _ (cleanup c (world st))).
    + exists [CallEffect (props f) {| owner := h; run := effectRuns st |}].
      cbn [execs foldl exec].
      by destruct (effect (props f) _ (world st)).
  - unfold unmount. destruct (fibers st !! h) as [f|]; [|by exists []].
    destruct (destroy f) as [c|]; [by exists [CallCleanup c]|by exists []].
  - by exists [CallDispatch e ty].
Qed.

Lemma wf_steps ops st : wf (world st) → wf (world (steps ops st)).
Proof.
  unfold steps. revert st. induction ops as [|op ops IH]; intros st Hw; [done|].
  cbn [foldl]. apply IH. destruct (step_as_calls op st) as [cs ->].
  by apply wf_execs.
Qed.

(** ** Completion, in the stores the module produces *)

(** C6. In every store the module produces from the initial one, take a
    key [k] whose record is Pending. When the browser fires [load] on the
    record's script element, the record becomes Loaded and every
    subscriber in its set has its view set to loading=false, loaded=true,
    error=null. When it fires [error], the record becomes Failed with the
    reason [R] that [handleError] builds, and every subscriber in its set
    gets loading=false, loaded=false, error=R. The subscriber set is the
    same afterwards. *)
Theorem completion_reaches_every_subscriber
    (cs : list Call) (k : string) (r : nat) (rec : ScriptRecord) :
  scriptStates (execs cs init) !! k = Some r →
  heap (execs cs init) !! r = Some rec →
  status rec = st_loading →
  let w := execs cs init in
  (let w' := dispatchEvent (scriptElement rec) ev_load w in
   record_of k w'
   = Some {| status := st_loaded; scriptElement := scriptElement rec;
             subscribers := subscribers rec; error := error rec |}
   ∧ ∀ sub, sub ∈ subscribers rec →
       cell (owner sub) w'
       = {| isLoading := false; hookError := None; isLoaded := true |})
  ∧ (let R := {| message := "Failed to load script: " +:+ k |} in
     let w' := dispatchEvent (scriptElement rec) ev_error w in
     record_of k w'
     = Some {| status := st_error; scriptElement := scriptElement rec;
               subscribers := subscribers rec; error := Some R |}
     ∧ ∀ sub, sub ∈ subscribers rec →
         cell (owner sub) w'
         = {| isLoading := false; hookError := Some R; isLoaded := false |}).
Proof.
  intros Hk Hrec _ w. assert (wf w) as [] by apply wf_execs, wf_init.
  destruct (wf_heap0 _ _ Hrec) as [Hself _].
  pose proof (wf_registry0 _ _ Hk) as Hsrc.
  destruct (nodes w !! r) as [el|] eqn:Hel; [|done]. injection Hsrc as Hsrc.
  pose proof (wf_nodes0 _ _ Hel) as Hfresh.
  apply (completion_on_fresh_element w k r rec el); [done|done|by rewrite Hself|].
  rewrite Hfresh, Hsrc. done.
Qed.

(** ** One fetch per key *)

Lemma pending_put k h v w : pending k w → pending k (put h v w).
Proof. intros (r & rec & ? & ? & ?). exists r, rec. by destruct w. Qed.

Lemma pending_alter k (f : ScriptRecord → ScriptRecord) r' w :
  (∀ x, status (f x) = status x) →
  pending k w → pending k (set_heap (alter f r') w).
Proof.
  intros Hf (r & rec & Hr & Hrec & Hst). destruct w as [ss hp ns hd cs fs]. wsimpl.
  destruct (decide (r' = r)) as [->|Hne].
  - exists r, (f rec). wsimpl. split; [done|]. split; [by apply lookup_alter_Some|].
    by rewrite Hf.
  - exists r, rec. wsimpl. split; [done|]. split; [|done].
    by rewrite list_lookup_alter_ne.
Qed.

Lemma fetch_count_snoc_ne k k' (log : list string) :
  k' ≠ k → length (filter (λ s, s = k) (log ++ [k'])) = length (filter (λ s, s = k) log).
Proof.
  intros Hne. rewrite filter_app, filter_cons_False, filter_nil by done.
  by rewrite app_nil_r.
Qed.

Lemma fetch_count_snoc_eq k (log : list string) :
  length (filter (λ s, s = k) (log ++ [k])) = length (filter (λ s, s = k) log) + 1.
Proof.
  rewrite filter_app, filter_cons_True, filter_nil by done.
  by rewrite length_app.
Qed.

Lemma created_count_snoc_ne k (el : ScriptElement) (ns : list ScriptElement) :
  src el ≠ k →
  length (filter (λ x, src x = k) (ns ++ [el])) = length (filter (λ x, src x = k) ns).
Proof.
  intros Hne. rewrite filter_app, filter_cons_False, filter_nil by done.
  by rewrite app_nil_r.
Qed.

Lemma created_count_snoc_eq k (el : ScriptElement) (ns : list ScriptElement) :
  src el = k →
  length (filter (λ x, src x = k) (ns ++ [el])) = length (filter (λ x, src x = k) ns) + 1.
Proof.
  intros Heq. rewrite filter_app, filter_cons_True, filter_nil by done.
  by rewrite length_app.
Qed.

(** While the fetch for [k] is in flight, no render, effect or cleanup
    ends it, starts another one, or creates another element for [k]. *)
Lemma exec_quiet_pending k c w :
  pending k w → quiet c = true →
  pending k (exec c w)
  ∧ fetch_count k (exec c w) = fetch_count k w
  ∧ created_count k (exec c w) = created_count k w.
Proof.
  intros Hp Hq. destruct c as [h|scriptUrl self|[k' self]|e ty]; [| | |done];
    cbn [exec].
  - split; [by apply (pending_put k h useState_initial)|]. by destruct w.
  - destruct (falsy scriptUrl) eqn:Hf.
    { rewrite effect_falsy by done. cbn [fst]. split; [by apply pending_put|].
      by destruct w. }
    apply falsy_false in Hf as (k' & -> & Hk').
    destruct (scriptStates w !! k') as [r'|] eqn:Hr'.
    + destruct (heap w !! r') as [rec'|] eqn:Hrec'.
      * rewrite (effect_existing _ _ _ _ _ Hk' Hr' Hrec'). cbn [fst].
        destruct (status rec').
        -- split; [by apply pending_alter, pending_put|]. by destruct w.
        -- split; [by apply pending_put|]. by destruct w.
        -- split; [by apply pending_put|]. by destruct w.
      * by rewrite (effect_dangling _ _ _ _ Hk' Hr' Hrec').
    + rewrite (effect_new _ _ _ Hk' Hr'). cbn [fst].
      destruct Hp as (r & rec & Hr & Hrec & Hst).
      assert (k' ≠ k) as Hne by congruence.
      unfold fetch_count, created_count. cbn [fetches nodes].
      rewrite fetch_count_snoc_ne, created_count_snoc_ne by done.
      split; [|done]. exists r, rec. cbn [scriptStates heap].
      rewrite lookup_insert_ne by done. split; [done|]. split; [|done].
      rewrite lookup_app_l; [done|]. by eapply lookup_lt_Some.
  - destruct (scriptStates w !! k') as [r'|] eqn:Hr'.
    2:{ by rewrite cleanup_absent. }
    destruct (heap w !! r') as [rec'|] eqn:Hrec'.
    2:{ by rewrite (cleanup_dangling _ _ _ _ Hr' Hrec'). }
    destruct (decide (JsSet.delete self (subscribers rec') = [])) as [Hempty|Hne].
    2:{ rewrite (cleanup_keep _ _ _ _ _ Hr' Hrec') by auto.
        split; [by apply pending_alter|]. by destruct w. }
    destruct (decide (status rec' = st_loading)) as [Hst|Hst].
    { rewrite (cleanup_keep _ _ _ _ _ Hr' Hrec') by auto.
      split; [by apply pending_alter|]. by destruct w. }
    rewrite (cleanup_teardown _ _ _ _ _ Hr' Hrec' Hempty Hst).
    assert (k' ≠ k) as Hne.
    { intros ->. destruct Hp as (r & rec & Hr & Hrec & Hst'). congruence. }
    apply (pending_alter k (drop_subscriber self) r') in Hp; [|done].
    destruct Hp as (r & rec & Hr & Hrec & Hst').
    split; [|by destruct w]. exists r, rec.
    destruct w as [ss hp ns hd cs fs]. wsimpl.
    by rewrite lookup_delete_ne.
Qed.

(** While [k] has no record, the only render, effect or cleanup that
    gives it one is an effect for [k]; that effect starts the one fetch. *)
Lemma exec_quiet_absent k c w :
  k ≠ "" → scriptStates w !! k = None → quiet c = true →
  ((∃ self, c = CallEffect (Some k) self)
   ∧ pending k (exec c w)
   ∧ fetch_count k (exec c w) = fetch_count k w + 1
   ∧ created_count k (exec c w) = created_count k w + 1)
  ∨ ((∀ self, c ≠ CallEffect (Some k) self)
     ∧ scriptStates (exec c w) !! k = None
     ∧ fetch_count k (exec c w) = fetch_count k w
     ∧ created_count k (exec c w) = created_count k w).
Proof.
  intros Hk Hnone Hq. destruct c as [h|scriptUrl self|[k' self]|e ty]; [| | |done];
    cbn [exec].
  - right. split; [done|]. by destruct w.
  - destruct (falsy scriptUrl) eqn:Hf.
    { right. split.
      { intros self' [= -> _]. by rewrite falsy_Some in Hf. }
      rewrite effect_falsy by done. by destruct w. }
    apply falsy_false in Hf as (k' & -> & Hk').
    destruct (decide (k' = k)) as [->|Hne].
    + left. split; [by exists self|]. rewrite (effect_new _ _ _ Hk Hnone). cbn [fst].
      unfold fetch_count, created_count. cbn [fetches nodes].
      rewrite fetch_count_snoc_eq, created_count_snoc_eq by done.
      split; [|done]. exists (length (heap w)), (fresh_record self (length (nodes w))).
      cbn [scriptStates heap]. rewrite lookup_insert_eq.
      split; [done|]. split; [by apply list_lookup_middle|done].
    + right. split; [intros self' [= ? _]; done|].
      destruct (scriptStates w !! k') as [r'|] eqn:Hr'.
      * destruct (heap w !! r') as [rec'|] eqn:Hrec'.
        -- rewrite (effect_existing _ _ _ _ _ Hk' Hr' Hrec'). cbn [fst].
           destruct (status rec'); by destruct w.
        -- by rewrite (effect_dangling _ _ _ _ Hk' Hr' Hrec').
      * rewrite (effect_new _ _ _ Hk' Hr'). cbn [fst].
        unfold fetch_count, created_count. cbn [fetches nodes scriptStates].
        rewrite fetch_count_snoc_ne, created_count_snoc_ne by done.
        by rewrite lookup_insert_ne.
  - right. split; [done|].
    destruct (scriptStates w !! k') as [r'|] eqn:Hr'.
    2:{ by rewrite cleanup_absent. }
    destruct (heap w !! r') as [rec'|] eqn:Hrec'.
    2:{ by rewrite (cleanup_dangling _ _ _ _ Hr' Hrec'). }
    destruct (decide (JsSet.delete self (subscribers rec') = [])) as [Hempty|Hne].
    2:{ rewrite (cleanup_keep _ _ _ _ _ Hr' Hrec') by auto. by destruct w. }
    destruct (decide (status rec' = st_loading)) as [Hst|Hst].
    { rewrite (cleanup_keep _ _ _ _ _ Hr' Hrec') by auto. by destruct w. }
    rewrite (cleanup_teardown _ _ _ _ _ Hr' Hrec' Hempty Hst).
    destruct w as [ss hp ns hd cs fs]. wsimpl.
    split; [|done]. apply lookup_delete_None. by right.
Qed.

Lemma execs_quiet_pending k cs w :
  pending k w → forallb quiet cs = true →
  pending k (execs cs w)
  ∧ fetch_count k (execs cs w) = fetch_count k w
  ∧ created_count k (execs cs w) = created_count k w.
Proof.
  unfold execs. revert w. induction cs as [|c cs IH]; intros w Hp Hq; [done|].
  cbn [forallb] in Hq. apply andb_true_iff in Hq as [Hc Hcs]. cbn [foldl].
  destruct (exec_quiet_pending k c w Hp Hc) as (Hp' & Hf & Hn).
  destruct (IH _ Hp' Hcs) as (? & ? & ?). split; [done|]. split; congruence.
Qed.

Lemma execs_quiet_absent k cs w :
  k ≠ "" → scriptStates w !! k = None → forallb quiet cs = true →
  (∃ self, CallEffect (Some k) self ∈ cs) →
  pending k (execs cs w)
  ∧ fetch_count k (execs cs w) = fetch_count k w + 1
  ∧ created_count k (execs cs w) = created_count k w + 1.
Proof.
  intros Hk. unfold execs. revert w.
  induction cs as [|c cs IH]; intros w Hnone Hq [self Hin].
  { by apply elem_of_nil in Hin. }
  cbn [forallb] in Hq. apply andb_true_iff in Hq as [Hc Hcs]. cbn [foldl].
  destruct (exec_quiet_absent k c w Hk Hnone Hc)
    as [(_ & Hp & Hf & Hn)|(Hnot & Hnone' & Hf & Hn)].
  - destruct (execs_quiet_pending k cs _ Hp Hcs) as (? & ? & ?).
    unfold execs in *. split; [done|]. split; congruence.
  - apply elem_of_cons in Hin as [<-|Hin]; [by destruct (Hnot self)|].
    destruct (IH _ Hnone' Hcs) as (? & ? & ?); [by exists self|].
    split; [done|]. split; congruence.
Qed.

(** C1. Start from a store in which [k] has no record and run any
    sequence of renders, effects and cleanups (for any keys, by any
    consumers) in which no completion event fires. If [k] is subscribed to
    at all -- once or N times -- then exactly one fetch for [k] is started
    and exactly one script element for [k] is created, and [k] ends with
    a Pending record. Moreover, in every store the module produces from
    the initial one, by any calls: as many fetches were started as record
    objects were created, the r-th fetch being the one for the element of
    the r-th record; every registered key points to one record whose
    element has that key as source; and no two children of
    [document.head] have the same source. *)
Theorem one_fetch_per_key (w : World) (k : string) (cs : list Call) :
  k ≠ "" →
  scriptStates w !! k = None →
  forallb quiet cs = true →
  (∃ self, CallEffect (Some k) self ∈ cs) →
  (let w' := execs cs w in
   fetch_count k w' = fetch_count k w + 1
   ∧ created_count k w' = created_count k w + 1
   ∧ status <$> record_of k w' = Some st_loading)
  ∧ (∀ cs' : list Call,
       let v := execs cs' init in
       length (fetches v) = length (heap v)
       ∧ (∀ r rec, heap v !! r = Some rec →
            ∃ el, nodes v !! scriptElement rec = Some el
                  ∧ fetches v !! r = Some (src el))
       ∧ (∀ k' r, scriptStates v !! k' = Some r →
            ∃ rec el, heap v !! r = Some rec
                      ∧ nodes v !! scriptElement rec = Some el ∧ src el = k')
       ∧ (∀ e1 e2, e1 ∈ documentHead v → e2 ∈ documentHead v →
            src <$> nodes v !! e1 = src <$> nodes v !! e2 → e1 = e2)).
Proof.
  intros Hk Hnone Hq Hsub. split.
  - intros w'.
    destruct (execs_quiet_absent k cs w Hk Hnone Hq Hsub)
      as ((r & rec & Hr & Hrec & Hst) & ? & ?).
    repeat split; [done..|].
    assert (record_of k w' = Some rec) as -> by (apply record_of_Some; eauto).
    cbn [fmap option_fmap option_map]. by rewrite Hst.
  - intros cs' v. assert (wf v) as [] by apply wf_execs, wf_init.
    assert (∀ r rec, heap v !! r = Some rec →
      ∃ el, nodes v !! scriptElement rec = Some el ∧ fetches v !! r = Some (src el))
      as Hrec.
    { intros r rec Hr. destruct (wf_heap0 _ _ Hr) as [-> _].
      apply lookup_lt_Some in Hr as Hlt. rewrite wf_lockstep0 in Hlt.
      apply lookup_lt_is_Some in Hlt as [el Hel]. exists el. split; [done|].
      by rewrite wf_fetches0, list_lookup_fmap, Hel. }
    split; [by rewrite wf_fetches0, length_fmap|].
    split; [done|]. split.
    + intros k' r Hr. pose proof (wf_registry0 _ _ Hr) as Hsrc.
      destruct (nodes v !! r) as [el|] eqn:Hel; [|done].
      injection Hsrc as Hsrc.
      apply lookup_lt_Some in Hel as Hlt. rewrite <- wf_lockstep0 in Hlt.
      apply lookup_lt_is_Some in Hlt as [rec Hrec'].
      destruct (wf_heap0 _ _ Hrec') as [Hself _].
      exists rec, el. by rewrite Hself.
    + intros e1 e2 H1 H2 Hsame.
      destruct (wf_head0 _ H1) as (k1 & Hk1). destruct (wf_head0 _ H2) as (k2 & Hk2).
      pose proof (wf_registry0 _ _ Hk1) as Hs1.
      pose proof (wf_registry0 _ _ Hk2) as Hs2.
      assert (k1 = k2) as -> by congruence. congruence.
Qed.

(** ** The consumer's view *)


(** ** The first render *)

(** C10. Whatever the argument, the first render of a hook instance
    returns isLoading=true, isLoaded=false, error=null; it runs no
    effect, so the registry, the record objects, the elements, the
    document and the fetch log are as before, and the effect is left to
    the commit. For an absent or empty argument the view still has
    isLoading=true after the render, and isLoading=false once the effect
    committed. *)
Theorem first_render_returns_initial_state
    (scriptUrl : option string) (h : nat) (st : React) :
  fibers st !! h = None →
  cells (world st) !! h = None →
  let rendered := useLazyScriptLoader scriptUrl h st in
  rendered.1 = {| isLoading := true; hookError := None; isLoaded := false |}
  ∧ view h rendered.2 = {| isLoading := true; hookError := None; isLoaded := false |}
  ∧ scriptStates (world rendered.2) = scriptStates (world st)
  ∧ heap (world rendered.2) = heap (world st)
  ∧ nodes (world rendered.2) = nodes (world st)
  ∧ documentHead (world rendered.2) = documentHead (world st)
  ∧ fetches (world rendered.2) = fetches (world st)
  ∧ fibers rendered.2 !! h = Some {| props := scriptUrl; deps := None; destroy := None |}
  ∧ (scriptUrl = None ∨ scriptUrl = Some "" →
     isLoading (view h (commit h rendered.2)) = false
     ∧ isLoaded (view h (commit h rendered.2)) = false).
Proof.
  intros Hf Hc rendered. subst rendered. unfold useLazyScriptLoader.
  rewrite Hf, Hc. cbn [fst snd world fibers exec].
  assert (∀ w, cell h (set_cells <[h := useState_initial]> w) = useState_initial)
    as Hcell by (intros w; apply (cell_put h useState_initial w)).
  unfold view. cbn [world]. rewrite Hcell.
  repeat (split; [by destruct (world st) || done|]).
  split; [apply lookup_insert_eq|].
  intros Hempty. unfold commit. cbn [fibers world effectRuns].
  rewrite lookup_insert_eq. cbn [deps props destroy run_destroy].
  destruct (decide (None = Some scriptUrl)) as [|_]; [done|].
  rewrite effect_falsy by (by destruct Hempty as [-> | ->]).
  cbn [world owner]. by rewrite cell_put.
Qed.

(** * The statements at concrete inputs *)

Lemma one_fetch_per_key_witness :
  fetch_count url_s
    (execs [CallRender 1; CallEffect (Some url_s) consumer1;
            CallRender 2; CallEffect (Some url_s) consumer2;
            CallCleanup (url_s, consumer1);
            CallEffect (Some url_s) {| owner := 1; run := 2 |}] init)
  = fetch_count url_s init + 1.
Proof.
  refine (proj1 (proj1 (one_fetch_per_key init url_s _ _ _ _ _))).
  - discriminate.
  - reflexivity.
  - reflexivity.
  - exists consumer1. right; left.
Defined.

Lemma unsubscribe_tears_down_under_late_subscriber_witness :
  scriptStates (world (step (Unmount 1)
     (steps [Render 2 (Some url_s); Commit 2]
        (steps [Render 1 (Some url_s); Commit 1; Fire 0 ev_load] init_react))))
    !! url_s = None.
Proof.
  refine (proj1 (proj2 (proj2 (unsubscribe_tears_down_under_late_subscriber
            (steps [Render 1 (Some url_s); Commit 1; Fire 0 ev_load] init_react)
            url_s 1 2 {| props := Some url_s; deps := Some (Some url_s);
                         destroy := Some (url_s, consumer1) |}
            consumer1 0
            {| status := st_loaded; scriptElement := 0; subscribers := [consumer1];
               error := None |}
            _ _ _ _ _ _ _ _ _ _ _)))).
  - discriminate.
  - vm_compute. reflexivity.
  - vm_compute. reflexivity.
  - discriminate.
  - vm_compute. left.
  - intros x Hx. by apply list_elem_of_singleton in Hx.
  - vm_compute. reflexivity.
  - reflexivity.
  - reflexivity.
  - vm_compute. reflexivity.
  - vm_compute. reflexivity.
Defined.

Lemma unsubscribe_with_others_keeps_script_witness :
  documentHead (cleanup (url_s, consumer1) two_loaded) = documentHead two_loaded.
Proof.
  refine (proj1 (unsubscribe_with_others_keeps_script two_loaded url_s consumer1 consumer2
                   {| status := st_loaded; scriptElement := 0;
                      subscribers := [consumer1; consumer2]; error := None |} _ _ _)).
  - vm_compute. reflexivity.
  - right; left.
  - discriminate.
Defined.

Lemma last_unsubscribe_tears_down_then_refetch_witness :
  scriptStates (cleanup (url_s, consumer2) one_loaded) !! url_s = None.
Proof.
  refine (proj1 (last_unsubscribe_tears_down_then_refetch one_loaded url_s consumer2 0
                   {| status := st_loaded; scriptElement := 0;
                      subscribers := [consumer2]; error := None |} _ _ _ _ _ _)).
  - discriminate.
  - vm_compute. reflexivity.
  - vm_compute. reflexivity.
  - discriminate.
  - left.
  - intros x Hx. by apply list_elem_of_singleton in Hx.
Defined.

Lemma pending_record_never_torn_down_witness :
  scriptStates (cleanup (url_s, consumer1) one_pending) = scriptStates one_pending.
Proof.
  refine (proj1 (proj1 (pending_record_never_torn_down one_pending url_s 0
                          (fresh_record consumer1 0) _ _) _ consumer1)).
  - vm_compute. reflexivity.
  - vm_compute. reflexivity.
  - reflexivity.
Defined.

Lemma completion_reaches_every_subscriber_witness :
  cell 2 (dispatchEvent 0 ev_load two_pending)
  = {| isLoading := false; hookError := None; isLoaded := true |}.
Proof.
  refine (proj2 (proj1 (completion_reaches_every_subscriber
                   [CallRender 1; CallEffect (Some url_s) consumer1;
                    CallRender 2; CallEffect (Some url_s) consumer2] url_s 0
                   {| status := st_loading; scriptElement := 0;
                      subscribers := [consumer1; consumer2]; error := None |}
                   _ _ _)) consumer2 _).
  - vm_compute. reflexivity.
  - vm_compute. reflexivity.
  - reflexivity.
  - right; left.
Defined.

Lemma empty_key_sets_error_and_skips_registry_witness :
  cell 1 (effect (Some "") consumer1 init).1
  = {| isLoading := false;
       hookError := Some {| message := "scriptUrl cannot be empty" |};
       isLoaded := false |}.
Proof.
  refine (proj1 (empty_key_sets_error_and_skips_registry (Some "") consumer1 init _)).
  by right.
Defined.

Lemma failure_message_is_failed_to_load_witness :
  cell 1 (dispatchEvent 0 ev_error (effect (Some url_bad) consumer1 init).1)
  = {| isLoading := false;
       hookError := Some {| message := "Failed to load script: https://x/bad.js" |};
       isLoaded := false |}.
Proof.
  refine (proj1 (failure_message_is_failed_to_load init url_bad consumer1 _ _)).
  - discriminate.
  - reflexivity.
Defined.

Lemma first_render_returns_initial_state_witness :
  (useLazyScriptLoader (Some "") 1 init_react).1
  = {| isLoading := true; hookError := None; isLoaded := false |}.
Proof.
  refine (proj1 (first_render_returns_initial_state (Some "") 1 init_react _ _)).
  - reflexivity.
  - reflexivity.
Defined.

(** ** Where the code departs from the specification *)

(** On a record that is already Loaded or Failed the effect shows the
    status and leaves every record object, hence every subscriber set, as
    it was. *)
Lemma effect_on_completed_record k self w r rec :
  k ≠ "" → scriptStates w !! k = Some r → heap w !! r = Some rec →
  status rec ≠ st_loading →
  heap (effect (Some k) self w).1 = heap w
  ∧ scriptStates (effect (Some k) self w).1 = scriptStates w
  ∧ cell (owner self) (effect (Some k) self w).1
    = match status rec with
      | st_loaded => loaded_view
      | _ => error_view (error rec)
      end.
Proof.
  intros Hk Hr Hrec Hst. rewrite (effect_existing _ _ _ _ _ Hk Hr Hrec). cbn [fst].
  destruct (status rec); [done| |]; rewrite cell_put; by destruct w.
Qed.

(** C2. A consumer that subscribes after the script loaded is shown the
    Loaded status at once, but is not added to the subscriber set: the
    set still holds the first consumer alone. When that first consumer
    unmounts, the script element is removed and the record deleted
    although the second consumer is still mounted on the key. *)
Example late_subscriber_is_not_registered :
  let w := execs [CallRender 1; CallEffect (Some url_s) consumer1;
                  CallDispatch 0 ev_load;
                  CallRender 2; CallEffect (Some url_s) consumer2] init in
  subscribers <$> record_of url_s w = Some [consumer1]
  ∧ (consumer2 ∉ default [] (subscribers <$> record_of url_s w))
  ∧ cell 2 w = {| isLoading := false; hookError := None; isLoaded := true |}
  ∧ let st := steps [Render 1 (Some url_s); Commit 1; Fire 0 ev_load;
                     Render 2 (Some url_s); Commit 2; Unmount 1] init_react in
    current_key 2 st = Some url_s
    ∧ scriptStates (world st) !! url_s = None
    ∧ documentHead (world st) = [].
Proof.
  vm_compute. repeat split; try reflexivity.
  intros Hin. apply list_elem_of_singleton in Hin. discriminate Hin.
Qed.

(** C7: with the empty key the view is not loading=false, loaded=false,
    error=null; the error is set. *)
Lemma empty_key_view_has_an_error :
  view 1 (steps [Render 1 (Some ""); Commit 1] init_react)
  ≠ {| isLoading := false; hookError := None; isLoaded := false |}.
Proof. vm_compute. discriminate. Qed.

(** C8: the reason delivered for "https://x/bad.js" is not
    "Error loading script: https://x/bad.js". *)
Lemma failure_message_is_not_error_loading :
  hookError (view 1 (steps [Render 1 (Some url_bad); Commit 1; Fire 0 ev_error]
                           init_react))
  ≠ Some {| message := "Error loading script: https://x/bad.js" |}.
Proof. vm_compute. discriminate. Qed.


(** * The repository's tests, replayed on the model *)

(** 'should only append script once for multiple hooks with same URL' *)
Example test_append_once :
  let st := steps [Render 1 (Some SCRIPT_URL_1); Commit 1;
                   Render 2 (Some SCRIPT_URL_1); Commit 2] init_react in
  fetches (world st) = [SCRIPT_URL_1]
  ∧ let st := step (Fire 0 ev_load) st in
    view 1 st = loaded_view ∧ view 2 st = loaded_view.
Proof. vm_compute. done. Qed.

(** 'should update all hooks on error for same URL' *)
Example test_error_reaches_all :
  let st := steps [Render 1 (Some SCRIPT_URL_1); Commit 1;
                   Render 2 (Some SCRIPT_URL_1); Commit 2;
                   Fire 0 ev_error] init_react in
  let e := Some {| message := "Failed to load script: https://example.com/script1.js" |} in
  view 1 st = error_view e ∧ view 2 st = error_view e.
Proof. vm_compute. done. Qed.

(** 'should cleanup script when last hook unmounts' *)
Example test_cleanup_on_last_unmount :
  let st := steps [Render 1 (Some SCRIPT_URL_1); Commit 1;
                   Render 2 (Some SCRIPT_URL_1); Commit 2;
                   Fire 0 ev_load; Unmount 1] init_react in
  documentHead (world st) = [0]
  ∧ documentHead (world (step (Unmount 2) st)) = [].
Proof. vm_compute. done. Qed.

(** 'should cleanup script if unmounted before load and no other
    subscribers': nothing is removed while the script is loading. *)
Example test_unmount_while_loading :
  let st := steps [Render 1 (Some SCRIPT_URL_1); Commit 1; Unmount 1] init_react in
  documentHead (world st) = [0]
  ∧ record_of SCRIPT_URL_1 (world st)
    = Some {| status := st_loading; scriptElement := 0; subscribers := []; error := None |}.
Proof. vm_compute. done. Qed.

(** 'should load new script and cleanup old if URL changes on rerender' *)
Example test_url_change :
  let st := steps [Render 1 (Some SCRIPT_URL_1); Commit 1; Fire 0 ev_load;
                   Render 1 (Some SCRIPT_URL_2); Commit 1] init_react in
  view 1 st = loading_view
  ∧ fetches (world st) = [SCRIPT_URL_1; SCRIPT_URL_2]
  ∧ documentHead (world st) = [1]
  ∧ scriptStates (world st) !! SCRIPT_URL_1 = None
  ∧ view 1 (step (Fire 1 ev_load) st) = loaded_view.
Proof. vm_compute. done. Qed.

(** 'should return error if scriptUrl is empty' *)
Example test_empty_url :
  let st := steps [Render 1 (Some ""); Commit 1] init_react in
  view 1 st = error_view (Some {| message := "scriptUrl cannot be empty" |})
  ∧ fetches (world st) = [].
Proof. vm_compute. done. Qed.

(** * Further properties of the module *)

(** ** What a completion event leaves alone *)

Lemma handler_frame (l : Listener) (w : World) :
  scriptStates (call l w) = scriptStates w
  ∧ documentHead (call l w) = documentHead w
  ∧ nodes (call l w) = nodes w
  ∧ fetches (call l w) = fetches w
  ∧ ∀ r, subscribers <$> heap (call l w) !! r = subscribers <$> heap w !! r
         ∧ scriptElement <$> heap (call l w) !! r = scriptElement <$> heap w !! r.
Proof.
  assert (∀ (f : ScriptRecord → ScriptRecord) (r' : nat) (hp : list ScriptRecord)
            (r : nat),
    (∀ x, subscribers (f x) = subscribers x) →
    (∀ x, scriptElement (f x) = scriptElement x) →
    subscribers <$> alter f r' hp !! r = subscribers <$> hp !! r
    ∧ scriptElement <$> alter f r' hp !! r = scriptElement <$> hp !! r) as Halter.
  { intros f r' hp r Hs He. destruct (decide (r' = r)) as [->|Hne].
    - rewrite list_lookup_alter_eq. destruct (hp !! r) as [x|]; [|done].
      cbn [fmap option_fmap option_map]. by rewrite Hs, He.
    - by rewrite list_lookup_alter_ne. }
  destruct l as [r'|k r']; cbn [call];
    [rewrite handleLoad_eq|rewrite handleError_eq];
    destruct w as [ss hp ns hd cs fs]; wsimpl;
    (repeat split; try done; by apply Halter).
Qed.

Lemma dispatchEvent_frame (e : nat) (ty : EventType) (w : World) :
  let w' := dispatchEvent e ty w in
  scriptStates w' = scriptStates w
  ∧ documentHead w' = documentHead w
  ∧ nodes w' = nodes w
  ∧ fetches w' = fetches w
  ∧ ∀ r, subscribers <$> heap w' !! r = subscribers <$> heap w !! r
         ∧ scriptElement <$> heap w' !! r = scriptElement <$> heap w !! r.
Proof.
  intros w'. subst w'. unfold dispatchEvent.
  destruct (nodes w !! e) as [el|]; [|done].
  generalize (listeners el). intros ls.
  assert (∀ v,
    (scriptStates v = scriptStates w ∧ documentHead v = documentHead w
     ∧ nodes v = nodes w ∧ fetches v = fetches w
     ∧ ∀ r, subscribers <$> heap v !! r = subscribers <$> heap w !! r
            ∧ scriptElement <$> heap v !! r = scriptElement <$> heap w !! r) →
    let v' := foldl (λ acc tl, if decide (tl.1 = ty) then call tl.2 acc else acc) v ls in
    scriptStates v' = scriptStates w ∧ documentHead v' = documentHead w
    ∧ nodes v' = nodes w ∧ fetches v' = fetches w
    ∧ ∀ r, subscribers <$> heap v' !! r = subscribers <$> heap w !! r
           ∧ scriptElement <$> heap v' !! r = scriptElement <$> heap w !! r) as Hfold.
  { induction ls as [|[ty' l] ls IH]; intros v Hv; [done|].
    cbn [foldl fst snd]. apply IH. destruct (decide (ty' = ty)); [|done].
    destruct Hv as (H1 & H2 & H3 & H4 & H5).
    destruct (handler_frame l v) as (G1 & G2 & G3 & G4 & G5).
    repeat split; try congruence.
    - destruct (G5 r) as [-> _]. by destruct (H5 r).
    - destruct (G5 r) as [_ ->]. by destruct (H5 r). }
  by apply Hfold.
Qed.

(** X1. A [load] or [error] event only updates record objects and views: it
    never deletes a record from the registry, never removes or adds a child
    of [document.head], never creates an element or starts a fetch, and it
    leaves the subscriber set and the script element of every record as
    they were. In particular a record whose last subscriber left while it
    was Pending is not torn down when its fetch completes. *)
Theorem completion_event_tears_nothing_down (e : nat) (ty : EventType) (w : World) :
  let w' := dispatchEvent e ty w in
  scriptStates w' = scriptStates w
  ∧ documentHead w' = documentHead w
  ∧ nodes w' = nodes w
  ∧ fetches w' = fetches w
  ∧ ∀ r, subscribers <$> heap w' !! r = subscribers <$> heap w !! r
         ∧ scriptElement <$> heap w' !! r = scriptElement <$> heap w !! r.
Proof. apply dispatchEvent_frame. Qed.

(** ** A record never goes back to Pending *)

Lemma exec_keeps_completed (c : Call) (w : World) (r : nat) (rec : ScriptRecord) :
  heap w !! r = Some rec → status rec ≠ st_loading →
  ∃ rec', heap (exec c w) !! r = Some rec'
          ∧ status rec' ≠ st_loading ∧ scriptElement rec' = scriptElement rec.
Proof.
  intros Hrec Hst.
  assert (∀ (f : ScriptRecord → ScriptRecord) r',
    (∀ x, status x ≠ st_loading → status (f x) ≠ st_loading) →
    (∀ x, scriptElement (f x) = scriptElement x) →
    ∃ rec', alter f r' (heap w) !! r = Some rec'
            ∧ status rec' ≠ st_loading ∧ scriptElement rec' = scriptElement rec)
    as Halter.
  { intros f r' Hs He. destruct (decide (r' = r)) as [->|Hne].
    - exists (f rec). rewrite (lookup_alter_Some f _ _ _ Hrec). auto.
    - exists rec. by rewrite list_lookup_alter_ne. }
  destruct c as [h|scriptUrl self|[k' self]|e ty]; cbn [exec].
  - exists rec. by destruct w.
  - destruct (falsy scriptUrl) eqn:Hf.
    { rewrite effect_falsy by done. exists rec. by destruct w. }
    apply falsy_false in Hf as (k' & -> & Hk').
    destruct (scriptStates w !! k') as [r'|] eqn:Hr'.
    + destruct (heap w !! r') as [rec'|] eqn:Hrec'.
      * rewrite (effect_existing _ _ _ _ _ Hk' Hr' Hrec'). cbn [fst].
        destruct (status rec'); [|exists rec; by destruct w..].
        destruct (Halter (add_subscriber self) r') as (x & ? & ? & ?); [done..|].
        exists x. by destruct w.
      * rewrite (effect_dangling _ _ _ _ Hk' Hr' Hrec'). by exists rec.
    + rewrite (effect_new _ _ _ Hk' Hr'). cbn [fst heap]. exists rec.
      rewrite lookup_app_l; [done|]. by eapply lookup_lt_Some.
  - destruct (scriptStates w !! k') as [r'|] eqn:Hr'.
    2:{ rewrite cleanup_absent by done. by exists rec. }
    destruct (heap w !! r') as [rec'|] eqn:Hrec'.
    2:{ rewrite (cleanup_dangling _ _ _ _ Hr' Hrec'). by exists rec. }
    destruct (Halter (drop_subscriber self) r') as (x & ? & ? & ?); [done..|].
    destruct (decide (JsSet.delete self (subscribers rec') = [])) as [Hempty|Hne].
    2:{ rewrite (cleanup_keep _ _ _ _ _ Hr' Hrec') by auto. exists x. by destruct w. }
    destruct (decide (status rec' = st_loading)) as [Hst'|Hst'].
    { rewrite (cleanup_keep _ _ _ _ _ Hr' Hrec') by auto. exists x. by destruct w. }
    rewrite (cleanup_teardown _ _ _ _ _ Hr' Hrec' Hempty Hst'). exists x. by destruct w.
  - unfold dispatchEvent. destruct (nodes w !! e) as [el|]; [|by exists rec].
    generalize (listeners el). intros ls.
    assert (∀ v x, heap v !! r = Some x → status x ≠ st_loading →
              scriptElement x = scriptElement rec →
      ∃ rec', heap (foldl (λ acc tl, if decide (tl.1 = ty) then call tl.2 acc else acc)
                          v ls) !! r = Some rec'
              ∧ status rec' ≠ st_loading ∧ scriptElement rec' = scriptElement rec)
      as Hfold.
    { induction ls as [|[ty' l] ls IH]; intros v x Hx Hsx Hex; [by exists x|].
      cbn [foldl fst snd]. destruct (decide (ty' = ty)); [|by apply (IH v x)].
      destruct l as [r'|k' r']; cbn [call];
        [rewrite handleLoad_eq|rewrite handleError_eq].
      - destruct (decide (r' = r)) as [->|Hne].
        + apply (IH _ (mark st_loaded id x)); [|done|done].
          destruct v; wsimpl. by apply lookup_alter_Some.
        + apply (IH _ x); [|done|done].
          destruct v; wsimpl. by rewrite list_lookup_alter_ne.
      - destruct (decide (r' = r)) as [->|Hne].
        + apply (IH _ (mark st_error
                         (λ _, Some {| message := "Failed to load script: " +:+ k' |}) x));
            [|done|done].
          destruct v; wsimpl. by apply lookup_alter_Some.
        + apply (IH _ x); [|done|done].
          destruct v; wsimpl. by rewrite list_lookup_alter_ne. }
    by apply (Hfold w rec).
Qed.

(** X2. No call ever sets the status of an existing record back to 'loading':
    a record object that is Loaded or Failed is still there, with the same
    script element and not Pending, after any sequence of renders,
    effects, cleanups and events. *)
Theorem completed_record_never_pending_again
    (cs : list Call) (w : World) (r : nat) (rec : ScriptRecord) :
  heap w !! r = Some rec →
  status rec ≠ st_loading →
  ∃ rec', heap (execs cs w) !! r = Some rec'
          ∧ status rec' ≠ st_loading
          ∧ scriptElement rec' = scriptElement rec.
Proof.
  unfold execs. revert w rec. induction cs as [|c cs IH]; intros w rec Hrec Hst.
  { by exists rec. }
  cbn [foldl]. destruct (exec_keeps_completed c w r rec Hrec Hst) as (x & Hx & Hsx & Hex).
  destruct (IH _ _ Hx Hsx) as (y & ? & ? & ?). exists y. split; [done|].
  split; [done|congruence].
Qed.

Lemma completed_record_never_pending_again_witness :
  ∃ rec', heap (execs [CallEffect (Some url_s) consumer2; CallDispatch 0 ev_error;
                       CallCleanup (url_s, consumer1)] two_loaded) !! 0 = Some rec'
          ∧ status rec' ≠ st_loading
          ∧ scriptElement rec' = 0.
Proof.
  refine (completed_record_never_pending_again _ two_loaded 0
            {| status := st_loaded; scriptElement := 0;
               subscribers := [consumer1; consumer2]; error := None |} _ _).
  - vm_compute. reflexivity.
  - discriminate.
Defined.

(** ** Views of other consumers *)

(** X3. An effect run by one hook instance sets no state variable of any other
    instance, and a cleanup sets no state variable at all (the view of a
    consumer that unsubscribes keeps its last value). *)
Theorem other_views_untouched
    (scriptUrl : option string) (self : Subscriber) (c : Cleanup) (w : World) (h : nat) :
  h ≠ owner self →
  cells (effect scriptUrl self w).1 !! h = cells w !! h
  ∧ cells (cleanup c w) = cells w.
Proof.
  intros Hne. split.
  - destruct (falsy scriptUrl) eqn:Hf.
    { rewrite effect_falsy by done. destruct w; wsimpl. by rewrite lookup_insert_ne. }
    apply falsy_false in Hf as (k & -> & Hk).
    destruct (scriptStates w !! k) as [r|] eqn:Hr.
    + destruct (heap w !! r) as [rec|] eqn:Hrec.
      * rewrite (effect_existing _ _ _ _ _ Hk Hr Hrec). cbn [fst].
        destruct (status rec); destruct w; wsimpl; by rewrite lookup_insert_ne.
      * by rewrite (effect_dangling _ _ _ _ Hk Hr Hrec).
    + rewrite (effect_new _ _ _ Hk Hr). cbn [fst cells]. by rewrite lookup_insert_ne.
  - destruct c as [k self'].
    destruct (scriptStates w !! k) as [r|] eqn:Hr.
    2:{ by rewrite cleanup_absent. }
    destruct (heap w !! r) as [rec|] eqn:Hrec.
    2:{ by rewrite (cleanup_dangling _ _ _ _ Hr Hrec). }
    destruct (decide (JsSet.delete self' (subscribers rec) = [])) as [Hempty|Hn].
    2:{ rewrite (cleanup_keep _ _ _ _ _ Hr Hrec) by auto. by destruct w. }
    destruct (decide (status rec = st_loading)) as [Hst|Hst].
    { rewrite (cleanup_keep _ _ _ _ _ Hr Hrec) by auto. by destruct w. }
    rewrite (cleanup_teardown _ _ _ _ _ Hr Hrec Hempty Hst). by destruct w.
Qed.

Lemma other_views_untouched_witness :
  cells (effect (Some url_s) consumer2 two_loaded).1 !! 1 = cells two_loaded !! 1
  ∧ cells (cleanup (url_s, consumer1) two_loaded) = cells two_loaded.
Proof.
  refine (other_views_untouched (Some url_s) consumer2 (url_s, consumer1) two_loaded 1 _).
  discriminate.
Defined.

(** ** Unsubscribing twice *)

Lemma delete_delete (self : Subscriber) (subs : list Subscriber) :
  JsSet.delete self (JsSet.delete self subs) = JsSet.delete self subs.
Proof.
  unfold JsSet.delete. induction subs as [|a subs IH]; [done|].
  destruct (decide (a ≠ self)) as [Hne|Heq].
  - rewrite (filter_cons_True _ a subs Hne). rewrite filter_cons_True by done.
    by rewrite IH.
  - by rewrite filter_cons_False.
Qed.

Lemma drop_drop (self : Subscriber) (rec : ScriptRecord) :
  drop_subscriber self (drop_subscriber self rec) = drop_subscriber self rec.
Proof.
  unfold drop_subscriber. cbn [status scriptElement subscribers error].
  by rewrite delete_delete.
Qed.

(** X4. Running the same cleanup a second time changes nothing, in any store:
    the subscriber is already out of the set, and a record that was torn
    down is no longer found. *)
Theorem cleanup_is_idempotent (c : Cleanup) (w : World) :
  cleanup c (cleanup c w) = cleanup c w.
Proof.
  destruct c as [k self].
  destruct (scriptStates w !! k) as [r|] eqn:Hr.
  2:{ by rewrite !(cleanup_absent k self w Hr). }
  destruct (heap w !! r) as [rec|] eqn:Hrec.
  2:{ by rewrite !(cleanup_dangling k self w r Hr Hrec). }
  assert (∀ w1, w1 = set_heap (alter (drop_subscriber self) r) w →
    scriptStates w1 !! k = Some r ∧ heap w1 !! r = Some (drop_subscriber self rec))
    as Hw1.
  { intros w1 ->. destruct w; wsimpl. split; [done|]. by apply lookup_alter_Some. }
  assert (JsSet.delete self (subscribers rec) ≠ [] ∨ status rec = st_loading →
          cleanup (k, self) (cleanup (k, self) w) = cleanup (k, self) w) as Hkeep.
  { intros Hcond. rewrite (cleanup_keep _ _ _ _ _ Hr Hrec Hcond).
    destruct (Hw1 _ eq_refl) as [Hr1 Hrec1].
    rewrite (cleanup_keep _ _ _ _ _ Hr1 Hrec1).
    - destruct w as [ss hp ns hd cs fs]; wsimpl. f_equal.
      rewrite list_alter_alter_eq. apply list_alter_ext; [|done].
      intros x _. apply drop_drop.
    - cbn [drop_subscriber subscribers status]. by rewrite delete_delete. }
  destruct (decide (JsSet.delete self (subscribers rec) = [])) as [Hempty|Hn]; [|auto].
  destruct (decide (status rec = st_loading)) as [Hst|Hst]; [auto|].
  rewrite (cleanup_teardown _ _ _ _ _ Hr Hrec Hempty Hst).
  apply cleanup_absent. destruct w; wsimpl. apply lookup_delete_eq.
Qed.

(** ** Subscribing and unsubscribing again *)

Lemma delete_absent (self : Subscriber) (subs : list Subscriber) :
  self ∉ subs → JsSet.delete self subs = subs.
Proof.
  unfold JsSet.delete. induction subs as [|a subs IH]; [done|]. intros Hn.
  apply not_elem_of_cons in Hn as [Hne Hn].
  rewrite filter_cons_True by done. by rewrite IH.
Qed.

Lemma delete_add (self : Subscriber) (subs : list Subscriber) :
  self ∉ subs → JsSet.delete self (JsSet.add self subs) = subs.
Proof.
  intros Hn. unfold JsSet.add. rewrite decide_False by done.
  unfold JsSet.delete. rewrite filter_app, filter_cons_False, filter_nil by (by intros H).
  rewrite app_nil_r. by apply delete_absent.
Qed.

Lemma alter_fixed {A} (f : A → A) (l : list A) (i : nat) (x : A) :
  l !! i = Some x → f x = x → alter f i l = l.
Proof.
  revert i. induction l as [|a l IH]; intros [|i] Hl Hf; try done.
  - injection Hl as ->. cbn. by rewrite Hf.
  - cbn. f_equal. by apply IH.
Qed.

(** X5. Round trip on a Pending record: a consumer that subscribes and then
    runs the cleanup the effect returned leaves the registry, every record
    object, the elements, the document and the fetch log exactly as they
    were; only its own view was set to loading. *)
Theorem subscribe_then_unsubscribe_restores_store
    (w : World) (k : string) (self : Subscriber) (r : nat) (rec : ScriptRecord) :
  k ≠ "" →
  scriptStates w !! k = Some r →
  heap w !! r = Some rec →
  status rec = st_loading →
  self ∉ subscribers rec →
  ∃ c, (effect (Some k) self w).2 = Some c
       ∧ cleanup c (effect (Some k) self w).1
         = set_cells <[owner self := {| isLoading := true; hookError := None;
                                        isLoaded := false |}]> w.
Proof.
  intros Hk Hr Hrec Hst Hn. exists (k, self).
  rewrite (effect_existing _ _ _ _ _ Hk Hr Hrec), Hst. cbn [fst snd].
  split; [done|].
  erewrite cleanup_keep.
  - destruct w as [ss hp ns hd cs fs]; wsimpl. f_equal.
    rewrite list_alter_alter_eq. apply (alter_fixed _ _ _ rec); [done|].
    unfold compose, drop_subscriber, add_subscriber.
    cbn [status scriptElement subscribers error].
    rewrite delete_add by done. by destruct rec.
  - by destruct w.
  - destruct w; wsimpl. by apply lookup_alter_Some.
  - right. done.
Qed.

Lemma subscribe_then_unsubscribe_restores_store_witness :
  ∃ c, (effect (Some url_s) consumer2 one_pending).2 = Some c
       ∧ cleanup c (effect (Some url_s) consumer2 one_pending).1
         = set_cells <[2 := {| isLoading := true; hookError := None;
                               isLoaded := false |}]> one_pending.
Proof.
  refine (subscribe_then_unsubscribe_restores_store one_pending url_s consumer2 0
            (fresh_record consumer1 0) _ _ _ _ _).
  - discriminate.
  - vm_compute. reflexivity.
  - vm_compute. reflexivity.
  - reflexivity.
  - intros Hin. apply list_elem_of_singleton in Hin. discriminate Hin.
Defined.

(** ** No second fetch for a completed key *)

Lemma exec_subscribe_only_completed k r rec c w :
  scriptStates w !! k = Some r → heap w !! r = Some rec → status rec ≠ st_loading →
  subscribe_only c = true →
  scriptStates (exec c w) !! k = Some r
  ∧ heap (exec c w) !! r = Some rec
  ∧ fetch_count k (exec c w) = fetch_count k w
  ∧ created_count k (exec c w) = created_count k w.
Proof.
  intros Hr Hrec Hst Hc. destruct c as [h|scriptUrl self| |]; [| |done..]; cbn [exec].
  - by destruct w.
  - destruct (falsy scriptUrl) eqn:Hf.
    { rewrite effect_falsy by done. by destruct w. }
    apply falsy_false in Hf as (k' & -> & Hk').
    destruct (scriptStates w !! k') as [r'|] eqn:Hr'.
    + destruct (heap w !! r') as [rec'|] eqn:Hrec'.
      * rewrite (effect_existing _ _ _ _ _ Hk' Hr' Hrec'). cbn [fst].
        destruct (status rec') eqn:Hst'; [|by destruct w..].
        assert (r' ≠ r) as Hne by (intros ->; congruence).
        destruct w; wsimpl. by rewrite list_lookup_alter_ne.
      * by rewrite (effect_dangling _ _ _ _ Hk' Hr' Hrec').
    + rewrite (effect_new _ _ _ Hk' Hr'). cbn [fst].
      assert (k' ≠ k) as Hne by congruence.
      unfold fetch_count, created_count. cbn [fetches nodes scriptStates heap].
      rewrite fetch_count_snoc_ne, created_count_snoc_ne by done.
      rewrite lookup_insert_ne by done.
      rewrite lookup_app_l by (by eapply lookup_lt_Some). done.
Qed.

(** X6. While the record of [k] is Loaded or Failed, subscribing never retries:
    after any number of renders and effects, for any keys and consumers,
    [k] still points to the same record object, unchanged (its subscriber
    set included), and no fetch was started and no element created for
    [k]. A consumer subscribing then is shown the stored outcome at once
    -- loaded, or the stored error -- and is handed a cleanup. *)
Theorem completed_key_is_not_refetched
    (cs : list Call) (w : World) (k : string) (r : nat) (rec : ScriptRecord) :
  k ≠ "" →
  scriptStates w !! k = Some r →
  heap w !! r = Some rec →
  status rec ≠ st_loading →
  forallb subscribe_only cs = true →
  let w' := execs cs w in
  scriptStates w' !! k = Some r
  ∧ heap w' !! r = Some rec
  ∧ fetch_count k w' = fetch_count k w
  ∧ created_count k w' = created_count k w
  ∧ ∀ self : Subscriber,
      effect (Some k) self w'
      = (set_cells <[owner self :=
                       {| isLoading := false;
                          hookError := if decide (status rec = st_loaded)
                                       then None else error rec;
                          isLoaded := bool_decide (status rec = st_loaded) |}]> w',
         Some (k, self)).
Proof.
  intros Hk Hr Hrec Hst Hcs w'. subst w'. unfold execs.
  revert w Hr Hrec Hcs. induction cs as [|c cs IH]; intros w Hr Hrec Hcs.
  - cbn [foldl]. repeat split; try done. intros self.
    rewrite (effect_existing _ _ _ _ _ Hk Hr Hrec). by destruct (status rec).
  - cbn [forallb] in Hcs. apply andb_true_iff in Hcs as [Hc Hcs]. cbn [foldl].
    destruct (exec_subscribe_only_completed k r rec c w Hr Hrec Hst Hc)
      as (Hr' & Hrec' & Hf & Hn).
    destruct (IH _ Hr' Hrec' Hcs) as (? & ? & ? & ? & ?).
    repeat split; try done; congruence.
Qed.

Lemma completed_key_is_not_refetched_witness :
  fetch_count url_s
    (execs [CallRender 3; CallEffect (Some url_s) {| owner := 3; run := 2 |};
            CallRender 4; CallEffect (Some url_bad) {| owner := 4; run := 3 |}]
           two_loaded)
  = fetch_count url_s two_loaded.
Proof.
  refine (proj1 (proj2 (proj2 (completed_key_is_not_refetched _ two_loaded url_s 0
            {| status := st_loaded; scriptElement := 0;
               subscribers := [consumer1; consumer2]; error := None |} _ _ _ _ _)))).
  - discriminate.
  - vm_compute. reflexivity.
  - vm_compute. reflexivity.
  - discriminate.
  - reflexivity.
Defined.

(** ** The document and the registry *)

Lemma registry_injective w k k' r :
  wf w → scriptStates w !! k = Some r → scriptStates w !! k' = Some r → k = k'.
Proof.
  intros [] H1 H2. pose proof (wf_registry0 _ _ H1). pose proof (wf_registry0 _ _ H2).
  congruence.
Qed.

Lemma registry_in_range w k r :
  wf w → scriptStates w !! k = Some r → r < length (nodes w).
Proof.
  intros [] H. pose proof (wf_registry0 _ _ H) as Hs.
  destruct (nodes w !! r) eqn:Hn; [|done]. by eapply lookup_lt_Some.
Qed.

Lemma attached_exec c w : wf w → attached w → attached (exec c w).
Proof.
  intros Hw Ha. destruct c as [h|scriptUrl self|[k0 self]|e ty]; cbn [exec].
  - intros k r. destruct w; wsimpl. apply Ha.
  - destruct (falsy scriptUrl) eqn:Hf.
    { rewrite effect_falsy by done. intros k r. destruct w; wsimpl. apply Ha. }
    apply falsy_false in Hf as (k0 & -> & Hk0).
    destruct (scriptStates w !! k0) as [r0|] eqn:Hr0.
    + destruct (heap w !! r0) as [rec0|] eqn:Hrec0.
      * rewrite (effect_existing _ _ _ _ _ Hk0 Hr0 Hrec0). cbn [fst].
        intros k r. destruct (status rec0); destruct w; wsimpl; apply Ha.
      * by rewrite (effect_dangling _ _ _ _ Hk0 Hr0 Hrec0).
    + rewrite (effect_new _ _ _ Hk0 Hr0). intros k r. cbn [fst scriptStates documentHead].
      intros Hl. apply elem_of_app. destruct (decide (k0 = k)) as [->|Hne].
      * rewrite lookup_insert_eq in Hl. injection Hl as <-. right.
        apply list_elem_of_singleton. by destruct Hw.
      * rewrite lookup_insert_ne in Hl by done. left. apply list_elem_of_filter.
        split; [|by apply (Ha k)]. pose proof (registry_in_range _ _ _ Hw Hl). lia.
  - destruct (scriptStates w !! k0) as [r0|] eqn:Hr0.
    2:{ by rewrite cleanup_absent. }
    destruct (heap w !! r0) as [rec0|] eqn:Hrec0.
    2:{ by rewrite (cleanup_dangling _ _ _ _ Hr0 Hrec0). }
    destruct (decide (JsSet.delete self (subscribers rec0) = [])) as [Hempty|Hn].
    2:{ rewrite (cleanup_keep _ _ _ _ _ Hr0 Hrec0) by auto.
        intros k r. destruct w; wsimpl. apply Ha. }
    destruct (decide (status rec0 = st_loading)) as [Hst|Hst].
    { rewrite (cleanup_keep _ _ _ _ _ Hr0 Hrec0) by auto.
      intros k r. destruct w; wsimpl. apply Ha. }
    rewrite (cleanup_teardown _ _ _ _ _ Hr0 Hrec0 Hempty Hst).
    assert (scriptElement rec0 = r0) as Hel by (destruct Hw; by apply (wf_heap0 _ _ Hrec0)).
    intros k r Hl.
    assert (scriptStates w !! k = Some r ∧ k ≠ k0) as [Hl' Hne].
    { destruct w; wsimpl. apply lookup_delete_Some in Hl as [? ?]. done. }
    assert (r ≠ r0) as Hrr.
    { intros ->. apply Hne. by apply (registry_injective w k k0 r0). }
    destruct w; wsimpl. apply list_elem_of_filter. split; [congruence|by apply (Ha k)].
  - destruct (dispatchEvent_frame e ty w) as (H1 & H2 & _).
    intros k r. rewrite H1, H2. apply Ha.
Qed.

Lemma attached_execs cs : attached (execs cs init) ∧ wf (execs cs init).
Proof.
  assert (∀ w, wf w → attached w → attached (execs cs w) ∧ wf (execs cs w)) as H.
  { unfold execs. induction cs as [|c cs IH]; intros w Hw Ha; [done|].
    cbn [foldl]. apply IH; [by apply wf_exec|by apply attached_exec]. }
  apply H; [apply wf_init|]. intros k r Hl. done.
Qed.

(** X7. In every store the module produces from the initial one, the children
    of [document.head] are exactly the script elements of the registered
    records, each once and each with its key as source: no script tag is
    left behind by a deleted record, and no registered record is without
    its tag. *)
Theorem script_tags_match_registry (cs : list Call) (e : nat) :
  let w := execs cs init in
  NoDup (documentHead w)
  ∧ (e ∈ documentHead w ↔
     ∃ k rec, scriptStates w !! k = Some e ∧ heap w !! e = Some rec
              ∧ scriptElement rec = e ∧ src <$> nodes w !! e = Some k).
Proof.
  intros w. destruct (attached_execs cs) as [Ha Hw]. fold w in Ha, Hw.
  split; [by destruct Hw|]. split.
  - intros He. destruct Hw. destruct (wf_head0 _ He) as (k & Hk).
    pose proof (wf_registry0 _ _ Hk) as Hs.
    destruct (nodes w !! e) as [el|] eqn:Hel; [|done].
    apply lookup_lt_Some in Hel as Hlt. rewrite <- wf_lockstep0 in Hlt.
    apply lookup_lt_is_Some in Hlt as [rec Hrec].
    exists k, rec. destruct (wf_heap0 _ _ Hrec). done.
  - intros (k & rec & Hk & _). by apply (Ha k).
Qed.

(** ** Keys do not interfere *)

Lemma record_of_alter_ne k (f : ScriptRecord → ScriptRecord) r' w :
  (∀ r, scriptStates w !! k = Some r → r ≠ r') →
  record_of k (set_heap (alter f r') w) = record_of k w.
Proof.
  intros Hne. unfold record_of. destruct w as [ss hp ns hd cs fs]; wsimpl.
  destruct (ss !! k) as [r|] eqn:Hr; [|done]. cbn [mbind option_bind].
  rewrite list_lookup_alter_ne; [done|]. intros Heq. by apply (Hne r).
Qed.

Lemma effect_other_key k k' self w :
  wf w → k' ≠ k → untouched k w (effect (Some k') self w).1.
Proof.
  intros Hw Hne. destruct (decide (k' = "")) as [->|Hk'].
  { rewrite effect_falsy by done. by destruct w. }
  destruct (scriptStates w !! k') as [r'|] eqn:Hr'.
  - destruct (heap w !! r') as [rec'|] eqn:Hrec'.
    + rewrite (effect_existing _ _ _ _ _ Hk' Hr' Hrec'). cbn [fst].
      destruct (status rec'); [|by destruct w..].
      split; [by destruct w|]. split; [|by destruct w].
      rewrite record_of_alter_ne; [by destruct w|].
      intros r Hr Heq. subst r. apply Hne.
      apply (registry_injective w k' k r'); [done|done|]. by destruct w.
    + by rewrite (effect_dangling _ _ _ _ Hk' Hr' Hrec').
  - rewrite (effect_new _ _ _ Hk' Hr'). unfold untouched, record_of, fetch_count.
    cbn [fst scriptStates heap fetches].
    rewrite lookup_insert_ne, fetch_count_snoc_ne by done.
    split; [done|]. split; [|done].
    destruct (scriptStates w !! k) as [r|] eqn:Hr; [|done]. cbn [mbind option_bind].
    rewrite lookup_app_l; [done|].
    pose proof (registry_in_range _ _ _ Hw Hr). destruct Hw. lia.
Qed.

Lemma cleanup_other_key k k' self w :
  wf w → k' ≠ k → untouched k w (cleanup (k', self) w).
Proof.
  intros Hw Hne.
  destruct (scriptStates w !! k') as [r'|] eqn:Hr'.
  2:{ by rewrite cleanup_absent. }
  destruct (heap w !! r') as [rec'|] eqn:Hrec'.
  2:{ by rewrite (cleanup_dangling _ _ _ _ Hr' Hrec'). }
  assert (record_of k (set_heap (alter (drop_subscriber self) r') w) = record_of k w)
    as Hrec.
  { apply record_of_alter_ne. intros r Hr Heq. subst r. apply Hne.
    by apply (registry_injective w k' k r'). }
  destruct (decide (JsSet.delete self (subscribers rec') = [])) as [Hempty|Hn].
  2:{ rewrite (cleanup_keep _ _ _ _ _ Hr' Hrec') by auto.
      split; [by destruct w|]. split; [done|by destruct w]. }
  destruct (decide (status rec' = st_loading)) as [Hst|Hst].
  { rewrite (cleanup_keep _ _ _ _ _ Hr' Hrec') by auto.
    split; [by destruct w|]. split; [done|by destruct w]. }
  rewrite (cleanup_teardown _ _ _ _ _ Hr' Hrec' Hempty Hst).
  unfold untouched. rewrite <- Hrec. unfold record_of, fetch_count.
  destruct w as [ss hp ns hd cs fs]; wsimpl. by rewrite lookup_delete_ne.
Qed.

Lemma dispatch_other_key k k' e ty w :
  wf w → k' ≠ k → src <$> nodes w !! e = Some k' →
  untouched k w (dispatchEvent e ty w).
Proof.
  intros Hw Hne Hsrc. destruct (nodes w !! e) as [el|] eqn:Hel; [|done].
  injection Hsrc as Hsrc.
  assert (listeners el = [(ev_load, handleLoad_of e); (ev_error, handleError_of k' e)])
    as Hls by (destruct Hw; rewrite (wf_nodes0 _ _ Hel), Hsrc; done).
  assert (∀ r, scriptStates w !! k = Some r → r ≠ e) as Hre.
  { intros r Hr Heq. subst r. apply Hne. destruct Hw.
    pose proof (wf_registry0 _ _ Hr) as Hs.
    rewrite Hel in Hs. by injection Hs as <-. }
  destruct ty.
  - rewrite (dispatch_load_fresh _ _ _ _ _ Hel Hls), handleLoad_eq.
    split; [by destruct w|]. split; [|by destruct w].
    rewrite <- (record_of_alter_ne k (mark st_loaded id) e w Hre). by destruct w.
  - rewrite (dispatch_error_fresh _ _ _ _ _ Hel Hls), handleError_eq.
    split; [by destruct w|]. split; [|by destruct w].
    rewrite <- (record_of_alter_ne k
      (mark st_error (λ _, Some {| message := "Failed to load script: " +:+ k' |})) e w Hre).
    by destruct w.
Qed.

(** X8. In every store the module produces from the initial one, what happens
    to another key leaves [k] alone: subscribing to [k'], unsubscribing
    from [k'] (a teardown of [k'] included) and the completion of the
    fetch of [k'] change neither the registry entry of [k], nor its record
    (status, subscribers, error, element), nor the number of fetches
    started for [k]. *)
Theorem other_keys_do_not_interfere
    (cs : list Call) (k k' : string) (self : Subscriber) (e : nat) (ty : EventType) :
  k' ≠ k →
  let w := execs cs init in
  untouched k w (effect (Some k') self w).1
  ∧ untouched k w (cleanup (k', self) w)
  ∧ (src <$> nodes w !! e = Some k' → untouched k w (dispatchEvent e ty w)).
Proof.
  intros Hne w. destruct (attached_execs cs) as [_ Hw]. fold w in Hw.
  split; [by apply effect_other_key|].
  split; [by apply cleanup_other_key|]. by apply dispatch_other_key.
Qed.

Lemma other_keys_do_not_interfere_witness :
  untouched url_s two_pending (effect (Some url_bad) consumer1 two_pending).1.
Proof.
  refine (proj1 (other_keys_do_not_interfere
            [CallRender 1; CallEffect (Some url_s) consumer1;
             CallRender 2; CallEffect (Some url_s) consumer2]
            url_s url_bad consumer1 0 ev_load _)).
  discriminate.
Defined.

(** ** Subscriber sets hold each callback once *)

Lemma NoDup_add (self : Subscriber) (subs : list Subscriber) :
  NoDup subs → NoDup (JsSet.add self subs).
Proof.
  intros Hnd. unfold JsSet.add. destruct (decide (self ∈ subs)); [done|].
  apply NoDup_app. split; [done|]. split; [|apply NoDup_singleton].
  intros x Hx Hx'. apply list_elem_of_singleton in Hx' as ->. done.
Qed.

Lemma nodup_alter (f : ScriptRecord → ScriptRecord) r w :
  (∀ x, NoDup (subscribers x) → NoDup (subscribers (f x))) →
  nodup_subscribers w → nodup_subscribers (set_heap (alter f r) w).
Proof.
  intros Hf Hnd r' rec' Hl. destruct w as [ss hp ns hd cs fs]; wsimpl.
  destruct (decide (r = r')) as [->|Hne].
  - rewrite list_lookup_alter_eq in Hl. destruct (hp !! r') as [x|] eqn:Hx; [|done].
    injection Hl as <-. apply Hf. by apply (Hnd r' x).
  - rewrite list_lookup_alter_ne in Hl by done. by apply (Hnd r' rec').
Qed.

Lemma nodup_exec c w : nodup_subscribers w → nodup_subscribers (exec c w).
Proof.
  intros Hnd. destruct c as [h|scriptUrl self|[k0 self]|e ty]; cbn [exec].
  - intros r rec. destruct w; wsimpl. apply Hnd.
  - destruct (falsy scriptUrl) eqn:Hf.
    { rewrite effect_falsy by done. intros r rec. destruct w; wsimpl. apply Hnd. }
    apply falsy_false in Hf as (k0 & -> & Hk0).
    destruct (scriptStates w !! k0) as [r0|] eqn:Hr0.
    + destruct (heap w !! r0) as [rec0|] eqn:Hrec0.
      * rewrite (effect_existing _ _ _ _ _ Hk0 Hr0 Hrec0). cbn [fst].
        destruct (status rec0); [|intros r rec; destruct w; wsimpl; apply Hnd..].
        apply nodup_alter; [intros x; apply NoDup_add|].
        intros r rec. destruct w; wsimpl. apply Hnd.
      * by rewrite (effect_dangling _ _ _ _ Hk0 Hr0 Hrec0).
    + rewrite (effect_new _ _ _ Hk0 Hr0). intros r rec. cbn [fst heap]. intros Hl.
      apply lookup_snoc_Some in Hl as [[_ Hl]|[_ <-]]; [by apply (Hnd r)|].
      apply NoDup_singleton.
  - destruct (scriptStates w !! k0) as [r0|] eqn:Hr0.
    2:{ by rewrite cleanup_absent. }
    destruct (heap w !! r0) as [rec0|] eqn:Hrec0.
    2:{ by rewrite (cleanup_dangling _ _ _ _ Hr0 Hrec0). }
    assert (nodup_subscribers (set_heap (alter (drop_subscriber self) r0) w)) as Hd.
    { apply nodup_alter; [|done]. intros x Hx. by apply NoDup_filter. }
    destruct (decide (JsSet.delete self (subscribers rec0) = [])) as [Hempty|Hn].
    2:{ by rewrite (cleanup_keep _ _ _ _ _ Hr0 Hrec0) by auto. }
    destruct (decide (status rec0 = st_loading)) as [Hst|Hst].
    { by rewrite (cleanup_keep _ _ _ _ _ Hr0 Hrec0) by auto. }
    rewrite (cleanup_teardown _ _ _ _ _ Hr0 Hrec0 Hempty Hst).
    intros r rec. destruct w; wsimpl. apply Hd.
  - destruct (dispatchEvent_frame e ty w) as (_ & _ & _ & _ & Hh).
    intros r rec Hl. destruct (Hh r) as [Hs _]. rewrite Hl in Hs.
    destruct (heap w !! r) as [x|] eqn:Hx; [|done].
    injection Hs as ->. by apply (Hnd r x).
Qed.

Lemma nodup_execs cs w : nodup_subscribers w → nodup_subscribers (execs cs w).
Proof.
  unfold execs. revert w. induction cs as [|c cs IH]; intros w Hnd; [done|].
  cbn [foldl]. by apply IH, nodup_exec.
Qed.

Lemma length_delete (self : Subscriber) (subs : list Subscriber) :
  NoDup subs → self ∈ subs →
  length (JsSet.delete self subs) + 1 = length subs.
Proof.
  unfold JsSet.delete. induction subs as [|a subs IH]; intros Hnd Hin.
  { by apply elem_of_nil in Hin. }
  apply NoDup_cons in Hnd as [Ha Hnd]. destruct (decide (a = self)) as [->|Hne].
  - rewrite filter_cons_False by (by intros H).
    fold (JsSet.delete self subs). rewrite delete_absent by done. cbn [length]. lia.
  - rewrite filter_cons_True by done. cbn [length].
    apply elem_of_cons in Hin as [->|Hin]; [done|]. rewrite <- (IH Hnd Hin). lia.
Qed.

(** ** Changing key *)

Lemma reachable_exec cs c :
  exec c (execs cs init) = execs (cs ++ [c]) init.
Proof. unfold execs. by rewrite foldl_app. Qed.

Lemma record_of_registered w k :
  wf w → record_of k w = None → scriptStates w !! k = None.
Proof.
  intros Hw Hnone. destruct (scriptStates w !! k) as [r|] eqn:Hr; [|done].
  pose proof (registry_in_range _ _ _ Hw Hr) as Hlt. destruct Hw.
  rewrite <- wf_lockstep0 in Hlt. apply lookup_lt_is_Some in Hlt as [rec Hrec].
  unfold record_of in Hnone. rewrite Hr in Hnone. cbn [mbind option_bind] in Hnone.
  congruence.
Qed.

(** X9. In every store the module produces from the initial one: when a
    consumer subscribed to [a], whose fetch is still in flight, moves to
    another key [b] -- the cleanup for [a] runs, then the effect for [b] --
    the record of [a] loses exactly that one callback, stays registered
    with its script tag in place, and no fetch is started for [a]; and
    [b] gains exactly one subscription: a new Pending record with this
    callback alone and one new fetch if [b] had no record, or this
    callback added to the set with no new fetch if [b] was Pending. *)
Theorem key_switch_moves_one_subscription
    (cs : list Call) (a b : string) (s s' : Subscriber) (ra : nat) (recA : ScriptRecord) :
  a ≠ b →
  b ≠ "" →
  scriptStates (execs cs init) !! a = Some ra →
  heap (execs cs init) !! ra = Some recA →
  status recA = st_loading →
  s ∈ subscribers recA →
  let w := execs cs init in
  let w' := (effect (Some b) s' (cleanup (a, s) w)).1 in
  record_of a w' = Some (drop_subscriber s recA)
  ∧ (s ∉ subscribers (drop_subscriber s recA))
  ∧ length (subscribers (drop_subscriber s recA)) + 1 = length (subscribers recA)
  ∧ fetch_count a w' = fetch_count a w
  ∧ ra ∈ documentHead w'
  ∧ match record_of b w with
    | None =>
        record_of b w' = Some (fresh_record s' (length (nodes w)))
        ∧ fetch_count b w' = fetch_count b w + 1
    | Some recB =>
        status recB = st_loading →
        record_of b w' = Some (add_subscriber s' recB)
        ∧ fetch_count b w' = fetch_count b w
    end.
Proof.
  intros Hab Hb Hra HrecA Hst Hin w w'.
  destruct (attached_execs cs) as [_ Hw]. fold w in Hw, Hra, HrecA.
  assert (cleanup (a, s) w = set_heap (alter (drop_subscriber s) ra) w) as Hw1
    by (apply cleanup_keep with recA; auto).
  assert (cleanup (a, s) w = execs (cs ++ [CallCleanup (a, s)]) init) as Hreach1
    by apply (reachable_exec cs (CallCleanup (a, s))).
  assert (w' = execs ((cs ++ [CallCleanup (a, s)]) ++ [CallEffect (Some b) s']) init)
    as Hreach2.
  { rewrite <- reachable_exec, <- Hreach1. done. }
  destruct (attached_execs (cs ++ [CallCleanup (a, s)])) as [_ Hwf1].
  rewrite <- Hreach1 in Hwf1.
  destruct (attached_execs ((cs ++ [CallCleanup (a, s)]) ++ [CallEffect (Some b) s']))
    as [Hatt2 _].
  rewrite <- Hreach2 in Hatt2.
  assert (record_of a (cleanup (a, s) w) = Some (drop_subscriber s recA)) as HrA1.
  { rewrite Hw1. apply record_of_Some. exists ra. split; [by destruct w|].
    destruct w; wsimpl. by apply lookup_alter_Some. }
  destruct (effect_other_key a b s' _ Hwf1 (not_eq_sym Hab)) as (HsA & HrA & HfA).
  fold w' in HsA, HrA, HfA.
  destruct (cleanup_other_key b a s w Hw Hab) as (HsB & HrB & HfB).
  split; [congruence|].
  split.
  { cbn [drop_subscriber subscribers]. unfold JsSet.delete. intros Hs.
    apply list_elem_of_filter in Hs as [Hne _]. done. }
  split.
  { cbn [drop_subscriber subscribers]. apply length_delete; [|done].
    apply (nodup_execs cs init) with ra; [|done]. intros r rec Hl. done. }
  split.
  { rewrite HfA, Hw1. by destruct w. }
  split.
  { apply (Hatt2 a). rewrite HsA, Hw1. by destruct w. }
  destruct (record_of b w) as [recB|] eqn:HrecB.
  - intros HstB. apply record_of_Some in HrB as (rb & Hrb & Hhb).
    split.
    + subst w'. rewrite (effect_existing _ _ _ _ _ Hb Hrb Hhb), HstB. cbn [fst].
      apply record_of_Some. exists rb.
      destruct (cleanup (a, s) w); wsimpl. split; [done|]. by apply lookup_alter_Some.
    + subst w'. rewrite (effect_existing _ _ _ _ _ Hb Hrb Hhb), HstB. cbn [fst].
      rewrite <- HfB. by destruct (cleanup (a, s) w).
  - apply (record_of_registered _ _ Hwf1) in HrB.
    subst w'. rewrite (effect_new _ _ _ Hb HrB). cbn [fst].
    unfold record_of, fetch_count. cbn [scriptStates heap fetches].
    rewrite lookup_insert_eq. cbn [mbind option_bind].
    rewrite list_lookup_middle by done. rewrite fetch_count_snoc_eq.
    split.
    + rewrite Hw1. by destruct w.
    + unfold fetch_count in HfB. by rewrite HfB.
Qed.

Lemma key_switch_moves_one_subscription_witness :
  record_of url_s (effect (Some url_bad) {| owner := 1; run := 2 |}
                          (cleanup (url_s, consumer1) two_pending)).1
  = Some (drop_subscriber consumer1
            {| status := st_loading; scriptElement := 0;
               subscribers := [consumer1; consumer2]; error := None |}).
Proof.
  refine (proj1 (key_switch_moves_one_subscription
            [CallRender 1; CallEffect (Some url_s) consumer1;
             CallRender 2; CallEffect (Some url_s) consumer2]
            url_s url_bad consumer1 {| owner := 1; run := 2 |} 0
            {| status := st_loading; scriptElement := 0;
               subscribers := [consumer1; consumer2]; error := None |} _ _ _ _ _ _)).
  - discriminate.
  - discriminate.
  - vm_compute. reflexivity.
  - vm_compute. reflexivity.
  - reflexivity.
  - left.
Defined.

(** ** A script everyone left while it was loading *)

(** X10. In every store the module produces from the initial one: when the only
    subscriber of a Pending record unsubscribes, the record stays
    registered, Pending, with an empty subscriber set and its script tag
    in place. When the fetch then completes, the record becomes Loaded, no
    view is set, and record and tag still stay: nothing removes them until
    a consumer comes by. The next consumer of the key starts no fetch and
    is shown the script as loaded; when it unsubscribes, the tag is
    removed and the record deleted. *)
Theorem abandoned_script_stays_until_next_visitor
    (cs : list Call) (k : string) (r : nat) (rec : ScriptRecord)
    (self self' : Subscriber) :
  k ≠ "" →
  scriptStates (execs cs init) !! k = Some r →
  heap (execs cs init) !! r = Some rec →
  status rec = st_loading →
  (∀ x, x ∈ subscribers rec → x = self) →
  let w := execs cs init in
  let w1 := cleanup (k, self) w in
  let w2 := dispatchEvent (scriptElement rec) ev_load w1 in
  let w3 := (effect (Some k) self' w2).1 in
  let w4 := cleanup (k, self') w3 in
  (record_of k w1 = Some {| status := st_loading; scriptElement := scriptElement rec;
                            subscribers := []; error := error rec |}
   ∧ scriptElement rec ∈ documentHead w1)
  ∧ (record_of k w2 = Some {| status := st_loaded; scriptElement := scriptElement rec;
                              subscribers := []; error := error rec |}
     ∧ scriptElement rec ∈ documentHead w2
     ∧ cells w2 = cells w)
  ∧ (fetches w3 = fetches w
     ∧ nodes w3 = nodes w
     ∧ cell (owner self') w3 = {| isLoading := false; hookError := None; isLoaded := true |})
  ∧ (scriptStates w4 !! k = None ∧ scriptElement rec ∉ documentHead w4).
Proof.
  intros Hk Hr Hrec Hst Honly w w1 w2 w3 w4.
  destruct (attached_execs cs) as [Hatt Hw]. fold w in Hatt, Hw, Hr, Hrec.
  pose proof (delete_last _ _ Honly) as Hempty.
  assert (scriptElement rec = r) as Hel by (destruct Hw; by apply (wf_heap0 _ _ Hrec)).
  assert (∃ el, nodes w !! r = Some el
                ∧ listeners el = [(ev_load, handleLoad_of r); (ev_error, handleError_of k r)])
    as (el & Hnode & Hls).
  { destruct Hw. pose proof (wf_registry0 _ _ Hr) as Hs.
    destruct (nodes w !! r) as [el|] eqn:Hn; [|done]. injection Hs as Hs.
    exists el. split; [done|]. by rewrite (wf_nodes0 _ _ Hn), Hs. }
  pose (rec1 := drop_subscriber self rec).
  assert (w1 = set_heap (alter (drop_subscriber self) r) w) as Hw1
    by (apply cleanup_keep with rec; auto).
  assert (scriptStates w1 !! k = Some r ∧ heap w1 !! r = Some rec1
          ∧ documentHead w1 = documentHead w ∧ nodes w1 = nodes w
          ∧ fetches w1 = fetches w ∧ cells w1 = cells w)
    as (Hr1 & Hrec1 & Hhd1 & Hn1 & Hf1 & Hc1).
  { rewrite Hw1. destruct w; wsimpl. repeat split; try done. by apply lookup_alter_Some. }
  assert (rec1 = {| status := st_loading; scriptElement := scriptElement rec;
                    subscribers := []; error := error rec |}) as Hrec1eq.
  { unfold rec1, drop_subscriber. by rewrite Hempty, Hst. }
  pose (rec2 := mark st_loaded id rec1).
  assert (w2 = handleLoad r w1) as Hw2.
  { unfold w2. rewrite Hel. apply (dispatch_load_fresh r k r el); [congruence|done]. }
  rewrite handleLoad_eq, (subscribers_of_Some _ _ _ Hrec1) in Hw2.
  assert (subscribers rec1 = []) as Hsubs1 by by rewrite Hrec1eq.
  rewrite Hsubs1 in Hw2. cbn [broadcast foldl] in Hw2.
  assert (scriptStates w2 !! k = Some r ∧ heap w2 !! r = Some rec2
          ∧ documentHead w2 = documentHead w ∧ nodes w2 = nodes w
          ∧ fetches w2 = fetches w ∧ cells w2 = cells w)
    as (Hr2 & Hrec2 & Hhd2 & Hn2 & Hf2 & Hc2).
  { rewrite Hw2. destruct w1; wsimpl. repeat split; try done.
    by apply lookup_alter_Some. }
  assert (rec2 = {| status := st_loaded; scriptElement := scriptElement rec;
                    subscribers := []; error := error rec |}) as Hrec2eq.
  { unfold rec2, mark. by rewrite Hrec1eq. }
  assert (status rec2 = st_loaded) as Hst2 by by rewrite Hrec2eq.
  assert (w3 = put (owner self') loaded_view w2) as Hw3.
  { unfold w3. by rewrite (effect_existing _ _ _ _ _ Hk Hr2 Hrec2), Hst2. }
  assert (scriptStates w3 !! k = Some r ∧ heap w3 !! r = Some rec2
          ∧ documentHead w3 = documentHead w)
    as (Hr3 & Hrec3 & Hhd3).
  { rewrite Hw3. by destruct w2. }
  assert (w4 = set_scriptStates (delete k)
                 (set_documentHead (filter (λ x, x ≠ scriptElement rec2))
                    (set_heap (alter (drop_subscriber self') r) w3))) as Hw4.
  { apply cleanup_teardown; [done|done|by rewrite Hrec2eq|by rewrite Hst2]. }
  split.
  { split; [rewrite <- Hrec1eq; apply record_of_Some; eauto|].
    rewrite Hhd1, Hel. by apply (Hatt k). }
  split.
  { split; [rewrite <- Hrec2eq; apply record_of_Some; eauto|].
    split; [rewrite Hhd2, Hel; by apply (Hatt k)|done]. }
  split.
  { rewrite Hw3. split; [by destruct w2|]. split; [by destruct w2|]. apply cell_put. }
  rewrite Hw4. split.
  - destruct w3; wsimpl. apply lookup_delete_eq.
  - assert (scriptElement rec2 = scriptElement rec) as -> by by rewrite Hrec2eq.
    destruct w3; wsimpl. intros Hin. apply list_elem_of_filter in Hin as [Hne _]. done.
Qed.

Lemma abandoned_script_stays_until_next_visitor_witness :
  scriptElement (fresh_record consumer1 0)
  ∈ documentHead (dispatchEvent (scriptElement (fresh_record consumer1 0)) ev_load
                    (cleanup (url_s, consumer1) one_pending)).
Proof.
  refine (proj1 (proj2 (proj1 (proj2 (abandoned_script_stays_until_next_visitor
            [CallRender 1; CallEffect (Some url_s) consumer1]
            url_s 0 (fresh_record consumer1 0) consumer1 consumer2 _ _ _ _ _))))).
  - discriminate.
  - vm_compute. reflexivity.
  - vm_compute. reflexivity.
  - reflexivity.
  - intros x Hx. by apply list_elem_of_singleton in Hx.
Defined.

(** ** Subscribers and mounted instances *)

Lemma live_in_cells fs (f : gmap nat HookState → gmap nat HookState) w :
  live_in fs w → live_in fs (set_cells f w).
Proof. intros Hl r rec sub. destruct w; wsimpl. apply Hl. Qed.

Lemma absent_cells h (f : gmap nat HookState → gmap nat HookState) w :
  absent_from_sets h w → absent_from_sets h (set_cells f w).
Proof. intros Hl r rec sub. destruct w; wsimpl. apply Hl. Qed.

(** What a cleanup does to the subscriber sets. *)
Lemma cleanup_sets k0 s0 w r rec' :
  heap (cleanup (k0, s0) w) !! r = Some rec' →
  ∃ rec, heap w !! r = Some rec
         ∧ (∀ sub, sub ∈ subscribers rec' → sub ∈ subscribers rec)
         ∧ (scriptStates w !! k0 = Some r → s0 ∉ subscribers rec')
         ∧ (∀ k, scriptStates w !! k = Some r →
                 scriptStates (cleanup (k0, s0) w) !! k = Some r
                 ∨ subscribers rec' = []).
Proof.
  intros Hl.
  destruct (scriptStates w !! k0) as [r0|] eqn:Hr0.
  2:{ rewrite cleanup_absent in Hl |- * by done. exists rec'.
      split; [done|]. split; [done|]. split; [intros [=]|]. intros k Hk. by left. }
  destruct (heap w !! r0) as [rec0|] eqn:Hrec0.
  2:{ rewrite (cleanup_dangling _ _ _ _ Hr0 Hrec0) in Hl |- *. exists rec'.
      split; [done|]. split; [done|]. split; [intros [= ->]; congruence|].
      intros k Hk. by left. }
  assert (heap (set_heap (alter (drop_subscriber s0) r0) w) !! r = Some rec' →
    ∃ rec, heap w !! r = Some rec
           ∧ (∀ sub, sub ∈ subscribers rec' → sub ∈ subscribers rec)
           ∧ (Some r0 = Some r → s0 ∉ subscribers rec')
           ∧ (r = r0 → subscribers rec' = JsSet.delete s0 (subscribers rec0))
           ∧ (r ≠ r0 → rec' = rec)) as Hdrop.
  { intros Hl'. destruct w as [ss hp ns hd cs fs]; wsimpl.
    destruct (decide (r0 = r)) as [->|Hne].
    - rewrite (lookup_alter_Some _ _ _ _ Hrec0) in Hl'. injection Hl' as <-.
      exists rec0. split; [done|]. cbn [drop_subscriber subscribers]. unfold JsSet.delete.
      split; [intros sub Hs; by apply list_elem_of_filter in Hs as [_ ?]|].
      split; [intros _ Hs; by apply list_elem_of_filter in Hs as [? _]|].
      split; [done|]. intros H. done.
    - rewrite list_lookup_alter_ne in Hl' by done. exists rec'.
      split; [done|]. split; [done|]. split; [intros [= ?]; done|].
      split; [intros ->; done|done]. }
  destruct (decide (JsSet.delete s0 (subscribers rec0) = [])) as [Hempty|Hn].
  2:{ rewrite (cleanup_keep _ _ _ _ _ Hr0 Hrec0) in Hl |- * by auto.
      destruct (Hdrop Hl) as (rec & H1 & H2 & H3 & _). exists rec.
      split; [done|]. split; [done|]. split; [done|].
      intros k Hk. left. by destruct w. }
  destruct (decide (status rec0 = st_loading)) as [Hst|Hst].
  { rewrite (cleanup_keep _ _ _ _ _ Hr0 Hrec0) in Hl |- * by auto.
    destruct (Hdrop Hl) as (rec & H1 & H2 & H3 & _). exists rec.
    split; [done|]. split; [done|]. split; [done|].
    intros k Hk. left. by destruct w. }
  rewrite (cleanup_teardown _ _ _ _ _ Hr0 Hrec0 Hempty Hst) in Hl |- *.
  assert (heap (set_heap (alter (drop_subscriber s0) r0) w) !! r = Some rec') as Hl'
    by (by destruct w).
  destruct (Hdrop Hl') as (rec & H1 & H2 & H3 & H4 & H5). exists rec.
  split; [done|]. split; [done|]. split; [done|].
  intros k Hk. destruct (decide (r = r0)) as [->|Hne].
  - right. by rewrite H4.
  - left. destruct w as [ss hp ns hd cs fs]; wsimpl.
    rewrite lookup_delete_ne; [done|]. intros ->. congruence.
Qed.

Lemma live_in_cleanup fs c w : live_in fs w → live_in fs (cleanup c w).
Proof.
  intros Hl r rec' sub Hrec' Hin. destruct c as [k0 s0].
  destruct (cleanup_sets _ _ _ _ _ Hrec') as (rec & Hrec & Hsub & _ & Hreg).
  destruct (Hl r rec sub Hrec (Hsub _ Hin)) as (k & f & Hk & Hf & Hd & Hdeps).
  exists k, f. split; [|done].
  destruct (Hreg k Hk) as [?|Hnil]; [done|].
  rewrite Hnil in Hin. by apply elem_of_nil in Hin.
Qed.

(** After the cleanup of its last effect has run, an instance has no
    callback left in any subscriber set. *)
Lemma absent_after_destroy fs h f w :
  live_in fs w → fs !! h = Some f →
  absent_from_sets h (run_destroy (destroy f) w).
Proof.
  intros Hl Hf r rec' sub Hrec' Hin Hown.
  destruct (destroy f) as [[k0 s0]|] eqn:Hd; cbn [run_destroy exec] in Hrec'.
  - destruct (cleanup_sets _ _ _ _ _ Hrec') as (rec & Hrec & Hsub & Hgone & _).
    destruct (Hl r rec sub Hrec (Hsub _ Hin)) as (k & f' & Hk & Hf' & Hd' & _).
    rewrite Hown, Hf in Hf'. injection Hf' as <-. rewrite Hd in Hd'.
    injection Hd' as <- <-. by apply (Hgone Hk).
  - destruct (Hl r rec' sub Hrec' Hin) as (k & f' & _ & Hf' & Hd' & _).
    rewrite Hown, Hf in Hf'. injection Hf' as <-. congruence.
Qed.

Lemma live_in_other fs h f' w :
  live_in fs w → absent_from_sets h w →
  live_in (<[h := f']> fs) w ∧ live_in (delete h fs) w.
Proof.
  intros Hl Ha. split; intros r rec sub Hrec Hin;
    destruct (Hl r rec sub Hrec Hin) as (k & f & Hk & Hf & Hd); exists k, f;
    (split; [done|split; [|done]]).
  - rewrite lookup_insert_ne; [done|]. intros Heq. by apply (Ha r rec sub).
  - rewrite lookup_delete_ne; [done|]. intros Heq. by apply (Ha r rec sub).
Qed.

Lemma elem_of_add (self sub : Subscriber) (subs : list Subscriber) :
  sub ∈ JsSet.add self subs → sub = self ∨ sub ∈ subs.
Proof.
  unfold JsSet.add. destruct (decide (self ∈ subs)); [by right|].
  intros Hin. apply elem_of_app in Hin as [?|Hin]; [by right|].
  apply list_elem_of_singleton in Hin. by left.
Qed.

(** The effect of an instance that has no callback left in any set. *)
Lemma live_in_effect fs scriptUrl (self : Subscriber) p w :
  live_in fs w → absent_from_sets (owner self) w →
  live_in (<[owner self := {| props := p; deps := Some scriptUrl;
                              destroy := (effect scriptUrl self w).2 |}]> fs)
          (effect scriptUrl self w).1.
Proof.
  intros Hl Ha.
  assert (∀ f' v, (∀ r, heap v !! r = heap w !! r) →
                  scriptStates v = scriptStates w →
                  live_in (<[owner self := f']> fs) v) as Hsame.
  { intros f' v Hh Hs r rec sub Hrec Hin. rewrite Hh in Hrec.
    destruct (Hl r rec sub Hrec Hin) as (k & f & Hk & Hf & Hd). exists k, f.
    rewrite Hs. split; [done|]. split; [|done].
    rewrite lookup_insert_ne; [done|]. intros Heq. by apply (Ha r rec sub). }
  destruct (falsy scriptUrl) eqn:Hfal.
  { rewrite effect_falsy by done. apply Hsame; by destruct w. }
  apply falsy_false in Hfal as (k0 & -> & Hk0).
  destruct (scriptStates w !! k0) as [r0|] eqn:Hr0.
  - destruct (heap w !! r0) as [rec0|] eqn:Hrec0.
    + rewrite (effect_existing _ _ _ _ _ Hk0 Hr0 Hrec0). cbn [fst snd].
      destruct (status rec0); [|apply Hsame; by destruct w..].
      intros r rec sub Hrec Hin.
      assert (scriptStates (set_heap (alter (add_subscriber self) r0)
                (put (owner self) loading_view w)) = scriptStates w) as ->
        by (by destruct w).
      assert (alter (add_subscriber self) r0 (heap w) !! r = Some rec) as Hrec'
        by (by destruct w).
      destruct (decide (r0 = r)) as [->|Hne].
      * rewrite (lookup_alter_Some _ _ _ _ Hrec0) in Hrec'. injection Hrec' as <-.
        cbn [add_subscriber subscribers] in Hin.
        apply elem_of_add in Hin as [->|Hin].
        -- exists k0. eexists. split; [done|]. by rewrite lookup_insert_eq.
        -- destruct (Hl r rec0 sub Hrec0 Hin) as (k & f & Hk & Hf & Hd). exists k, f.
           split; [done|]. split; [|done].
           rewrite lookup_insert_ne; [done|]. intros Heq. by apply (Ha r rec0 sub).
      * rewrite list_lookup_alter_ne in Hrec' by done.
        destruct (Hl r rec sub Hrec' Hin) as (k & f & Hk & Hf & Hd). exists k, f.
        split; [done|]. split; [|done].
        rewrite lookup_insert_ne; [done|]. intros Heq. by apply (Ha r rec sub).
    + rewrite (effect_dangling _ _ _ _ Hk0 Hr0 Hrec0). by apply Hsame.
  - rewrite (effect_new _ _ _ Hk0 Hr0). cbn [fst snd].
    intros r rec sub Hrec Hin. cbn [heap] in Hrec. cbn [scriptStates].
    apply lookup_snoc_Some in Hrec as [[_ Hrec]|[-> <-]].
    + destruct (Hl r rec sub Hrec Hin) as (k & f & Hk & Hf & Hd). exists k, f.
      split; [rewrite lookup_insert_ne; [done|congruence]|]. split; [|done].
      rewrite lookup_insert_ne; [done|]. intros Heq. by apply (Ha r rec sub).
    + cbn [fresh_record subscribers] in Hin. apply list_elem_of_singleton in Hin as ->.
      exists k0. eexists. split; [by rewrite lookup_insert_eq|].
      by rewrite lookup_insert_eq.
Qed.

Lemma live_in_dispatch fs e ty w : live_in fs w → live_in fs (dispatchEvent e ty w).
Proof.
  intros Hl r rec sub Hrec Hin.
  destruct (dispatchEvent_frame e ty w) as (Hs & _ & _ & _ & Hh).
  destruct (Hh r) as [Hsub _]. rewrite Hrec in Hsub.
  destruct (heap w !! r) as [x|] eqn:Hx; [|done]. injection Hsub as Hsub.
  rewrite Hs. apply (Hl r x sub); [done|]. by rewrite <- Hsub.
Qed.

Lemma live_step op st :
  live_in (fibers st) (world st) →
  live_in (fibers (step op st)) (world (step op st)).
Proof.
  intros Hl. destruct op as [h scriptUrl|h|h|e ty]; cbn [step].
  - unfold useLazyScriptLoader. destruct (fibers st !! h) as [f|] eqn:Hf.
    + cbn [snd world fibers]. intros r rec sub Hrec Hin.
      destruct (Hl r rec sub Hrec Hin) as (k & f' & Hk & Hf' & Hd & Hdeps).
      exists k. destruct (decide (h = owner sub)) as [->|Hne].
      * rewrite Hf in Hf'. injection Hf' as <-. eexists. split; [done|].
        rewrite lookup_insert_eq. done.
      * exists f'. by rewrite lookup_insert_ne.
    + destruct (cells (world st) !! h); [done|]. cbn [snd world fibers exec].
      apply live_in_other; [by apply live_in_cells|]. apply absent_cells.
      intros r rec sub Hrec Hin Hown.
      destruct (Hl r rec sub Hrec Hin) as (k & f' & _ & Hf' & _). congruence.
  - unfold commit. destruct (fibers st !! h) as [f|] eqn:Hf; [|done].
    destruct (decide (deps f = Some (props f))); [done|].
    pose proof (absent_after_destroy _ _ _ _ Hl Hf) as Ha.
    assert (live_in (fibers st) (run_destroy (destroy f) (world st))) as Hl1.
    { destruct (destroy f); [by apply live_in_cleanup|done]. }
    pose proof (live_in_effect (fibers st) (props f) {| owner := h; run := effectRuns st |}
                  (props f) _ Hl1 Ha) as Hl2.
    by destruct (effect (props f) _ (run_destroy (destroy f) (world st))).
  - unfold unmount. destruct (fibers st !! h) as [f|] eqn:Hf; [|done].
    cbn [world fibers]. apply (live_in_other _ _ f).
    + destruct (destroy f); [by apply live_in_cleanup|done].
    + by apply (absent_after_destroy (fibers st)).
  - cbn [world fibers exec]. by apply live_in_dispatch.
Qed.

Lemma live_steps ops st :
  live_in (fibers st) (world st) →
  live_in (fibers (steps ops st)) (world (steps ops st)).
Proof.
  unfold steps. revert st. induction ops as [|op ops IH]; intros st Hl; [done|].
  cbn [foldl]. by apply IH, live_step.
Qed.

(** X11. In every state the hook can reach, a callback found in the subscriber
    set of any record object belongs to a hook instance that is mounted,
    whose last committed effect was for the key that record is registered
    under, and whose pending cleanup is the one that removes this
    callback. So a completion event never calls a setter of an unmounted
    instance, and a record that left the registry has no subscriber. *)
Theorem subscribers_belong_to_mounted_instances
    (ops : list Op) (r : nat) (rec : ScriptRecord) (sub : Subscriber) :
  heap (world (steps ops init_react)) !! r = Some rec →
  sub ∈ subscribers rec →
  let st := steps ops init_react in
  ∃ k f, scriptStates (world st) !! k = Some r
         ∧ fibers st !! owner sub = Some f
         ∧ destroy f = Some (k, sub)
         ∧ deps f = Some (Some k).
Proof.
  intros Hrec Hin st.
  refine (live_steps ops init_react _ r rec sub Hrec Hin).
  intros r' rec' sub' Hl. cbn [init_react world init heap] in Hl.
  by rewrite lookup_nil in Hl.
Qed.

Lemma subscribers_belong_to_mounted_instances_witness :
  ∃ k f, scriptStates (world (steps [Render 1 (Some url_s); Commit 1;
                                     Render 2 (Some url_s); Commit 2; Unmount 1]
                                    init_react)) !! k = Some 0
         ∧ fibers (steps [Render 1 (Some url_s); Commit 1;
                          Render 2 (Some url_s); Commit 2; Unmount 1]
                         init_react) !! owner consumer2 = Some f
         ∧ destroy f = Some (k, consumer2)
         ∧ deps f = Some (Some k).
Proof.
  refine (subscribers_belong_to_mounted_instances
            [Render 1 (Some url_s); Commit 1; Render 2 (Some url_s); Commit 2; Unmount 1]
            0 {| status := st_loading; scriptElement := 0;
                 subscribers := [consumer2]; error := None |} consumer2 _ _).
  - vm_compute. reflexivity.
  - left.
Defined.

(** ** Subscribers see the status of their record *)

Lemma cleanup_record k0 s0 w r rec' :
  heap (cleanup (k0, s0) w) !! r = Some rec' →
  ∃ rec, heap w !! r = Some rec ∧ (rec' = rec ∨ rec' = drop_subscriber s0 rec).
Proof.
  intros Hl.
  destruct (scriptStates w !! k0) as [r0|] eqn:Hr0.
  2:{ rewrite cleanup_absent in Hl by done. eauto. }
  destruct (heap w !! r0) as [rec0|] eqn:Hrec0.
  2:{ rewrite (cleanup_dangling _ _ _ _ Hr0 Hrec0) in Hl. eauto. }
  assert (heap (set_heap (alter (drop_subscriber s0) r0) w) !! r = Some rec') as Hl'.
  { destruct (decide (JsSet.delete s0 (subscribers rec0) = [])) as [Hempty|Hn].
    2:{ by rewrite (cleanup_keep _ _ _ _ _ Hr0 Hrec0) in Hl by auto. }
    destruct (decide (status rec0 = st_loading)) as [Hst|Hst].
    { by rewrite (cleanup_keep _ _ _ _ _ Hr0 Hrec0) in Hl by auto. }
    rewrite (cleanup_teardown _ _ _ _ _ Hr0 Hrec0 Hempty Hst) in Hl. by destruct w. }
  destruct w as [ss hp ns hd cs fs]; wsimpl.
  destruct (decide (r0 = r)) as [->|Hne].
  - rewrite (lookup_alter_Some _ _ _ _ Hrec0) in Hl'. injection Hl' as <-. eauto.
  - rewrite list_lookup_alter_ne in Hl' by done. eauto.
Qed.

Lemma cells_cleanup c w : cells (cleanup c w) = cells w.
Proof.
  destruct c as [k self'].
  destruct (scriptStates w !! k) as [r|] eqn:Hr.
  2:{ by rewrite cleanup_absent. }
  destruct (heap w !! r) as [rec|] eqn:Hrec.
  2:{ by rewrite (cleanup_dangling _ _ _ _ Hr Hrec). }
  destruct (decide (JsSet.delete self' (subscribers rec) = [])) as [Hempty|Hn].
  2:{ rewrite (cleanup_keep _ _ _ _ _ Hr Hrec) by auto. by destruct w. }
  destruct (decide (status rec = st_loading)) as [Hst|Hst].
  { rewrite (cleanup_keep _ _ _ _ _ Hr Hrec) by auto. by destruct w. }
  rewrite (cleanup_teardown _ _ _ _ _ Hr Hrec Hempty Hst). by destruct w.
Qed.

Lemma mirror_cleanup c w : mirror w → mirror (cleanup c w).
Proof.
  intros Hm r rec' sub Hrec' Hin. destruct c as [k0 s0].
  rewrite cells_cleanup.
  destruct (cleanup_record _ _ _ _ _ Hrec') as (rec & Hrec & [->| ->]).
  - by apply (Hm r).
  - apply (Hm r rec sub Hrec). cbn [drop_subscriber subscribers] in Hin.
    unfold JsSet.delete in Hin. by apply list_elem_of_filter in Hin as [_ ?].
Qed.

Lemma mirror_put h v w : mirror w → absent_from_sets h w → mirror (put h v w).
Proof.
  intros Hm Ha r rec sub Hrec Hin.
  assert (heap w !! r = Some rec) as Hrec' by (by destruct w).
  assert (cells (put h v w) !! owner sub = cells w !! owner sub) as ->.
  { destruct w; wsimpl. rewrite lookup_insert_ne; [done|]. intros Heq.
    by apply (Ha r rec sub). }
  by apply (Hm r).
Qed.

Lemma mirror_effect scriptUrl (self : Subscriber) w :
  mirror w → absent_from_sets (owner self) w → mirror (effect scriptUrl self w).1.
Proof.
  intros Hm Ha.
  destruct (falsy scriptUrl) eqn:Hfal.
  { rewrite effect_falsy by done. by apply mirror_put. }
  apply falsy_false in Hfal as (k0 & -> & Hk0).
  destruct (scriptStates w !! k0) as [r0|] eqn:Hr0.
  - destruct (heap w !! r0) as [rec0|] eqn:Hrec0.
    + rewrite (effect_existing _ _ _ _ _ Hk0 Hr0 Hrec0). cbn [fst].
      destruct (status rec0) eqn:Hst; [|by apply mirror_put..].
      intros r rec sub Hrec Hin.
      assert (alter (add_subscriber self) r0 (heap w) !! r = Some rec) as Hrec'
        by (by destruct w).
      assert (cells (set_heap (alter (add_subscriber self) r0)
                       (put (owner self) loading_view w))
              = <[owner self := loading_view]> (cells w)) as -> by (by destruct w).
      destruct (decide (r0 = r)) as [->|Hne].
      * rewrite (lookup_alter_Some _ _ _ _ Hrec0) in Hrec'. injection Hrec' as <-.
        cbn [add_subscriber subscribers] in Hin.
        apply elem_of_add in Hin as [->|Hin].
        -- rewrite lookup_insert_eq. unfold view_for. cbn [add_subscriber status].
           by rewrite Hst.
        -- rewrite lookup_insert_ne by (intros Heq; by apply (Ha r rec0 sub)).
           by apply (Hm r rec0 sub).
      * rewrite list_lookup_alter_ne in Hrec' by done.
        rewrite lookup_insert_ne by (intros Heq; by apply (Ha r rec sub)).
        by apply (Hm r).
    + by rewrite (effect_dangling _ _ _ _ Hk0 Hr0 Hrec0).
  - rewrite (effect_new _ _ _ Hk0 Hr0). cbn [fst].
    intros r rec sub Hrec Hin. cbn [heap] in Hrec. cbn [cells].
    apply lookup_snoc_Some in Hrec as [[_ Hrec]|[-> <-]].
    + rewrite lookup_insert_ne by (intros Heq; by apply (Ha r rec sub)).
      by apply (Hm r).
    + cbn [fresh_record subscribers] in Hin. apply list_elem_of_singleton in Hin as ->.
      by rewrite lookup_insert_eq.
Qed.

Lemma broadcast_lookup_other v subs (c : gmap nat HookState) h :
  (∀ sub, sub ∈ subs → owner sub ≠ h) → broadcast v subs c !! h = c !! h.
Proof.
  unfold broadcast. revert c. induction subs as [|a subs IH]; intros c Hno; [done|].
  cbn [foldl]. rewrite IH by (intros sub Hs; apply Hno; by right).
  rewrite lookup_insert_ne; [done|]. apply Hno. by left.
Qed.

(** One handler call keeps both invariants. *)
Lemma mirror_call fs l w :
  live_in fs w → mirror w → live_in fs (call l w) ∧ mirror (call l w).
Proof.
  intros Hl Hm.
  assert (∀ st e r', call l w = set_cells (broadcast (view_for (mark st e
                        (default (fresh_record {| owner := 0; run := 0 |} 0)
                                 (heap w !! r'))))
                                 (subscribers_of r' w))
                         (set_heap (alter (mark st e) r') w) →
            (st ≠ st_loading) →
            live_in fs (call l w) ∧ mirror (call l w)) as Hgen.
  { intros st e r' -> Hst. split.
    - intros r rec sub Hrec Hin.
      assert (alter (mark st e) r' (heap w) !! r = Some rec) as Hrec'
        by (by destruct w).
      assert (∃ rec0, heap w !! r = Some rec0 ∧ subscribers rec = subscribers rec0)
        as (rec0 & Hrec0 & Hsubs).
      { destruct (decide (r' = r)) as [->|Hne].
        - rewrite list_lookup_alter_eq in Hrec'.
          destruct (heap w !! r) as [x|]; [|done]. injection Hrec' as <-. eauto.
        - rewrite list_lookup_alter_ne in Hrec' by done. eauto. }
      rewrite Hsubs in Hin. destruct (Hl r rec0 sub Hrec0 Hin) as (k & f & Hk & Hrest).
      exists k, f. split; [by destruct w|done].
    - intros r rec sub Hrec Hin.
      assert (alter (mark st e) r' (heap w) !! r = Some rec) as Hrec'
        by (by destruct w).
      assert (cells (set_cells (broadcast (view_for (mark st e
                        (default (fresh_record {| owner := 0; run := 0 |} 0)
                                 (heap w !! r'))))
                                 (subscribers_of r' w))
                         (set_heap (alter (mark st e) r') w))
              = broadcast (view_for (mark st e
                        (default (fresh_record {| owner := 0; run := 0 |} 0)
                                 (heap w !! r'))))
                          (subscribers_of r' w) (cells w)) as -> by (by destruct w).
      destruct (decide (r' = r)) as [->|Hne].
      + rewrite list_lookup_alter_eq in Hrec'.
        destruct (heap w !! r) as [x|] eqn:Hx; [|done]. injection Hrec' as <-.
        rewrite (subscribers_of_Some _ _ _ Hx). cbn [default].
        by apply broadcast_lookup_in.
      + rewrite list_lookup_alter_ne in Hrec' by done.
        rewrite broadcast_lookup_other; [by apply (Hm r)|].
        intros sub' Hin' Hown. unfold subscribers_of in Hin'.
        destruct (heap w !! r') as [x|] eqn:Hx; [|by apply elem_of_nil in Hin'].
        cbn [from_option] in Hin'.
        destruct (Hl r rec sub Hrec' Hin) as (k & f & Hk & Hf & Hd & _).
        destruct (Hl r' x sub' Hx Hin') as (k' & f' & Hk' & Hf' & Hd' & _).
        rewrite Hown, Hf in Hf'. injection Hf' as <-. rewrite Hd in Hd'.
        injection Hd' as <- <-. congruence. }
  destruct l as [r'|k r']; cbn [call].
  - apply (Hgen st_loaded id r'); [|done]. cbn [call]. rewrite handleLoad_eq.
    unfold view_for. cbn [mark status]. done.
  - apply (Hgen st_error (λ _, Some {| message := "Failed to load script: " +:+ k |}) r');
      [|done]. cbn [call]. rewrite handleError_eq.
    unfold view_for. cbn [mark status error]. done.
Qed.

Lemma mirror_dispatch fs e ty w :
  live_in fs w → mirror w →
  live_in fs (dispatchEvent e ty w) ∧ mirror (dispatchEvent e ty w).
Proof.
  intros Hl Hm. unfold dispatchEvent. destruct (nodes w !! e) as [el|]; [|done].
  generalize (listeners el). intros ls. revert w Hl Hm.
  induction ls as [|[ty' l] ls IH]; intros w Hl Hm; [done|].
  cbn [foldl fst snd]. destruct (decide (ty' = ty)); [|by apply IH].
  destruct (mirror_call fs l w Hl Hm). by apply IH.
Qed.

Lemma mirror_step op st :
  live_in (fibers st) (world st) → mirror (world st) →
  mirror (world (step op st)).
Proof.
  intros Hl Hm. destruct op as [h scriptUrl|h|h|e ty]; cbn [step].
  - unfold useLazyScriptLoader. destruct (fibers st !! h) as [f|] eqn:Hf; [done|].
    destruct (cells (world st) !! h); [done|]. cbn [snd world exec].
    apply (mirror_put h useState_initial); [done|].
    intros r rec sub Hrec Hin Hown.
    destruct (Hl r rec sub Hrec Hin) as (k & f' & _ & Hf' & _). congruence.
  - unfold commit. destruct (fibers st !! h) as [f|] eqn:Hf; [|done].
    destruct (decide (deps f = Some (props f))); [done|].
    pose proof (absent_after_destroy _ _ _ _ Hl Hf) as Ha.
    assert (mirror (run_destroy (destroy f) (world st))) as Hm1.
    { destruct (destroy f); [by apply mirror_cleanup|done]. }
    pose proof (mirror_effect (props f) {| owner := h; run := effectRuns st |} _ Hm1 Ha)
      as Hm2.
    by destruct (effect (props f) _ (run_destroy (destroy f) (world st))).
  - unfold unmount. destruct (fibers st !! h) as [f|] eqn:Hf; [|done].
    cbn [world]. destruct (destroy f); [by apply mirror_cleanup|done].
  - cbn [world exec]. by apply (mirror_dispatch (fibers st)).
Qed.

Lemma mirror_steps ops st :
  live_in (fibers st) (world st) → mirror (world st) →
  mirror (world (steps ops st)).
Proof.
  unfold steps. revert st. induction ops as [|op ops IH]; intros st Hl Hm; [done|].
  cbn [foldl]. apply IH; [by apply live_step|by apply mirror_step].
Qed.

(** X12. In every state the hook can reach, every callback in the subscriber
    set of a record shows its instance the status of that record: loading
    while the record is Pending, loaded once it is Loaded, and the
    record's stored error once it is Failed. *)
Theorem subscribers_see_the_status_of_their_record
    (ops : list Op) (r : nat) (rec : ScriptRecord) (sub : Subscriber) :
  heap (world (steps ops init_react)) !! r = Some rec →
  sub ∈ subscribers rec →
  view (owner sub) (steps ops init_react)
  = match status rec with
    | st_loading => {| isLoading := true; hookError := None; isLoaded := false |}
    | st_loaded => {| isLoading := false; hookError := None; isLoaded := true |}
    | st_error => {| isLoading := false; hookError := error rec; isLoaded := false |}
    end.
Proof.
  intros Hrec Hin.
  assert (mirror (world (steps ops init_react))) as Hm.
  { apply mirror_steps; intros r' rec' sub' Hl;
      cbn [init_react world init heap] in Hl; by rewrite lookup_nil in Hl. }
  unfold view, cell. by rewrite (Hm r rec sub Hrec Hin).
Qed.

Lemma subscribers_see_the_status_of_their_record_witness :
  view (owner consumer2)
       (steps [Render 1 (Some url_s); Commit 1; Render 2 (Some url_s); Commit 2;
               Fire 0 ev_error] init_react)
  = {| isLoading := false;
       hookError := Some {| message := "Failed to load script: https://x/s.js" |};
       isLoaded := false |}.
Proof.
  refine (subscribers_see_the_status_of_their_record
            [Render 1 (Some url_s); Commit 1; Render 2 (Some url_s); Commit 2;
             Fire 0 ev_error]
            0 {| status := st_error; scriptElement := 0;
                 subscribers := [consumer1; consumer2];
                 error := Some {| message := "Failed to load script: https://x/s.js" |} |}
            consumer2 _ _).
  - vm_compute. reflexivity.
  - right; left.
Defined.

(** * The TypeScript variant: properties *)

Example tsx_test_scenarios :
  let w := (Tsx.effect (Some SCRIPT_URL_1) consumer1 Tsx.init).1 in
  Tsx.fetches w = [SCRIPT_URL_1]
  ∧ Tsx.documentHead w = [0]
  ∧ let w2 := Tsx.fire_error 0 Tsx.AnEvent (Tsx.effect (Some SCRIPT_URL_1) consumer2 w).1 in
    Tsx.cell 2 w2
    = {| isLoading := false;
         hookError := Some {| message := "Error loading script: https://example.com/script1.js" |};
         isLoaded := false |}
    ∧ Tsx.fetches w2 = [SCRIPT_URL_1]
    ∧ Tsx.documentHead (Tsx.cleanup (SCRIPT_URL_1, consumer1) w2) = [0]
    ∧ Tsx.documentHead (Tsx.cleanup (SCRIPT_URL_1, consumer2)
                          (Tsx.cleanup (SCRIPT_URL_1, consumer1) w2)) = [].
Proof. vm_compute. done. Qed.

Ltac tsimpl :=
  cbv [tsx_put Tsx.set_scriptStates Tsx.set_heap Tsx.set_nodes Tsx.set_documentHead
       Tsx.set_cells Tsx.set_fetches Tsx.scriptStates Tsx.heap Tsx.nodes
       Tsx.documentHead Tsx.cells Tsx.fetches fst snd] in *.

Lemma tsx_setters h b1 b2 e w :
  Tsx.setError h e (Tsx.setIsLoaded h b2 (Tsx.setIsLoading h b1 w))
  = tsx_put h {| isLoading := b1; hookError := e; isLoaded := b2 |} w.
Proof.
  unfold Tsx.setError, Tsx.setIsLoaded, Tsx.setIsLoading, Tsx.cell.
  destruct w; tsimpl. rewrite !lookup_insert_eq. cbn [default isLoading isLoaded hookError].
  by rewrite !insert_insert_eq.
Qed.

Lemma tsx_setState self v w :
  Tsx.setStateForThisInstance self v w = tsx_put (owner self) v w.
Proof. unfold Tsx.setStateForThisInstance. rewrite tsx_setters. by destruct v. Qed.

Lemma tsx_forEach v subs w :
  JsSet.forEach (λ sub, Tsx.setStateForThisInstance sub v) subs w
  = Tsx.set_cells (broadcast v subs) w.
Proof.
  unfold JsSet.forEach, broadcast. revert w.
  induction subs as [|a subs IH]; intros w; cbn [foldl].
  - by destruct w.
  - rewrite IH, tsx_setState. by destruct w.
Qed.

Lemma tsx_cell_put h v w : Tsx.cell h (tsx_put h v w) = v.
Proof. unfold Tsx.cell. destruct w; tsimpl. by rewrite lookup_insert_eq. Qed.

Lemma tsx_record_of_Some k w rec :
  Tsx.record_of k w = Some rec
  ↔ ∃ r, Tsx.scriptStates w !! k = Some r ∧ Tsx.heap w !! r = Some rec.
Proof.
  unfold Tsx.record_of. destruct (Tsx.scriptStates w !! k) as [r|];
    cbn [mbind option_bind].
  - split; [eauto|]. by intros (? & [= <-] & ?).
  - split; [done|]. by intros (? & ? & ?).
Qed.

Lemma tsx_effect_falsy scriptUrl self w :
  falsy scriptUrl = true →
  Tsx.effect scriptUrl self w
  = (tsx_put (owner self) {| isLoading := false; hookError := None; isLoaded := false |} w,
     None).
Proof. intros Hf. unfold Tsx.effect. by rewrite Hf, tsx_setters. Qed.

Lemma tsx_effect_existing k self w r rec :
  k ≠ "" → Tsx.scriptStates w !! k = Some r → Tsx.heap w !! r = Some rec →
  Tsx.effect (Some k) self w
  = (Tsx.set_heap (alter (tsx_add_subscriber self) r)
       (tsx_put (owner self) (tsx_view_for rec) w),
     Some (k, self)).
Proof.
  intros Hk Hr Hrec. unfold Tsx.effect. rewrite falsy_Some by done.
  change (default "" (Some k)) with k. rewrite Hr, Hrec. by rewrite tsx_setState.
Qed.

Lemma tsx_effect_new k self w :
  k ≠ "" → Tsx.scriptStates w !! k = None →
  Tsx.effect (Some k) self w
  = ({| Tsx.scriptStates := <[k := length (Tsx.heap w)]> (Tsx.scriptStates w);
        Tsx.heap := Tsx.heap w
                    ++ [{| Tsx.status := st_loading; Tsx.error := None;
                           Tsx.scriptElement := Some (length (Tsx.nodes w));
                           Tsx.subscribers := [self] |}];
        Tsx.nodes := Tsx.nodes w
                     ++ [{| Tsx.src := k; Tsx.async := true;
                            Tsx.onload := Some k; Tsx.onerror := Some k |}];
        Tsx.documentHead := filter (λ x, x ≠ length (Tsx.nodes w)) (Tsx.documentHead w)
                            ++ [length (Tsx.nodes w)];
        Tsx.cells := <[owner self := {| isLoading := true; hookError := None;
                                        isLoaded := false |}]> (Tsx.cells w);
        Tsx.fetches := Tsx.fetches w ++ [k] |},
     Some (k, self)).
Proof.
  intros Hk Hnone. unfold Tsx.effect. rewrite falsy_Some by done.
  change (default "" (Some k)) with k.
  rewrite tsx_setters. destruct w as [ss hp ns hd cs fs]. tsimpl. rewrite Hnone.
  unfold Tsx.createElement, Tsx.set_src, Tsx.set_async, Tsx.set_onload, Tsx.set_onerror,
    Tsx.appendChild. tsimpl.
  rewrite !alter_snoc. cbn [Tsx.src Tsx.async Tsx.onload Tsx.onerror Tsx.status Tsx.error
                            Tsx.subscribers Tsx.scriptElement].
  rewrite list_lookup_middle by done. reflexivity.
Qed.

Lemma tsx_cleanup_absent k self w :
  Tsx.scriptStates w !! k = None → Tsx.cleanup (k, self) w = w.
Proof. intros H. unfold Tsx.cleanup. rewrite H. by destruct (falsy (Some k)). Qed.

Lemma tsx_cleanup_keep k self w r rec :
  k ≠ "" → Tsx.scriptStates w !! k = Some r → Tsx.heap w !! r = Some rec →
  JsSet.delete self (Tsx.subscribers rec) ≠ [] ∨ Tsx.status rec = st_loading →
  Tsx.cleanup (k, self) w = Tsx.set_heap (alter (tsx_drop_subscriber self) r) w.
Proof.
  intros Hk H1 H2 Hkeep. unfold Tsx.cleanup. rewrite falsy_Some by done. rewrite H1.
  destruct w as [ss hp ns hd cs fs]; tsimpl.
  rewrite list_lookup_alter_eq, H2.
  cbn [fmap option_fmap option_map Tsx.subscribers Tsx.status].
  destruct Hkeep as [Hne| ->].
  - rewrite bool_decide_eq_false_2; [done|]. by rewrite size_zero.
  - rewrite (bool_decide_eq_true_2 (st_loading = st_loading)) by done.
    by rewrite andb_false_r.
Qed.

Lemma tsx_cleanup_teardown k self w r rec :
  k ≠ "" → Tsx.scriptStates w !! k = Some r → Tsx.heap w !! r = Some rec →
  JsSet.delete self (Tsx.subscribers rec) = [] → Tsx.status rec ≠ st_loading →
  Tsx.cleanup (k, self) w
  = Tsx.set_scriptStates (delete k)
      (Tsx.set_documentHead
         (filter (λ x, Some x ≠ Tsx.scriptElement rec))
         (Tsx.set_heap (alter (tsx_drop_subscriber self) r) w)).
Proof.
  intros Hk H1 H2 Hempty Hst. unfold Tsx.cleanup. rewrite falsy_Some by done. rewrite H1.
  destruct w as [ss hp ns hd cs fs]; tsimpl.
  rewrite list_lookup_alter_eq, H2.
  cbn [fmap option_fmap option_map Tsx.subscribers Tsx.status Tsx.scriptElement].
  rewrite Hempty.
  rewrite (bool_decide_eq_true_2 (JsSet.size [] = 0)) by done.
  rewrite (bool_decide_eq_false_2 (Tsx.status rec = st_loading)) by done.
  cbn [andb negb]. destruct (Tsx.scriptElement rec) as [e|].
  - assert (filter (λ x, Some x ≠ Some e) hd = filter (λ x, x ≠ e) hd) as ->.
    { apply list_filter_iff. intros x. split; intros H; congruence. }
    unfold Tsx.parentNode, Tsx.removeChild. tsimpl.
    case_bool_decide as Hin; [done|]. by rewrite filter_ne_absent.
  - f_equal. symmetry. induction hd as [|a hd IH]; [done|].
    rewrite filter_cons_True by done. by rewrite IH.
Qed.

Lemma elem_of_add_self (self : Subscriber) (subs : list Subscriber) :
  self ∈ JsSet.add self subs.
Proof.
  unfold JsSet.add. destruct (decide (self ∈ subs)); [done|].
  apply elem_of_app. right. by apply list_elem_of_singleton.
Qed.

Lemma elem_of_add_old (self x : Subscriber) (subs : list Subscriber) :
  x ∈ subs → x ∈ JsSet.add self subs.
Proof.
  intros Hx. unfold JsSet.add. destruct (decide (self ∈ subs)); [done|].
  apply elem_of_app. by left.
Qed.

(** X15. In the TypeScript variant a consumer that subscribes to a key with a
    record joins its subscriber set whatever the status -- Pending, Loaded
    or Failed -- and is shown that status (and the stored error) at once;
    nothing else changes and the cleanup for this callback is returned.
    Hence when another consumer then unsubscribes, the record stays
    registered and the document is not touched, also when the script had
    already loaded or failed before this consumer arrived. *)
Theorem tsx_late_subscriber_is_registered
    (w : Tsx.World) (k : string) (self other : Subscriber) (r : nat)
    (rec : Tsx.ScriptState) :
  k ≠ "" →
  Tsx.scriptStates w !! k = Some r →
  Tsx.heap w !! r = Some rec →
  other ≠ self →
  let w' := (Tsx.effect (Some k) self w).1 in
  let w'' := Tsx.cleanup (k, other) w' in
  Tsx.record_of k w'
  = Some {| Tsx.status := Tsx.status rec; Tsx.error := Tsx.error rec;
            Tsx.scriptElement := Tsx.scriptElement rec;
            Tsx.subscribers := JsSet.add self (Tsx.subscribers rec) |}
  ∧ self ∈ JsSet.add self (Tsx.subscribers rec)
  ∧ Tsx.cell (owner self) w'
    = {| isLoading := bool_decide (Tsx.status rec = st_loading);
         hookError := Tsx.error rec;
         isLoaded := bool_decide (Tsx.status rec = st_loaded) |}
  ∧ (Tsx.effect (Some k) self w).2 = Some (k, self)
  ∧ Tsx.scriptStates w' = Tsx.scriptStates w
  ∧ Tsx.documentHead w' = Tsx.documentHead w
  ∧ Tsx.nodes w' = Tsx.nodes w
  ∧ Tsx.fetches w' = Tsx.fetches w
  ∧ Tsx.scriptStates w'' !! k = Some r
  ∧ Tsx.documentHead w'' = Tsx.documentHead w
  ∧ ∃ rec'', Tsx.heap w'' !! r = Some rec'' ∧ self ∈ Tsx.subscribers rec''.
Proof.
  intros Hk Hr Hrec Hne w' w''. subst w'' w'.
  rewrite (tsx_effect_existing _ _ _ _ _ Hk Hr Hrec). cbn [fst snd].
  pose proof (elem_of_add_self self (Tsx.subscribers rec)) as Hself.
  assert (Tsx.scriptStates (Tsx.set_heap (alter (tsx_add_subscriber self) r)
            (tsx_put (owner self) (tsx_view_for rec) w)) !! k = Some r) as Hr1
    by (by destruct w).
  assert (Tsx.heap (Tsx.set_heap (alter (tsx_add_subscriber self) r)
            (tsx_put (owner self) (tsx_view_for rec) w)) !! r
          = Some (tsx_add_subscriber self rec)) as Hrec1
    by (destruct w; tsimpl; by apply lookup_alter_Some).
  split; [apply tsx_record_of_Some; eauto|].
  split; [done|].
  split; [unfold Tsx.cell; destruct w; tsimpl; by rewrite lookup_insert_eq|].
  split; [done|].
  do 4 (split; [by destruct w|]).
  erewrite tsx_cleanup_keep; [|done|exact Hr1|exact Hrec1|].
  - split; [by destruct w|]. split; [by destruct w|].
    exists (tsx_drop_subscriber other (tsx_add_subscriber self rec)). split.
    + destruct w; tsimpl. rewrite list_alter_alter_eq.
      by apply (lookup_alter_Some (tsx_drop_subscriber other ∘ tsx_add_subscriber self)).
    + cbn [tsx_drop_subscriber tsx_add_subscriber Tsx.subscribers].
      unfold JsSet.delete. apply list_elem_of_filter. split; [congruence|done].
  - left. cbn [tsx_add_subscriber Tsx.subscribers]. intros Hnil.
    assert (self ∈ JsSet.delete other (JsSet.add self (Tsx.subscribers rec))) as Hin.
    { unfold JsSet.delete. apply list_elem_of_filter. split; [congruence|done]. }
    rewrite Hnil in Hin. by apply elem_of_nil in Hin.
Qed.

Lemma tsx_late_subscriber_is_registered_witness :
  let w := Tsx.fire_load 0 (Tsx.effect (Some url_s) consumer1 Tsx.init).1 in
  Tsx.scriptStates (Tsx.cleanup (url_s, consumer1) (Tsx.effect (Some url_s) consumer2 w).1)
    !! url_s = Some 0.
Proof.
  refine (proj1 (proj2 (proj2 (proj2 (proj2 (proj2 (proj2 (proj2 (proj2
            (tsx_late_subscriber_is_registered
               (Tsx.fire_load 0 (Tsx.effect (Some url_s) consumer1 Tsx.init).1)
               url_s consumer2 consumer1 0
               {| Tsx.status := st_loaded; Tsx.error := None;
                  Tsx.scriptElement := Some 0; Tsx.subscribers := [consumer1] |}
               _ _ _ _)))))))))).
  - discriminate.
  - vm_compute. reflexivity.
  - vm_compute. reflexivity.
  - discriminate.
Defined.

(** X16. In the TypeScript variant an absent or empty key is no error: the
    first render already returns isLoading=false, isLoaded=false,
    error=null, and the effect sets exactly that view, touches nothing
    else in the store and returns no cleanup. With a non-empty key the
    first render returns isLoading=true. *)
Theorem tsx_empty_key_is_idle
    (scriptUrl : option string) (self : Subscriber) (w : Tsx.World) :
  scriptUrl = None ∨ scriptUrl = Some "" →
  Tsx.useState_initial scriptUrl
  = {| isLoading := false; hookError := None; isLoaded := false |}
  ∧ Tsx.effect scriptUrl self w
    = (Tsx.set_cells <[owner self := {| isLoading := false; hookError := None;
                                        isLoaded := false |}]> w, None)
  ∧ ∀ k, k ≠ "" →
      Tsx.useState_initial (Some k)
      = {| isLoading := true; hookError := None; isLoaded := false |}.
Proof.
  intros Hempty.
  assert (falsy scriptUrl = true) as Hf by (by destruct Hempty as [-> | ->]).
  split; [unfold Tsx.useState_initial; by rewrite Hf|].
  split; [by rewrite tsx_effect_falsy|].
  intros k Hk. unfold Tsx.useState_initial. by rewrite falsy_Some.
Qed.

Lemma tsx_empty_key_is_idle_witness :
  Tsx.effect (Some "") consumer1 Tsx.init
  = (Tsx.set_cells <[1 := {| isLoading := false; hookError := None;
                             isLoaded := false |}]> Tsx.init, None).
Proof.
  refine (proj1 (proj2 (tsx_empty_key_is_idle (Some "") consumer1 Tsx.init _))).
  by right.
Defined.

Lemma tsx_onload_eq k r w :
  Tsx.scriptStates w !! k = Some r →
  Tsx.onload_handler k w
  = Tsx.set_cells (broadcast {| isLoading := false; hookError := None; isLoaded := true |}
                             (Tsx.subscribers_of r w))
      (Tsx.set_heap (alter (tsx_complete st_loaded None) r) w).
Proof.
  intros Hr. unfold Tsx.onload_handler. rewrite Hr, tsx_forEach.
  unfold Tsx.subscribers_of. destruct w as [ss hp ns hd cs fs]; tsimpl.
  rewrite !list_lookup_alter_eq, list_alter_alter_eq.
  by destruct (hp !! r).
Qed.

Lemma tsx_onerror_eq k event r w :
  Tsx.scriptStates w !! k = Some r →
  let err := {| message := match event with
                           | Tsx.AString s => s
                           | Tsx.AnEvent => "Error loading script: " +:+ k
                           end |} in
  Tsx.onerror_handler k event w
  = Tsx.set_cells (broadcast {| isLoading := false; hookError := Some err;
                                isLoaded := false |}
                             (Tsx.subscribers_of r w))
      (Tsx.set_heap (alter (tsx_complete st_error (Some err)) r) w).
Proof.
  intros Hr err. unfold Tsx.onerror_handler. rewrite Hr, tsx_forEach.
  unfold Tsx.subscribers_of. destruct w as [ss hp ns hd cs fs]; tsimpl.
  rewrite !list_lookup_alter_eq, list_alter_alter_eq.
  by destruct (hp !! r).
Qed.

(** X17. Completion in the TypeScript variant. When [onload] of an element
    made for [k] is called and [k] has a record, the record becomes
    Loaded with its error cleared, and every subscriber in its set is
    shown loading=false, loaded=true, error=null. When [onerror] is
    called, the record becomes Failed with an Error whose message is the
    argument itself if that is a string, and "Error loading script: "
    followed by the key otherwise; every subscriber is shown that error.
    Element and subscriber set of the record stay; registry, document,
    elements and fetch log are untouched. *)
Theorem tsx_completion_reaches_every_subscriber
    (w : Tsx.World) (k : string) (r : nat) (rec : Tsx.ScriptState)
    (e : nat) (el : Tsx.ScriptElement) (event : Tsx.ErrorArgument) :
  Tsx.scriptStates w !! k = Some r →
  Tsx.heap w !! r = Some rec →
  Tsx.nodes w !! e = Some el →
  Tsx.onload el = Some k →
  Tsx.onerror el = Some k →
  (let w' := Tsx.fire_load e w in
   Tsx.record_of k w'
   = Some {| Tsx.status := st_loaded; Tsx.error := None;
             Tsx.scriptElement := Tsx.scriptElement rec;
             Tsx.subscribers := Tsx.subscribers rec |}
   ∧ (∀ sub, sub ∈ Tsx.subscribers rec →
        Tsx.cell (owner sub) w'
        = {| isLoading := false; hookError := None; isLoaded := true |})
   ∧ Tsx.scriptStates w' = Tsx.scriptStates w
   ∧ Tsx.documentHead w' = Tsx.documentHead w
   ∧ Tsx.fetches w' = Tsx.fetches w)
  ∧ (let err := {| message := match event with
                              | Tsx.AString s => s
                              | Tsx.AnEvent => "Error loading script: " +:+ k
                              end |} in
     let w' := Tsx.fire_error e event w in
     Tsx.record_of k w'
     = Some {| Tsx.status := st_error; Tsx.error := Some err;
               Tsx.scriptElement := Tsx.scriptElement rec;
               Tsx.subscribers := Tsx.subscribers rec |}
     ∧ (∀ sub, sub ∈ Tsx.subscribers rec →
          Tsx.cell (owner sub) w'
          = {| isLoading := false; hookError := Some err; isLoaded := false |})
     ∧ Tsx.scriptStates w' = Tsx.scriptStates w
     ∧ Tsx.documentHead w' = Tsx.documentHead w
     ∧ Tsx.fetches w' = Tsx.fetches w).
Proof.
  intros Hr Hrec Hel Hload Herror.
  assert (Tsx.subscribers_of r w = Tsx.subscribers rec) as Hsubs
    by (unfold Tsx.subscribers_of; by rewrite Hrec).
  split.
  - intros w'. subst w'. unfold Tsx.fire_load. rewrite Hel. cbn [mbind option_bind].
    rewrite Hload, (tsx_onload_eq k r w Hr), Hsubs.
    split.
    { apply tsx_record_of_Some. exists r. split; [by destruct w|].
      destruct w; tsimpl. by apply (lookup_alter_Some (tsx_complete st_loaded None)). }
    split; [|by destruct w].
    intros sub Hin. unfold Tsx.cell. destruct w; tsimpl.
    by rewrite (broadcast_lookup_in _ _ _ _ Hin).
  - intros err w'. subst w'. unfold Tsx.fire_error. rewrite Hel. cbn [mbind option_bind].
    rewrite Herror, (tsx_onerror_eq k event r w Hr), Hsubs.
    split.
    { apply tsx_record_of_Some. exists r. split; [by destruct w|].
      destruct w; tsimpl.
      by apply (lookup_alter_Some (tsx_complete st_error (Some err))). }
    split; [|by destruct w].
    intros sub Hin. unfold Tsx.cell. destruct w; tsimpl.
    by rewrite (broadcast_lookup_in _ _ _ _ Hin).
Qed.

Lemma tsx_completion_reaches_every_subscriber_witness :
  Tsx.cell 1 (Tsx.fire_error 0 (Tsx.AString "blocked")
                (Tsx.effect (Some url_bad) consumer1 Tsx.init).1)
  = {| isLoading := false; hookError := Some {| message := "blocked" |};
       isLoaded := false |}.
Proof.
  refine (proj1 (proj2 (proj2 (tsx_completion_reaches_every_subscriber
            (Tsx.effect (Some url_bad) consumer1 Tsx.init).1 url_bad 0
            {| Tsx.status := st_loading; Tsx.error := None;
               Tsx.scriptElement := Some 0; Tsx.subscribers := [consumer1] |}
            0 {| Tsx.src := url_bad; Tsx.async := true;
                 Tsx.onload := Some url_bad; Tsx.onerror := Some url_bad |}
            (Tsx.AString "blocked") _ _ _ _ _))) consumer1 _).
  - vm_compute. reflexivity.
  - vm_compute. reflexivity.
  - vm_compute. reflexivity.
  - reflexivity.
  - reflexivity.
  - left.
Defined.

Lemma tsx_same_frame_refl w : tsx_same_frame w w.
Proof. unfold tsx_same_frame. repeat split; eauto. Qed.

Lemma tsx_complete_frame v subs st er (r : nat) w :
  tsx_same_frame w
    (Tsx.set_cells (broadcast v subs) (Tsx.set_heap (alter (tsx_complete st er) r) w)).
Proof.
  unfold tsx_same_frame. do 4 (split; [by destruct w|]).
  intros r' rec Hrec. destruct w as [ss hp ns hd cs fs]; tsimpl.
  destruct (decide (r' = r)) as [->|Hne].
  - exists (tsx_complete st er rec). split; [|done].
    by apply (lookup_alter_Some (tsx_complete st er)).
  - exists rec. split; [|done]. by rewrite list_lookup_alter_ne.
Qed.

(** X18. A completion event of the TypeScript variant never tears anything
    down: after [onload] or [onerror] of any element, in any store, the
    registry, the document, the elements and the fetch log are as before,
    and every record keeps its subscriber set and its element. When the
    key the handler was made for has no record, the store is not changed
    at all. *)
Theorem tsx_completion_tears_nothing_down
    (w : Tsx.World) (e : nat) (event : Tsx.ErrorArgument) :
  tsx_same_frame w (Tsx.fire_load e w)
  ∧ tsx_same_frame w (Tsx.fire_error e event w)
  ∧ (∀ k, Tsx.nodes w !! e ≫= Tsx.onload = Some k → Tsx.scriptStates w !! k = None →
       Tsx.fire_load e w = w)
  ∧ (∀ k, Tsx.nodes w !! e ≫= Tsx.onerror = Some k → Tsx.scriptStates w !! k = None →
       Tsx.fire_error e event w = w).
Proof.
  split; [|split; [|split]].
  - unfold Tsx.fire_load. destruct (Tsx.nodes w !! e ≫= Tsx.onload) as [k|];
      [|apply tsx_same_frame_refl].
    destruct (Tsx.scriptStates w !! k) as [r|] eqn:Hr.
    + rewrite (tsx_onload_eq k r w Hr). apply tsx_complete_frame.
    + unfold Tsx.onload_handler. rewrite Hr. apply tsx_same_frame_refl.
  - unfold Tsx.fire_error. destruct (Tsx.nodes w !! e ≫= Tsx.onerror) as [k|];
      [|apply tsx_same_frame_refl].
    destruct (Tsx.scriptStates w !! k) as [r|] eqn:Hr.
    + rewrite (tsx_onerror_eq k event r w Hr). apply tsx_complete_frame.
    + unfold Tsx.onerror_handler. rewrite Hr. apply tsx_same_frame_refl.
  - intros k Hk Hr. unfold Tsx.fire_load, Tsx.onload_handler. by rewrite Hk, Hr.
  - intros k Hk Hr. unfold Tsx.fire_error, Tsx.onerror_handler. by rewrite Hk, Hr.
Qed.

Lemma tsx_key_op_inv k e r F N op w :
  k ≠ "" → tsx_key_inv k e r F N w →
  tsx_key_inv k e r F N (tsx_key_op k e op w)
  ∧ ∀ rec, Tsx.heap w !! r = Some rec →
      ∃ rec', Tsx.heap (tsx_key_op k e op w) !! r = Some rec'
              ∧ (∀ s, s ∈ Tsx.subscribers rec → s ∈ Tsx.subscribers rec')
              ∧ (∀ s, op = TJoin s → s ∈ Tsx.subscribers rec').
Proof.
  intros Hk (Hr & HF & HN & (el & Hel & Hload & Herror) & rec & Hrec & He & Hview).
  destruct op as [self| |event]; cbn [tsx_key_op].
  - rewrite (tsx_effect_existing _ _ _ _ _ Hk Hr Hrec). cbn [fst].
    assert (Tsx.heap (Tsx.set_heap (alter (tsx_add_subscriber self) r)
              (tsx_put (owner self) (tsx_view_for rec) w)) !! r
            = Some (tsx_add_subscriber self rec)) as Hrec'
      by (destruct w; tsimpl; by apply lookup_alter_Some).
    split.
    + split; [by destruct w|]. split; [by destruct w|]. split; [by destruct w|].
      split; [exists el; by destruct w|].
      exists (tsx_add_subscriber self rec). split; [done|]. split; [done|].
      intros s Hs. cbn [tsx_add_subscriber Tsx.subscribers] in Hs.
      change (tsx_view_for (tsx_add_subscriber self rec)) with (tsx_view_for rec).
      destruct (decide (owner s = owner self)) as [Heq|Hne].
      * rewrite Heq. unfold Tsx.cell. destruct w; tsimpl. by rewrite lookup_insert_eq.
      * apply elem_of_add in Hs as [->|Hs]; [done|].
        specialize (Hview s Hs). unfold Tsx.cell in *. destruct w; tsimpl.
        by rewrite lookup_insert_ne.
    + intros rec0 Hrec0. assert (rec0 = rec) as -> by congruence.
      exists (tsx_add_subscriber self rec). split; [done|]. split.
      * intros s Hs. by apply elem_of_add_old.
      * intros s [= <-]. apply elem_of_add_self.
  - unfold Tsx.fire_load. rewrite Hel. cbn [mbind option_bind].
    rewrite Hload, (tsx_onload_eq k r w Hr).
    assert (Tsx.subscribers_of r w = Tsx.subscribers rec) as ->
      by (unfold Tsx.subscribers_of; by rewrite Hrec).
    split.
    + split; [by destruct w|]. split; [by destruct w|]. split; [by destruct w|].
      split; [exists el; by destruct w|].
      exists (tsx_complete st_loaded None rec).
      split; [destruct w; tsimpl; by apply (lookup_alter_Some (tsx_complete st_loaded None))|].
      split; [done|].
      intros s Hs. unfold Tsx.cell. destruct w; tsimpl.
      by rewrite (broadcast_lookup_in _ _ _ _ Hs).
    + intros rec0 Hrec0. assert (rec0 = rec) as -> by congruence.
      exists (tsx_complete st_loaded None rec).
      split; [destruct w; tsimpl; by apply (lookup_alter_Some (tsx_complete st_loaded None))|].
      split; [done|]. intros s [=].
  - unfold Tsx.fire_error. rewrite Hel. cbn [mbind option_bind].
    rewrite Herror, (tsx_onerror_eq k event r w Hr).
    assert (Tsx.subscribers_of r w = Tsx.subscribers rec) as ->
      by (unfold Tsx.subscribers_of; by rewrite Hrec).
    split.
    + split; [by destruct w|]. split; [by destruct w|]. split; [by destruct w|].
      split; [exists el; by destruct w|].
      eexists (tsx_complete st_error _ rec).
      split; [destruct w; tsimpl; by apply (lookup_alter_Some (tsx_complete st_error _))|].
      split; [done|].
      intros s Hs. unfold Tsx.cell. destruct w; tsimpl.
      by rewrite (broadcast_lookup_in _ _ _ _ Hs).
    + intros rec0 Hrec0. assert (rec0 = rec) as -> by congruence.
      eexists (tsx_complete st_error _ rec).
      split; [destruct w; tsimpl; by apply (lookup_alter_Some (tsx_complete st_error _))|].
      split; [done|]. intros s [=].
Qed.

Lemma tsx_key_ops_inv k e r F N ops :
  k ≠ "" → ∀ w, tsx_key_inv k e r F N w →
  tsx_key_inv k e r F N (tsx_key_ops k e ops w)
  ∧ ∀ rec, Tsx.heap w !! r = Some rec →
      ∃ rec', Tsx.heap (tsx_key_ops k e ops w) !! r = Some rec'
              ∧ (∀ s, s ∈ Tsx.subscribers rec → s ∈ Tsx.subscribers rec')
              ∧ (∀ s, TJoin s ∈ ops → s ∈ Tsx.subscribers rec').
Proof.
  intros Hk. induction ops as [|op ops IH]; intros w Hinv.
  - split; [done|]. intros rec Hrec. exists rec. split; [done|]. split; [done|].
    intros s Hs. by apply elem_of_nil in Hs.
  - destruct (tsx_key_op_inv k e r F N op w Hk Hinv) as [Hinv1 Hsub1].
    destruct (IH _ Hinv1) as [Hinv2 Hsub2].
    split; [exact Hinv2|].
    intros rec Hrec. destruct (Hsub1 rec Hrec) as (rec1 & Hrec1 & Hold1 & Hnew1).
    destruct (Hsub2 rec1 Hrec1) as (rec2 & Hrec2 & Hold2 & Hnew2).
    exists rec2. split; [exact Hrec2|]. split; [eauto|].
    intros s Hs. apply elem_of_cons in Hs as [Heq|Hs]; [|eauto].
    apply Hold2, Hnew1. by rewrite Heq.
Qed.

(** X19. TypeScript variant: when a key without a record is subscribed to and
    then, in any order and number, further consumers subscribe to it and
    its element reports load or failure (nobody unsubscribing), the key
    is fetched exactly once and one element is created; the first and
    every later consumer is in the record's subscriber set, whether it
    came before or after a completion; and every member of the set is
    shown the record's current status and error. *)
Theorem tsx_key_is_fetched_once_and_every_subscriber_follows
    (w : Tsx.World) (k : string) (self : Subscriber) (ops : list TsxKeyOp) :
  k ≠ "" →
  Tsx.scriptStates w !! k = None →
  let e := length (Tsx.nodes w) in
  let w' := tsx_key_ops k e ops (Tsx.effect (Some k) self w).1 in
  Tsx.fetch_count k w' = S (Tsx.fetch_count k w)
  ∧ length (Tsx.nodes w') = S (length (Tsx.nodes w))
  ∧ ∃ rec, Tsx.record_of k w' = Some rec
      ∧ Tsx.scriptElement rec = Some e
      ∧ self ∈ Tsx.subscribers rec
      ∧ (∀ s, TJoin s ∈ ops → s ∈ Tsx.subscribers rec)
      ∧ ∀ s, s ∈ Tsx.subscribers rec →
          Tsx.cell (owner s) w'
          = {| isLoading := bool_decide (Tsx.status rec = st_loading);
               hookError := Tsx.error rec;
               isLoaded := bool_decide (Tsx.status rec = st_loaded) |}.
Proof.
  intros Hk Hnone e w'. subst e w'.
  pose proof (tsx_effect_new k self w Hk Hnone) as Heff.
  destruct (Tsx.effect (Some k) self w) as [w1 c]. cbn [fst].
  injection Heff as Hw1 _.
  assert (tsx_key_inv k (length (Tsx.nodes w)) (length (Tsx.heap w))
            (Tsx.fetches w ++ [k]) (S (length (Tsx.nodes w))) w1) as Hinv.
  { subst w1. unfold tsx_key_inv. cbn [Tsx.scriptStates Tsx.fetches Tsx.nodes Tsx.heap].
    split; [by rewrite lookup_insert_eq|]. split; [done|].
    split; [rewrite length_app; cbn; lia|].
    split.
    { eexists. split; [by apply list_lookup_middle|done]. }
    eexists. split; [by apply list_lookup_middle|]. split; [done|].
    intros s Hs. cbn [Tsx.subscribers] in Hs. apply list_elem_of_singleton in Hs as ->.
    unfold Tsx.cell. cbn [Tsx.cells]. by rewrite lookup_insert_eq. }
  assert (Tsx.heap w1 !! length (Tsx.heap w)
          = Some {| Tsx.status := st_loading; Tsx.error := None;
                    Tsx.scriptElement := Some (length (Tsx.nodes w));
                    Tsx.subscribers := [self] |}) as Hrec1.
  { subst w1. cbn [Tsx.heap]. by apply list_lookup_middle. }
  destruct (tsx_key_ops_inv k _ _ _ _ ops Hk w1 Hinv) as [Hinv' Hsub].
  destruct (Hsub _ Hrec1) as (rec' & Hrec' & Hold & Hnew).
  destruct Hinv' as (Hr & HF & HN & _ & rec'' & Hrec'' & He & Hview).
  assert (rec'' = rec') as -> by congruence.
  split.
  { unfold Tsx.fetch_count. rewrite HF, filter_app, length_app.
    rewrite filter_cons_True by done. cbn. lia. }
  split; [done|].
  exists rec'. split; [apply tsx_record_of_Some; eauto|]. split; [done|].
  split; [apply Hold; cbn; apply list_elem_of_singleton; done|].
  split; [done|]. exact Hview.
Qed.

Lemma tsx_key_is_fetched_once_and_every_subscriber_follows_witness :
  Tsx.fetch_count url_s
    (tsx_key_ops url_s 0 [TJoin consumer2; TLoad; TJoin consumer1]
       (Tsx.effect (Some url_s) consumer1 Tsx.init).1) = 1.
Proof.
  refine (proj1 (tsx_key_is_fetched_once_and_every_subscriber_follows
            Tsx.init url_s consumer1 [TJoin consumer2; TLoad; TJoin consumer1] _ _)).
  - discriminate.
  - reflexivity.
Defined.

(** X20. TypeScript variant, the last subscriber of a key unsubscribes. While
    the script is still loading the record stays registered with an empty
    subscriber set and the element stays in the document, so that the
    next consumer joins that load without a new fetch. Once the script
    has loaded or failed, the key is removed from the registry and the
    record's element from the document, and the next consumer starts a
    new fetch and is shown the loading state. *)
Theorem tsx_last_unsubscribe
    (w : Tsx.World) (k : string) (self other : Subscriber) (r : nat)
    (rec : Tsx.ScriptState) :
  k ≠ "" →
  Tsx.scriptStates w !! k = Some r →
  Tsx.heap w !! r = Some rec →
  JsSet.delete self (Tsx.subscribers rec) = [] →
  let w' := Tsx.cleanup (k, self) w in
  let w'' := (Tsx.effect (Some k) other w').1 in
  (Tsx.status rec = st_loading →
     Tsx.record_of k w'
     = Some {| Tsx.status := st_loading; Tsx.error := Tsx.error rec;
               Tsx.scriptElement := Tsx.scriptElement rec; Tsx.subscribers := [] |}
     ∧ Tsx.documentHead w' = Tsx.documentHead w
     ∧ Tsx.fetch_count k w'' = Tsx.fetch_count k w
     ∧ Tsx.scriptStates w'' !! k = Some r)
  ∧ (Tsx.status rec ≠ st_loading →
     Tsx.scriptStates w' !! k = None
     ∧ (∀ x, x ∈ Tsx.documentHead w'
             ↔ x ∈ Tsx.documentHead w ∧ Some x ≠ Tsx.scriptElement rec)
     ∧ Tsx.fetch_count k w'' = S (Tsx.fetch_count k w)
     ∧ Tsx.cell (owner other) w''
       = {| isLoading := true; hookError := None; isLoaded := false |}).
Proof.
  intros Hk Hr Hrec Hlast w' w''. subst w'' w'. split.
  - intros Hst.
    rewrite (tsx_cleanup_keep k self w r rec Hk Hr Hrec (or_intror Hst)).
    assert (Tsx.heap (Tsx.set_heap (alter (tsx_drop_subscriber self) r) w) !! r
            = Some (tsx_drop_subscriber self rec)) as Hrec'
      by (destruct w; tsimpl; by apply lookup_alter_Some).
    assert (Tsx.scriptStates (Tsx.set_heap (alter (tsx_drop_subscriber self) r) w) !! k
            = Some r) as Hr' by (by destruct w).
    split.
    { apply tsx_record_of_Some. exists r. split; [done|]. rewrite Hrec'.
      unfold tsx_drop_subscriber. by rewrite Hlast, Hst. }
    split; [by destruct w|].
    rewrite (tsx_effect_existing _ _ _ _ _ Hk Hr' Hrec'). cbn [fst].
    split; by destruct w.
  - intros Hst.
    rewrite (tsx_cleanup_teardown k self w r rec Hk Hr Hrec Hlast Hst).
    split; [destruct w; tsimpl; by rewrite lookup_delete_eq|].
    split.
    { intros x. destruct w; tsimpl. rewrite list_elem_of_filter. tauto. }
    rewrite tsx_effect_new; [|done|destruct w; tsimpl; by rewrite lookup_delete_eq].
    cbn [fst]. split.
    + unfold Tsx.fetch_count. cbn [Tsx.fetches]. destruct w; tsimpl.
      rewrite filter_app, length_app, filter_cons_True by done. cbn. lia.
    + unfold Tsx.cell. cbn [Tsx.cells]. by rewrite lookup_insert_eq.
Qed.

Lemma tsx_last_unsubscribe_witness :
  let w := Tsx.fire_load 0 (Tsx.effect (Some url_s) consumer1 Tsx.init).1 in
  Tsx.scriptStates (Tsx.cleanup (url_s, consumer1) w) !! url_s = None.
Proof.
  refine (proj1 (proj2 (tsx_last_unsubscribe
            (Tsx.fire_load 0 (Tsx.effect (Some url_s) consumer1 Tsx.init).1)
            url_s consumer1 consumer2 0
            {| Tsx.status := st_loaded; Tsx.error := None;
               Tsx.scriptElement := Some 0; Tsx.subscribers := [consumer1] |}
            _ _ _ _) _)).
  - discriminate.
  - vm_compute. reflexivity.
  - vm_compute. reflexivity.
  - vm_compute. reflexivity.
  - discriminate.
Defined.

(** * Instances without a key, and the example application *)

Lemma cells_effect_other scriptUrl (self : Subscriber) w h :
  h ≠ owner self → cells (effect scriptUrl self w).1 !! h = cells w !! h.
Proof.
  intros Hne. destruct (falsy scriptUrl) eqn:Hf.
  { rewrite effect_falsy by done. destruct w; wsimpl. by rewrite lookup_insert_ne. }
  apply falsy_false in Hf as (k & -> & Hk).
  destruct (scriptStates w !! k) as [r|] eqn:Hr.
  - destruct (heap w !! r) as [rec|] eqn:Hrec.
    + rewrite (effect_existing _ _ _ _ _ Hk Hr Hrec). cbn [fst].
      destruct (status rec); destruct w; wsimpl; by rewrite lookup_insert_ne.
    + by rewrite (effect_dangling _ _ _ _ Hk Hr Hrec).
  - rewrite (effect_new _ _ _ Hk Hr). cbn [fst cells]. by rewrite lookup_insert_ne.
Qed.

Lemma cells_run_destroy d w : cells (run_destroy d w) = cells w.
Proof. destruct d; [apply cells_cleanup|done]. Qed.

Lemma cells_call_absent l h w :
  absent_from_sets h w →
  cells (call l w) !! h = cells w !! h ∧ absent_from_sets h (call l w).
Proof.
  intros Ha. split.
  - assert (∀ sub, sub ∈ subscribers_of (match l with
                                          | handleLoad_of r => r
                                          | handleError_of _ r => r
                                          end) w → owner sub ≠ h) as Hsubs.
    { intros sub Hin. unfold subscribers_of in Hin.
      destruct (heap w !! _) as [x|] eqn:Hx; [|by apply elem_of_nil in Hin].
      by eapply (Ha _ x sub). }
    destruct l as [r|k r]; cbn [call];
      [rewrite handleLoad_eq|rewrite handleError_eq];
      destruct w as [ss hp ns hd cs fs]; wsimpl;
      by apply broadcast_lookup_other.
  - intros r rec sub Hrec Hin.
    destruct (handler_frame l w) as (_ & _ & _ & _ & Hh).
    destruct (Hh r) as [Hsub _]. rewrite Hrec in Hsub.
    destruct (heap w !! r) as [x|] eqn:Hx; [|done]. injection Hsub as Hsub.
    apply (Ha r x sub); [done|]. by rewrite <- Hsub.
Qed.

Lemma cells_dispatch_absent e ty h w :
  absent_from_sets h w → cells (dispatchEvent e ty w) !! h = cells w !! h.
Proof.
  intros Ha. unfold dispatchEvent. destruct (nodes w !! e) as [el|]; [|done].
  generalize (listeners el). intros ls.
  assert (∀ w', absent_from_sets h w' → cells w' !! h = cells w !! h →
            cells (foldl (λ acc tl, if decide (tl.1 = ty) then call tl.2 acc else acc)
                         w' ls) !! h = cells w !! h) as Hgen.
  { induction ls as [|[ty' l] ls IH]; intros w' Ha' Heq; [done|].
    cbn [foldl fst snd]. destruct (decide (ty' = ty)); [|by apply IH].
    destruct (cells_call_absent l h w' Ha') as [Hc Ha''].
    apply IH; [done|]. by rewrite Hc. }
  by apply Hgen.
Qed.

Lemma idle_step op st :
  live_in (fibers st) (world st) → idle_shown st → idle_shown (step op st).
Proof.
  intros Hl Hi. destruct op as [h' scriptUrl|h'|h'|e ty]; cbn [step].
  - unfold useLazyScriptLoader. destruct (fibers st !! h') as [f'|] eqn:Hf'.
    + cbn [snd]. intros h f u Hf Hd Hu. cbn [fibers world] in *.
      destruct (decide (h' = h)) as [->|Hne].
      * rewrite lookup_insert_eq in Hf. injection Hf as <-. cbn [deps destroy] in *.
        by apply (Hi h f' u).
      * rewrite lookup_insert_ne in Hf by done. by apply (Hi h f u).
    + destruct (cells (world st) !! h') eqn:Hc; [done|]. cbn [snd].
      intros h f u Hf Hd Hu. cbn [fibers world exec] in *.
      destruct (decide (h' = h)) as [->|Hne].
      * rewrite lookup_insert_eq in Hf. injection Hf as <-. done.
      * rewrite lookup_insert_ne in Hf by done.
        destruct (Hi h f u Hf Hd Hu) as [? Hcell]. split; [done|].
        destruct (world st); wsimpl. by rewrite lookup_insert_ne.
  - unfold commit. destruct (fibers st !! h') as [f'|] eqn:Hf'; [|done].
    destruct (decide (deps f' = Some (props f'))); [done|].
    destruct (effect (props f') {| owner := h'; run := effectRuns st |}
                (run_destroy (destroy f') (world st))) as [w2 d] eqn:Heff.
    intros h f u Hf Hd Hu. cbn [fibers world] in *.
    destruct (decide (h' = h)) as [->|Hne].
    + rewrite lookup_insert_eq in Hf. injection Hf as <-. cbn [deps destroy] in *.
      injection Hd as <-. rewrite effect_falsy in Heff by done.
      injection Heff as <- <-. split; [done|].
      unfold put. cbn [owner]. destruct (run_destroy (destroy f') (world st)); wsimpl.
      by rewrite lookup_insert_eq.
    + rewrite lookup_insert_ne in Hf by done.
      destruct (Hi h f u Hf Hd Hu) as [? Hcell]. split; [done|].
      assert (w2 = (effect (props f') {| owner := h'; run := effectRuns st |}
                      (run_destroy (destroy f') (world st))).1) as ->
        by (by rewrite Heff).
      rewrite cells_effect_other by (cbn [owner]; congruence).
      by rewrite cells_run_destroy.
  - unfold unmount. destruct (fibers st !! h') as [f'|] eqn:Hf'; [|done].
    intros h f u Hf Hd Hu. cbn [fibers world] in *.
    apply lookup_delete_Some in Hf as [Hne Hf].
    rewrite cells_run_destroy. by apply (Hi h f u).
  - intros h f u Hf Hd Hu. cbn [fibers world exec] in *.
    destruct (Hi h f u Hf Hd Hu) as [Hnone Hcell]. split; [done|].
    rewrite cells_dispatch_absent; [done|].
    intros r rec sub Hrec Hin Hown.
    destruct (Hl r rec sub Hrec Hin) as (k & f0 & _ & Hf0 & Hd0 & _).
    rewrite Hown, Hf in Hf0. injection Hf0 as <-. congruence.
Qed.

Lemma idle_steps ops st :
  live_in (fibers st) (world st) → idle_shown st → idle_shown (steps ops st).
Proof.
  unfold steps. revert st. induction ops as [|op ops IH]; intros st Hl Hi; [done|].
  cbn [foldl]. apply IH; [by apply live_step|by apply idle_step].
Qed.

Lemma idle_reachable ops : idle_shown (steps ops init_react).
Proof.
  apply idle_steps.
  - intros r rec sub Hrec. cbn [init_react world init heap] in Hrec.
    by rewrite lookup_nil in Hrec.
  - intros h f u Hf. cbn [init_react fibers] in Hf. by rewrite lookup_empty in Hf.
Qed.

(** X13. In every state the hook can reach, an instance whose last committed
    effect ran with an empty key (null, undefined or the empty string)
    keeps being shown loading=false, loaded=false and the error
    "scriptUrl cannot be empty". Whatever other instances do and whatever
    events arrive, nothing writes to its state; it has no cleanup to run
    and none of its callbacks is in any subscriber set. *)
Theorem empty_key_error_stays
    (ops : list Op) (h : nat) (f : Fiber) (u : option string) :
  let st := steps ops init_react in
  fibers st !! h = Some f →
  deps f = Some u →
  u = None ∨ u = Some "" →
  view h st = {| isLoading := false;
                 hookError := Some {| message := "scriptUrl cannot be empty" |};
                 isLoaded := false |}
  ∧ destroy f = None
  ∧ ∀ r rec sub, heap (world st) !! r = Some rec → sub ∈ subscribers rec →
      owner sub ≠ h.
Proof.
  intros st Hf Hd Hu.
  assert (falsy u = true) as Hfal by (by destruct Hu as [-> | ->]).
  destruct (idle_reachable ops h f u Hf Hd Hfal) as [Hnone Hcell].
  split; [unfold view, cell; subst st; by rewrite Hcell|]. split; [done|].
  intros r rec sub Hrec Hin Hown.
  assert (live_in (fibers st) (world st)) as Hl.
  { apply live_steps. intros r0 rec0 sub0 Hrec0.
    cbn [init_react world init heap] in Hrec0. by rewrite lookup_nil in Hrec0. }
  destruct (Hl r rec sub Hrec Hin) as (k & f0 & _ & Hf0 & Hd0 & _).
  rewrite Hown in Hf0. subst st. rewrite Hf in Hf0. injection Hf0 as <-. congruence.
Qed.

Lemma empty_key_error_stays_witness :
  view 1 (steps [Render 1 None; Commit 1; Render 2 (Some url_s); Commit 2;
                 Fire 0 ev_load] init_react)
  = {| isLoading := false;
       hookError := Some {| message := "scriptUrl cannot be empty" |};
       isLoaded := false |}.
Proof.
  refine (proj1 (empty_key_error_stays
            [Render 1 None; Commit 1; Render 2 (Some url_s); Commit 2; Fire 0 ev_load]
            1 {| props := None; deps := Some None; destroy := None |} None _ _ _)).
  - vm_compute. reflexivity.
  - reflexivity.
  - by left.
Defined.

Lemma render_mounted scriptUrl h st f :
  fibers st !! h = Some f →
  useLazyScriptLoader scriptUrl h st
  = (cell h (world st),
     {| world := world st;
        fibers := <[h := {| props := scriptUrl; deps := deps f; destroy := destroy f |}]>
                    (fibers st);
        effectRuns := effectRuns st |}).
Proof. intros Hf. unfold useLazyScriptLoader. by rewrite Hf. Qed.

(** X14. The example application over the hook of [index.js]. Take any state
    the hook can reach in which the application is mounted as instance
    [h] and its last committed effect ran while [loadScript] was false.
    Rendered now it offers the load button and the ready panel. When the
    button is clicked, the render that follows, before its effect runs,
    still returns the state left by the empty key: the button reads
    "Loading Failed!" and the error panel shows "scriptUrl cannot be
    empty". Once the effect has been committed, the next render follows
    the script: the spinner when the URL is new or still loading, the
    charts when it was already loaded, and the stored failure when it had
    already failed. *)
Theorem app_click_shows_failure_until_effect_runs
    (ops : list Op) (h : nat) (f : Fiber) :
  let st := steps ops init_react in
  fibers st !! h = Some f →
  deps f = Some None →
  let before := App.App h {| App.loadScript := false; App.hooks := st |} in
  let clicked := App.onClick {| App.loadScript := false; App.hooks := st |} in
  let rendered := App.App h clicked in
  let after := App.App h (App.commitEffects h rendered.2) in
  before.1 = {| App.button := "Load Chart.js & Display Charts";
                App.main := [App.ReadyToLoad] |}
  ∧ rendered.1 = {| App.button := "Loading Failed!";
                    App.main := [App.ErrorPanel "scriptUrl cannot be empty"] |}
  ∧ after.1
    = match record_of App.SCRIPT_URL (world st) with
      | None => {| App.button := "Loading Script..."; App.main := [App.Spinner] |}
      | Some rec =>
          match status rec with
          | st_loading =>
              {| App.button := "Loading Script..."; App.main := [App.Spinner] |}
          | st_loaded =>
              {| App.button := "Charts Loaded Successfully!"; App.main := [App.Charts] |}
          | st_error =>
              {| App.button := "Loading Failed!";
                 App.main := [App.ErrorPanel (from_option message "" (error rec))] |}
          end
      end.
Proof.
  intros st Hf Hd before clicked rendered after.
  destruct (idle_reachable ops h f None Hf Hd eq_refl) as [Hnone Hcell].
  assert (wf (world st)) as Hwf by apply wf_steps, wf_init.
  assert (cell h (world st) = error_view (Some empty_key_error)) as Hview
    by (unfold cell; subst st; by rewrite Hcell).
  assert (App.SCRIPT_URL ≠ "") as Hurl by done.
  split; [|split].
  - subst before. unfold App.App. cbn [App.loadScript App.hooks].
    rewrite (render_mounted _ _ _ _ Hf), Hview. reflexivity.
  - subst rendered clicked. unfold App.App, App.onClick. cbn [App.loadScript App.hooks].
    rewrite (render_mounted _ _ _ _ Hf), Hview. reflexivity.
  - subst after rendered clicked.
    unfold App.App at 2. unfold App.onClick. cbn [App.loadScript App.hooks].
    rewrite (render_mounted _ _ _ _ Hf). cbn [snd].
    unfold App.commitEffects. cbn [App.loadScript App.hooks].
    unfold commit. cbn [fibers world effectRuns]. rewrite lookup_insert_eq.
    cbn [deps props destroy]. rewrite Hd, Hnone. cbn [run_destroy].
    destruct (decide (Some None = Some (Some App.SCRIPT_URL))) as [Heq|_];
      [discriminate Heq|].
    destruct (effect (Some App.SCRIPT_URL) {| owner := h; run := effectRuns st |}
                (world st)) as [w2 d] eqn:Heff.
    unfold App.App. cbn [App.loadScript App.hooks].
    erewrite render_mounted; [|cbn [fibers]; by rewrite lookup_insert_eq].
    cbn [fst world].
    destruct (record_of App.SCRIPT_URL (world st)) as [rec|] eqn:Hrec.
    + apply record_of_Some in Hrec as (r & Hr & Hrec).
      rewrite (effect_existing _ _ _ _ _ Hurl Hr Hrec) in Heff.
      injection Heff as <- _.
      destruct (status rec) eqn:Hst.
      * unfold cell. destruct (world st); wsimpl. cbn [owner].
        rewrite lookup_insert_eq. reflexivity.
      * unfold cell. destruct (world st); wsimpl. cbn [owner].
        rewrite lookup_insert_eq. reflexivity.
      * destruct (wf_heap _ Hwf r rec Hrec) as [_ Herr].
        destruct (error rec) as [err|] eqn:Herror; [|by destruct (Herr Hst)].
        unfold cell. destruct (world st); wsimpl. cbn [owner].
        rewrite lookup_insert_eq. reflexivity.
    + apply (record_of_registered _ _ Hwf) in Hrec.
      rewrite (effect_new _ _ _ Hurl Hrec) in Heff. injection Heff as <- _.
      unfold cell. cbn [cells owner]. rewrite lookup_insert_eq. reflexivity.
Qed.

Lemma app_click_shows_failure_until_effect_runs_witness :
  (App.App 1 (App.onClick {| App.loadScript := false;
                             App.hooks := steps [Render 1 None; Commit 1] init_react |})).1
  = {| App.button := "Loading Failed!";
       App.main := [App.ErrorPanel "scriptUrl cannot be empty"] |}.
Proof.
  refine (proj1 (proj2 (app_click_shows_failure_until_effect_runs
            [Render 1 None; Commit 1] 1
            {| props := None; deps := Some None; destroy := None |} _ _))).
  - vm_compute. reflexivity.
  - reflexivity.
Defined.
